(** * Rating estimators of [algo.py]: a shallow embedding

    The Python classes of [src/algo.py] ([Algo], [AlgoRandom], [AlgoUsingSim],
    [AlgoBasicCollaborative], [AlgoWithBaseline], [AlgoBaselineOnly],
    [AlgoClone], [AlgoMeanDiff], [AlgoCollabMeanDiff]) are embedded as records
    and functions.

    Conventions of the embedding:
    - Python and numpy integers are [Z]; numpy [float64] values are exact
      rationals [Qc] (rounding is not modelled); values the rationals cannot
      hold (nan, inf) stop the model with [NotFinite].
    - Code that can raise returns a [result]; the exceptions are the Python
      ones the source can meet.
    - A numpy 2-d array is a shape and a cell function; [np.empty] takes the
      previous content of the memory it hands out as an argument.
    - The rating dictionaries [ur] and [mr] are association lists in
      insertion order whose missing keys read as the empty list
      ([defaultdict(list)]).
    - [cmn.lastUi] and [cmn.lastMi] come from a module that is not in the
      source tree: they are arguments of the constructors. *)

From stdpp Require Import base list gmap strings numbers sorting.
From Stdlib Require Import ZArith QArith Qcanon Lia Lqa.

Local Open Scope Z_scope.

(** ** Python values and exceptions *)

Inductive pyerr :=
  | IndexError
  | NameError
  | ValueError
  | ZeroDivisionError
  | NotFinite.

Inductive result (A : Type) :=
  | Ok (a : A)
  | Raise (e : pyerr).
Arguments Ok {A} a.
Arguments Raise {A} e.

#[global] Instance result_ret : MRet result := @Ok.
#[global] Instance result_bind : MBind result :=
  fun A B f m => match m with Ok a => f a | Raise e => Raise e end.

(** A [for] loop whose body may raise, threading the loop state. *)
Fixpoint foldM {S A : Type} (f : S → A → result S) (s : S) (l : list A)
  : result S :=
  match l with
  | [] => Ok s
  | a :: l' => s' ← f s a; foldM f s' l'
  end.

(** [[g(a) for a in l]] with a [g] that may raise. *)
Fixpoint forM {A B : Type} (g : A → result B) (l : list A) : result (list B) :=
  match l with
  | [] => Ok []
  | a :: l' => b ← g a; bs ← forM g l'; Ok (b :: bs)
  end.

(** [[g(a) for a in l if p(a)]]: the condition is evaluated first, the
    element only when it holds; either may raise. *)
Fixpoint comprehension {A B : Type} (p : A → result bool) (g : A → result B)
    (l : list A) : result (list B) :=
  match l with
  | [] => Ok []
  | a :: l' =>
      b ← p a;
      if b : bool then v ← g a; r ← comprehension p g l'; Ok (v :: r)
      else comprehension p g l'
  end.

(** [range(a, b)] *)
Definition range (a b : Z) : list Z := seqZ a (b - a).

(** int to float *)
Definition zq (z : Z) : Qc := Qc_of_Z z.

Definition sumZ (l : list Z) : Z := foldr Z.add 0 l.
Definition sumQ (l : list Qc) : Qc := foldr Qcplus 0%Qc l.
Definition len {A} (l : list A) : Z := Z.of_nat (length l).

(** Float division: numpy yields inf or nan on a zero divisor. *)
Definition fdiv (x y : Qc) : result Qc :=
  if bool_decide (y = 0%Qc) then Raise NotFinite else Ok (x / y)%Qc.

(** [np.mean] of a list; nan on the empty list. *)
Definition np_mean (l : list Qc) : result Qc :=
  match l with
  | [] => Raise NotFinite
  | _ => Ok (sumQ l / zq (len l))%Qc
  end.

(** [np.average(a, weights=w)] on lists of equal length: numpy raises
    [ZeroDivisionError] when the weights sum to zero. *)
Definition np_average (a w : list Qc) : result Qc :=
  let scl := sumQ w in
  if bool_decide (scl = 0%Qc) then Raise ZeroDivisionError
  else Ok (sumQ (zip_with Qcmult a w) / scl)%Qc.

(** Index normalisation of Python sequences and numpy axes of length [n]. *)
Definition py_index (n i : Z) : result Z :=
  if bool_decide (0 ≤ i < n) then Ok i
  else if bool_decide (- n ≤ i < 0) then Ok (i + n)
  else Raise IndexError.

(** ** numpy arrays *)

Record ndarray (A : Type) := NDArray {
  nrows : Z;
  ncols : Z;
  cell : Z → Z → A
}.
Arguments NDArray {A} nrows ncols cell.
Arguments nrows {A} n.
Arguments ncols {A} n.
Arguments cell {A} n i j.

(** [a[i, j]] *)
Definition get2 {A} (a : ndarray A) (i j : Z) : result A :=
  i' ← py_index (nrows a) i;
  j' ← py_index (ncols a) j;
  Ok (cell a i' j').

(** [a[i, j] = v] *)
Definition set2 {A} (a : ndarray A) (i j : Z) (v : A) : result (ndarray A) :=
  i' ← py_index (nrows a) i;
  j' ← py_index (ncols a) j;
  Ok (NDArray (nrows a) (ncols a)
        (fun p q => if bool_decide (p = i' ∧ q = j') then v else cell a p q)).

(** [np.empty((n, m))]: the cells hold whatever the memory [mem] held. *)
Definition np_empty {A} (mem : Z → Z → A) (n m : Z) : result (ndarray A) :=
  if bool_decide (0 ≤ n ∧ 0 ≤ m) then Ok (NDArray n m mem)
  else Raise ValueError.

(** [a.T] *)
Definition transpose {A} (a : ndarray A) : ndarray A :=
  NDArray (ncols a) (nrows a) (fun i j => cell a j i).

(** An array given by its rows (all of the length of the first one). *)
Definition of_rows (rows : list (list Z)) : ndarray Z :=
  NDArray (len rows) (len (default [] (head rows)))
    (fun i j => default 0 (default [] (rows !! Z.to_nat i) !! Z.to_nat j)).

(** [a[i]] and [a[i] = v] on a one-dimensional array or a Python list. *)
Definition get1 {A} (a : list A) (i : Z) : result A :=
  i' ← py_index (len a) i;
  match a !! Z.to_nat i' with
  | Some v => Ok v
  | None => Raise IndexError
  end.

Definition set1 {A} (a : list A) (i : Z) (v : A) : result (list A) :=
  i' ← py_index (len a) i; Ok (<[Z.to_nat i' := v]> a).

(** [np.zeros(n)] *)
Definition np_zeros (n : Z) : result (list Qc) :=
  if bool_decide (0 ≤ n) then Ok (replicate (Z.to_nat n) 0%Qc)
  else Raise ValueError.

(** ** Rating dictionaries *)

(** [ur] / [mr]: key ↦ list of (other id, rating), in insertion order. *)
Definition ratings : Type := list (Z * list (Z * Z)).

(** [d[k]] on a [defaultdict(list)] *)
Fixpoint dict_get (d : ratings) (k : Z) : list (Z * Z) :=
  match d with
  | [] => []
  | (k', v) :: d' => if bool_decide (k' = k) then v else dict_get d' k
  end.

(** [defaultdict(int)] keyed by pairs, and [d[k] += v] *)
Definition acc_get (d : gmap (Z * Z) Z) (k : Z * Z) : Z := default 0 (d !! k).
Definition acc_add (d : gmap (Z * Z) Z) (k : Z * Z) (v : Z) : gmap (Z * Z) Z :=
  <[k := acc_get d k + v]> d.

(** [itertools.combinations(l, 2)] *)
Fixpoint combinations2 {A} (l : list A) : list (A * A) :=
  match l with
  | [] => []
  | a :: l' => map (pair a) l' ++ combinations2 l'
  end.

(** ** class Algo *)

Record predInfo := PredInfo {
  wasImpossible : bool;
  p_u0 : Z;
  p_m0 : Z;
  p_r0 : Z;
  p_est : Qc
}.

Record Algo := MkAlgo {
  ub : bool;
  rm : ndarray Z;
  lastXi : Z;
  lastYi : Z;
  xr : ratings;
  yr : ratings;
  est : Qc;
  preds : list predInfo
}.

Definition set_est (a : Algo) (e : Qc) : Algo :=
  MkAlgo (ub a) (rm a) (lastXi a) (lastYi a) (xr a) (yr a) e (preds a).

(** [Algo.__init__]; [lastUi] and [lastMi] are [cmn.lastUi], [cmn.lastMi]. *)
Definition Algo_init (lastUi lastMi : Z) (rm0 : ndarray Z) (ur mr : ratings)
    (movieBased : bool) : Algo :=
  if negb movieBased
  then MkAlgo true (transpose rm0) lastUi lastMi ur mr 0%Qc []
  else MkAlgo false rm0 lastMi lastUi mr ur 0%Qc [].

Definition getx0y0 (a : Algo) (u0 m0 : Z) : Z * Z :=
  if ub a then (u0, m0) else (m0, u0).

(** [updatePreds] (the console output is not modelled). *)
Definition updatePreds (a : Algo) (u0 m0 r0 : Z) : Algo :=
  let imp := bool_decide (est a = 0%Qc) in
  let e := if imp then zq 3 else est a in
  MkAlgo (ub a) (rm a) (lastXi a) (lastYi a) (xr a) (yr a) e
    (preds a ++ [PredInfo imp u0 m0 r0 e]).

Definition cut_estimate (a : Algo) (inf sup : Qc) : Algo :=
  let e1 := if bool_decide (sup ≤ est a)%Qc then sup else est a in
  let e2 := if bool_decide (inf ≤ e1)%Qc then e1 else inf in
  set_est a e2.

(** [iterAllRatings] *)
Definition iterAllRatings (a : Algo) : list (Z * Z * Z) :=
  concat (map (fun '(x, xRatings) => map (fun '(y, r) => (x, y, r)) xRatings)
              (xr a)).

(** ** class AlgoRandom *)

Record AlgoRandom := MkAlgoRandom {
  rnd_base : Algo;
  distrib : list (Z * Qc)
}.

(** The frequency loop of [AlgoRandom.__init__]. *)
Definition AlgoRandom_fqs (a : Algo) : result (list Z) :=
  foldM (fun fqs x =>
    foldM (fun fqs y =>
      r ← get2 (rm a) x y;
      if bool_decide (0 < r) then
        c ← get1 fqs (r - 1); set1 fqs (r - 1) (c + 1)
      else Ok fqs) fqs (range 1 (lastYi a)))
    [0; 0; 0; 0; 0] (range 1 (lastXi a)).

(** [[fq/sum(fqs) for fq in fqs]] on Python integers. *)
Definition normalize (fqs : list Z) : result (list Qc) :=
  forM (fun fq => if bool_decide (sumZ fqs = 0) then Raise ZeroDivisionError
                  else Ok (zq fq / zq (sumZ fqs))%Qc) fqs.

Definition AlgoRandom_init (lastUi lastMi : Z) (rm0 : ndarray Z)
    (ur mr : ratings) : result AlgoRandom :=
  let a := Algo_init lastUi lastMi rm0 ur mr false in
  fqs ← AlgoRandom_fqs a;
  ps ← normalize fqs;
  Ok (MkAlgoRandom a (zip [1; 2; 3; 4; 5] ps)).

(** [rv_discrete.rvs()] by inversion of the cumulative distribution at a
    uniform draw [u] of [0,1): the first value whose cumulated probability
    exceeds [u] (the last value when rounding leaves none). *)
Fixpoint rvs (d : list (Z * Qc)) (u : Qc) : Z :=
  match d with
  | [] => 0
  | [(v, _)] => v
  | (v, p) :: d' => if bool_decide (u < p)%Qc then v else rvs d' (u - p)%Qc
  end.

(** [AlgoRandom.estimate]: the arguments are ignored; [u] is the draw of the
    generator. *)
Definition AlgoRandom_estimate (s : AlgoRandom) (u : Qc) (u0 m0 : Z)
  : AlgoRandom :=
  MkAlgoRandom (set_est (rnd_base s) (zq (rvs (distrib s) u))) (distrib s).

(** ** class AlgoUsingSim *)

Record AlgoUsingSim := MkAlgoUsingSim {
  sim_base : Algo;
  simMat : ndarray Qc
}.

(** The four accumulators of [constructCosineSimMat]. *)
Record cos_acc := CosAcc {
  prods : gmap (Z * Z) Z;
  freq : gmap (Z * Z) Z;
  sqi : gmap (Z * Z) Z;
  sqj : gmap (Z * Z) Z
}.

(** The two accumulators of [constructMSDSimMat]. *)
Record msd_acc := MsdAcc {
  sqDiff : gmap (Z * Z) Z;
  mfreq : gmap (Z * Z) Z
}.

Definition cos_accumulate (yrs : ratings) : cos_acc :=
  foldl (fun acc '(y, yRatings) =>
    foldl (fun acc '((xi, r1), (xj, r2)) =>
      CosAcc (acc_add (prods acc) (xi, xj) (r1 * r2))
             (acc_add (freq acc) (xi, xj) 1)
             (acc_add (sqi acc) (xi, xj) (r1 ^ 2))
             (acc_add (sqj acc) (xi, xj) (r2 ^ 2)))
      acc (combinations2 yRatings))
    (CosAcc ∅ ∅ ∅ ∅) yrs.

Definition msd_accumulate (yrs : ratings) : msd_acc :=
  foldl (fun acc '(y, yRatings) =>
    foldl (fun acc '((xi, r1), (xj, r2)) =>
      MsdAcc (acc_add (sqDiff acc) (xi, xj) ((r1 - r2) ^ 2))
             (acc_add (mfreq acc) (xi, xj) 1))
      acc (combinations2 yRatings))
    (MsdAcc ∅ ∅) yrs.

(** [knownSim] *)
Definition knownSim : list string := ["cos"; "MSD"; "MSDClone"]%string.

Section Similarity.

(** [np.sqrt], the one operation of the source without a rational result. *)
Variable np_sqrt : Qc → Qc.

(** The filling loops of [constructCosineSimMat]. *)
Definition cos_row (acc : cos_acc) (n : Z) (M : ndarray Qc) (xi : Z)
  : result (ndarray Qc) :=
  M ← set2 M xi xi 1%Qc;
  foldM (fun M xj =>
    M ← (if bool_decide (acc_get (freq acc) (xi, xj) = 0)
         then set2 M xi xj 0%Qc
         else
           let denum :=
             np_sqrt (zq (acc_get (sqi acc) (xi, xj)
                          * acc_get (sqj acc) (xi, xj))) in
           v ← fdiv (zq (acc_get (prods acc) (xi, xj))) denum;
           set2 M xi xj v);
    v ← get2 M xi xj;
    set2 M xj xi v) M (range (xi + 1) (n + 1)).

Definition constructCosineSimMat (a : Algo) (M : ndarray Qc)
  : result (ndarray Qc) :=
  let acc := cos_accumulate (yr a) in
  foldM (cos_row acc (lastXi a)) M (range 1 (lastXi a + 1)).

(** The filling loops of [constructMSDSimMat]. *)
Definition msd_row (acc : msd_acc) (n : Z) (M : ndarray Qc) (xi : Z)
  : result (ndarray Qc) :=
  M ← set2 M xi xi (zq 100);
  foldM (fun M xj =>
    M ← (if bool_decide (acc_get (sqDiff acc) (xi, xj) = 0)
         then set2 M xi xj (zq (acc_get (mfreq acc) (xi, xj)))
         else
           v ← fdiv (zq (acc_get (mfreq acc) (xi, xj)))
                    (zq (acc_get (sqDiff acc) (xi, xj)));
           set2 M xi xj v);
    v ← get2 M xi xj;
    set2 M xj xi v) M (range xi (n + 1)).

Definition constructMSDSimMat (a : Algo) (M : ndarray Qc)
  : result (ndarray Qc) :=
  let acc := msd_accumulate (yr a) in
  foldM (msd_row acc (lastXi a)) M (range 1 (lastXi a + 1)).

(** [constructSimMat]; [mem] is what [np.empty] finds in memory. *)
Definition constructSimMat (mem : Z → Z → Qc) (a : Algo) (sim : string)
  : result (ndarray Qc) :=
  if bool_decide (sim ∈ knownSim) then
    M ← np_empty mem (lastXi a + 1) (lastXi a + 1);
    if bool_decide (sim = "cos"%string) then constructCosineSimMat a M
    else if bool_decide (sim = "MSD"%string) then constructMSDSimMat a M
    else Ok M
  else Raise NameError.

(** [AlgoUsingSim.__init__] *)
Definition AlgoUsingSim_init (mem : Z → Z → Qc) (lastUi lastMi : Z)
    (rm0 : ndarray Z) (ur mr : ratings) (movieBased : bool) (sim : string)
  : result AlgoUsingSim :=
  let a := Algo_init lastUi lastMi rm0 ur mr movieBased in
  M ← constructSimMat mem a sim;
  Ok (MkAlgoUsingSim a M).

End Similarity.

(** [simMSDClone] (the [print] is not modelled). *)
Definition simMSDClone (a : Algo) (xi xj : Z) : result Qc :=
  Yij ← comprehension
           (fun '(y, _) => r ← get2 (rm a) xj y; Ok (bool_decide (0 < r)))
           (fun '(y, _) => Ok y) (dict_get (xr a) xi);
  match Yij with
  | [] => Ok 0%Qc
  | _ =>
    diffs ← forM (fun y => ri ← get2 (rm a) xi y; rj ← get2 (rm a) xj y;
                           Ok (zq (ri - rj))) Yij;
    meanDiff ← np_mean diffs;
    sq ← forM (fun y => ri ← get2 (rm a) xi y; rj ← get2 (rm a) xj y;
                        Ok ((zq (ri - rj) - meanDiff) ^ 2)%Qc) Yij;
    let ssd := sumQ sq in
    if bool_decide (ssd = 0%Qc) then Ok (zq (len Yij))
    else fdiv (zq (len Yij)) ssd
  end.

(** ** class AlgoBasicCollaborative *)

Record AlgoBasicCollaborative := MkAlgoBasicCollaborative {
  knn_sim : AlgoUsingSim;
  knn_k : Z
}.

(** [AlgoBasicCollaborative.__init__] *)
Definition AlgoBasicCollaborative_init (np_sqrt : Qc → Qc) (mem : Z → Z → Qc)
    (lastUi lastMi : Z) (rm0 : ndarray Z) (ur mr : ratings)
    (movieBased : bool) (sim : string) : result AlgoBasicCollaborative :=
  s ← AlgoUsingSim_init np_sqrt mem lastUi lastMi rm0 ur mr movieBased sim;
  Ok (MkAlgoBasicCollaborative s 40).

(** [sorted(l, key=lambda x:x[1], reverse=True)]: stable, descending. *)
Fixpoint insert_desc (x : Z * Qc) (l : list (Z * Qc)) : list (Z * Qc) :=
  match l with
  | [] => [x]
  | y :: l' =>
      if bool_decide (y.2 ≤ x.2)%Qc then x :: l else y :: insert_desc x l'
  end.

Definition sorted_desc (l : list (Z * Qc)) : list (Z * Qc) :=
  foldr insert_desc [] l.

(** [[(x, simMat[x0, x]) for x in range(1, lastXi + 1) if rm[x, y0] > 0]] *)
Definition simX0_of (s : AlgoUsingSim) (x0 y0 : Z) : result (list (Z * Qc)) :=
  comprehension
    (fun x => r ← get2 (rm (sim_base s)) x y0; Ok (bool_decide (0 < r)))
    (fun x => v ← get2 (simMat s) x0 x; Ok (x, v))
    (range 1 (lastXi (sim_base s) + 1)).

Definition with_est (s : AlgoUsingSim) (e : Qc) : AlgoUsingSim :=
  MkAlgoUsingSim (set_est (sim_base s) e) (simMat s).

(** The neighbourhood [simX0[:k]] after sorting. *)
Definition neighbours (k : Z) (simX0 : list (Z * Qc)) : list (Z * Qc) :=
  take (Z.to_nat k) (sorted_desc simX0).

(** [AlgoBasicCollaborative.estimate] *)
Definition AlgoBasicCollaborative_estimate (s : AlgoBasicCollaborative)
    (u0 m0 : Z) : result AlgoBasicCollaborative :=
  let '(x0, y0) := getx0y0 (sim_base (knn_sim s)) u0 m0 in
  simX0 ← simX0_of (knn_sim s) x0 y0;
  match simX0 with
  | [] => Ok (MkAlgoBasicCollaborative (with_est (knn_sim s) 0%Qc) (knn_k s))
  | _ =>
    let top := neighbours (knn_k s) simX0 in
    let simNeighboors := map snd top in
    ratNeighboors ← forM (fun '(x, _) =>
                       r ← get2 (rm (sim_base (knn_sim s))) x y0; Ok (zq r))
                     top;
    match np_average ratNeighboors simNeighboors with
    | Ok e => Ok (MkAlgoBasicCollaborative (with_est (knn_sim s) e) (knn_k s))
    | Raise ZeroDivisionError =>
        Ok (MkAlgoBasicCollaborative (with_est (knn_sim s) 0%Qc) (knn_k s))
    | Raise e => Raise e
    end
  end.

(** ** class AlgoWithBaseline *)

Record AlgoWithBaseline := MkAlgoWithBaseline {
  bl_base : Algo;
  mu : Qc;
  xBiases : list Qc;
  yBiases : list Qc
}.

(** [[r for l in self.rm for r in l if r > 0]] *)
Definition present_ratings (m : ndarray Z) : list Z :=
  filter (fun r => 0 < r)
    (concat (map (fun i => map (fun j => cell m i j) (range 0 (ncols m)))
                 (range 0 (nrows m)))).

Definition lambda4 : Qc := (zq 2 / zq 100)%Qc.
Definition gamma : Qc := (zq 5 / zq 1000)%Qc.

(** One rating of one pass of [optimize_sgd]. *)
Definition sgd_step (s : AlgoWithBaseline) (t : Z * Z * Z)
  : result AlgoWithBaseline :=
  let '(x, y, r) := t in
  xb ← get1 (xBiases s) x;
  yb ← get1 (yBiases s) y;
  let err := (zq r - (mu s + xb + yb))%Qc in
  xb1 ← get1 (xBiases s) x;
  xBiases' ← set1 (xBiases s) x (xb1 + gamma * (err - lambda4 * xb1))%Qc;
  yb1 ← get1 (yBiases s) y;
  yBiases' ← set1 (yBiases s) y (yb1 + gamma * (err - lambda4 * yb1))%Qc;
  Ok (MkAlgoWithBaseline (bl_base s) (mu s) xBiases' yBiases').

Definition optimize_sgd (s : AlgoWithBaseline) : result AlgoWithBaseline :=
  foldM (fun s _ => foldM sgd_step s (iterAllRatings (bl_base s)))
        s (range 0 20).

Definition reg_u : Z := 15.
Definition reg_i : Z := 10.
Definition reg_x (a : Algo) : Z := if ub a then reg_u else reg_i.
Definition reg_y (a : Algo) : Z := if negb (ub a) then reg_u else reg_i.

(** One sweep of [optimize_als]: the biases of one side from the ratings
    [rs] of that side and the current biases [other] of the other side. *)
Definition als_sweep (mu : Qc) (reg last : Z) (rs : ratings)
    (other : list Qc) : result (list Qc) :=
  zeros ← np_zeros (last + 1);
  foldM (fun biases y =>
    devs ← forM (fun '(x, r) => b ← get1 other x; Ok (zq r - mu - b)%Qc)
              (dict_get rs y);
    v ← fdiv (sumQ devs) (zq (reg + len (dict_get rs y)));
    set1 biases y v) zeros (range 1 (last + 1)).

(** One iteration of the loop of [optimize_als]. *)
Definition als_iteration (s : AlgoWithBaseline) : result AlgoWithBaseline :=
  let a := bl_base s in
  yB ← als_sweep (mu s) (reg_y a) (lastYi a) (yr a) (xBiases s);
  xB ← als_sweep (mu s) (reg_x a) (lastXi a) (xr a) yB;
  Ok (MkAlgoWithBaseline a (mu s) xB yB).

Definition optimize_als (s : AlgoWithBaseline) : result AlgoWithBaseline :=
  foldM (fun s _ => als_iteration s) s (range 0 10).

(** [AlgoWithBaseline.__init__] *)
Definition AlgoWithBaseline_init (lastUi lastMi : Z) (rm0 : ndarray Z)
    (ur mr : ratings) (movieBased : bool) (method : string)
  : result AlgoWithBaseline :=
  let a := Algo_init lastUi lastMi rm0 ur mr movieBased in
  m ← np_mean (map zq (present_ratings (rm a)));
  xB ← np_zeros (lastXi a + 1);
  yB ← np_zeros (lastYi a + 1);
  let s := MkAlgoWithBaseline a m xB yB in
  if bool_decide (method = "sgd"%string) then optimize_sgd s
  else if bool_decide (method = "als"%string) then optimize_als s
  else Ok s.

Definition getBaseline (s : AlgoWithBaseline) (x y : Z) : result Qc :=
  xb ← get1 (xBiases s) x;
  yb ← get1 (yBiases s) y;
  Ok (mu s + xb + yb)%Qc.

(** ** class AlgoBaselineOnly *)

Definition AlgoBaselineOnly_init (lastUi lastMi : Z) (rm0 : ndarray Z)
    (ur mr : ratings) (movieBased : bool) (method : string)
  : result AlgoWithBaseline :=
  AlgoWithBaseline_init lastUi lastMi rm0 ur mr movieBased method.

(** [AlgoBaselineOnly.estimate] *)
Definition AlgoBaselineOnly_estimate (s : AlgoWithBaseline) (u0 m0 : Z)
  : result AlgoWithBaseline :=
  let '(x0, y0) := getx0y0 (bl_base s) u0 m0 in
  e ← getBaseline s x0 y0;
  Ok (MkAlgoWithBaseline (set_est (bl_base s) e) (mu s) (xBiases s)
        (yBiases s)).

(** ** class AlgoClone *)

(** [isClone] *)
Definition isClone (xa xb : list Z) (k : Z) : bool :=
  let w := zip_with Z.sub xa xb in
  let sigma := sumZ (map (fun wi => Z.abs (wi - k)) w) in
  bool_decide (sigma ≤ len w).

(** [[(rm[x0, y], rm[x, y]) for (y, _) in xr[x0] if rm[x, y] > 0]] *)
Definition commonRatings (a : Algo) (x0 x : Z) : result (list (Z * Z)) :=
  comprehension
    (fun '(y, _) => r ← get2 (rm a) x y; Ok (bool_decide (0 < r)))
    (fun '(y, _) => r0 ← get2 (rm a) x0 y; r ← get2 (rm a) x y; Ok (r0, r))
    (dict_get (xr a) x0).

(** The candidates one neighbour [(x, rx)] adds to the list. *)
Definition clone_neighbour (a : Algo) (x0 : Z) (candidates : list Z)
    (n : Z * Z) : result (list Z) :=
  let '(x, rx) := n in
  common ← commonRatings a x0 x;
  match common with
  | [] => Ok candidates
  | _ =>
    let ra := map fst common in
    let rb := map snd common in
    Ok (foldl (fun c k => if isClone ra rb k then c ++ [rx + k] else c)
              candidates (range (-4) 5))
  end.

Definition clone_candidates (a : Algo) (x0 y0 : Z) : result (list Z) :=
  foldM (clone_neighbour a x0) [] (dict_get (yr a) y0).

(** [AlgoClone.estimate] *)
Definition AlgoClone_estimate (a : Algo) (u0 m0 : Z) : result Algo :=
  let '(x0, y0) := getx0y0 a u0 m0 in
  candidates ← clone_candidates a x0 y0;
  match candidates with
  | [] => Ok (set_est a 0%Qc)
  | _ => e ← np_mean (map zq candidates); Ok (set_est a e)
  end.

(** ** class AlgoMeanDiff *)

(** [np.std]: the root of the mean squared deviation from the mean. *)
Definition np_std (np_sqrt : Qc → Qc) (l : list Qc) : result Qc :=
  m ← np_mean l;
  v ← np_mean (map (fun d => (d - m) ^ 2)%Qc l);
  Ok (np_sqrt v).

(** [AlgoMeanDiff.meanDiff] *)
Definition meanDiff (np_sqrt : Qc → Qc) (ra rb : list Z)
  : result (Qc * Qc) :=
  let diffs := map zq (zip_with Z.sub ra rb) in
  md ← np_mean diffs;
  sd ← np_std np_sqrt diffs;
  w ← fdiv 1%Qc (sd + 1)%Qc;
  Ok (md, w).

(** What one neighbour [(x, rx)] adds to [candidates] and [weights]. *)
Definition meandiff_neighbour (np_sqrt : Qc → Qc) (a : Algo) (x0 : Z)
    (cw : list Qc * list Qc) (n : Z * Z) : result (list Qc * list Qc) :=
  let '(x, rx) := n in
  common ← commonRatings a x0 x;
  match common with
  | [] => Ok cw
  | _ =>
    '(md, w) ← meanDiff np_sqrt (map fst common) (map snd common);
    Ok (cw.1 ++ [(zq rx + md)%Qc], cw.2 ++ [w])
  end.

(** [AlgoMeanDiff.estimate]: the [ZeroDivisionError] of [np.average] is not
    caught here. *)
Definition AlgoMeanDiff_estimate (np_sqrt : Qc → Qc) (a : Algo) (u0 m0 : Z)
  : result Algo :=
  let '(x0, y0) := getx0y0 a u0 m0 in
  cw ← foldM (meandiff_neighbour np_sqrt a x0) ([], []) (dict_get (yr a) y0);
  match cw.1 with
  | [] => Ok (set_est a 0%Qc)
  | _ => e ← np_average cw.1 cw.2; Ok (set_est a e)
  end.

(** ** class AlgoCollabMeanDiff *)

(** [AlgoCollabMeanDiff.meanDiff] *)
Definition collab_meanDiff (a : Algo) (xa xb : Z) : result Qc :=
  common ← commonRatings a xa xb;
  match common with
  | [] => Ok 0%Qc
  | _ => np_mean (map zq (zip_with Z.sub (map fst common) (map snd common)))
  end.

(** [AlgoCollabMeanDiff.__init__]: the state has the fields of
    [AlgoBasicCollaborative]. *)
Definition AlgoCollabMeanDiff_init (np_sqrt : Qc → Qc) (mem : Z → Z → Qc)
    (lastUi lastMi : Z) (rm0 : ndarray Z) (ur mr : ratings)
    (movieBased : bool) (sim : string) : result AlgoBasicCollaborative :=
  s ← AlgoUsingSim_init np_sqrt mem lastUi lastMi rm0 ur mr movieBased sim;
  Ok (MkAlgoBasicCollaborative s 40).

(** [AlgoCollabMeanDiff.estimate] *)
Definition AlgoCollabMeanDiff_estimate (s : AlgoBasicCollaborative)
    (u0 m0 : Z) : result AlgoBasicCollaborative :=
  let '(x0, y0) := getx0y0 (sim_base (knn_sim s)) u0 m0 in
  simX0 ← simX0_of (knn_sim s) x0 y0;
  match simX0 with
  | [] => Ok (MkAlgoBasicCollaborative (with_est (knn_sim s) 0%Qc) (knn_k s))
  | _ =>
    let top := neighbours (knn_k s) simX0 in
    let simNeighboors := map snd top in
    ratNeighboors ← forM (fun '(x, _) =>
                       r ← get2 (rm (sim_base (knn_sim s))) x y0;
                       md ← collab_meanDiff (sim_base (knn_sim s)) x0 x;
                       Ok (zq r + md)%Qc)
                     top;
    match np_average ratNeighboors simNeighboors with
    | Ok e => Ok (MkAlgoBasicCollaborative (with_est (knn_sim s) e) (knn_k s))
    | Raise ZeroDivisionError =>
        Ok (MkAlgoBasicCollaborative (with_est (knn_sim s) 0%Qc) (knn_k s))
    | Raise e => Raise e
    end
  end.

(** * Specification-level definitions *)

(** The array [M] has the shape [(n + 1, n + 1)] of [simMat]. *)
Definition square (n : Z) (M : ndarray Qc) : Prop :=
  nrows M = n + 1 ∧ ncols M = n + 1.

(** What the MSD loops store for the key [(i, j)]. *)
Definition msd_entry (acc : msd_acc) (i j : Z) : Qc :=
  if bool_decide (acc_get (sqDiff acc) (i, j) = 0)
  then zq (acc_get (mfreq acc) (i, j))
  else (zq (acc_get (mfreq acc) (i, j)) / zq (acc_get (sqDiff acc) (i, j)))%Qc.

(** The final content of the cosine matrix at [(i, j)], [i ≤ j]. *)
Definition cos_val (np_sqrt : Qc → Qc) (acc : cos_acc) (i j : Z) : Qc :=
  if bool_decide (i = j) then 1%Qc
  else if bool_decide (acc_get (freq acc) (i, j) = 0) then 0%Qc
  else (zq (acc_get (prods acc) (i, j))
        / np_sqrt (zq (acc_get (sqi acc) (i, j)
                       * acc_get (sqj acc) (i, j))))%Qc.

(** No co-rated pair of the cosine loops has a zero denominator. *)
Definition cos_defined (np_sqrt : Qc → Qc) (acc : cos_acc) (n : Z) : Prop :=
  ∀ i j, 1 ≤ i < j → j ≤ n → acc_get (freq acc) (i, j) ≠ 0 →
    np_sqrt (zq (acc_get (sqi acc) (i, j) * acc_get (sqj acc) (i, j)))
      ≠ 0%Qc.

(** Every rating listed in the dictionary is positive. *)
Definition ratings_positive (d : ratings) : Prop :=
  Forall (fun kl => Forall (fun xr => 0 < xr.2) kl.2) d.

(** [np.sqrt] does not vanish on a positive integer. *)
Definition sqrt_nonzero (np_sqrt : Qc → Qc) : Prop :=
  ∀ z : Z, 0 < z → np_sqrt (zq z) ≠ 0%Qc.

(** The ratings of [x] in the list of one Y-entity. *)
Definition ratings_by (x : Z) (l : list (Z * Z)) : list Z :=
  map snd (filter (fun p => p.1 = x) l).

(** The pairs of ratings that [i] and [j] gave to a same Y-entity. *)
Definition co_ratings (yrs : ratings) (i j : Z) : list (Z * Z) :=
  concat (map (fun '(_, l) => list_prod (ratings_by i l) (ratings_by j l))
              yrs).

(** Every list of the dictionary is in strictly increasing order of ids. *)
Definition ascending (d : ratings) : Prop :=
  Forall (fun kl => StronglySorted Z.lt (map fst kl.2)) d.

(** [i] and [j] gave the same rating to every Y-entity they both rated. *)
Definition agree (yrs : ratings) (i j : Z) : Prop :=
  ∀ y l ri rj, (y, l) ∈ yrs → (i, ri) ∈ l → (j, rj) ∈ l → ri = rj.

Definition sq_diffs (l : list (Z * Z)) : Z :=
  sumZ (map (fun '(r1, r2) => (r1 - r2) ^ 2) l).

#[global] Instance pyerr_eq_dec : EqDecision pyerr.
Proof. solve_decision. Defined.
#[global] Instance result_eq_dec {A} `{EqDecision A} : EqDecision (result A).
Proof. solve_decision. Defined.

(** ** Concrete data for the examples *)

(** A root rounded down to a multiple of [2^-52]. *)
Definition sqrt_floor (q : Qc) : Qc :=
  (zq (Z.sqrt (Qnum q * 2 ^ 104 / Zpos (Qden q))) / zq (2 ^ 52))%Qc.

Definition mem_a : Z → Z → Qc := fun _ _ => zq 7.
Definition mem_b : Z → Z → Qc := fun _ _ => zq 8.

(** Three X-entities (users) and four Y-entities (movies): the matrix is
    given movie by movie, as the constructors receive it. *)
Definition rm_ex : ndarray Z :=
  of_rows [[0; 0; 0; 0]; [0; 3; 1; 3]; [0; 4; 2; 0]; [0; 5; 3; 0];
           [0; 0; 4; 2]].
Definition ur_ex : ratings :=
  [(1, [(1, 3); (2, 4); (3, 5)]); (2, [(1, 1); (2, 2); (3, 3); (4, 4)]);
   (3, [(1, 3); (4, 2)])].
Definition mr_ex : ratings :=
  [(1, [(1, 3); (2, 1); (3, 3)]); (2, [(1, 4); (2, 2)]);
   (3, [(1, 5); (2, 3)]); (4, [(2, 4); (3, 2)])].
Definition algo_ex : Algo := Algo_init 3 4 rm_ex ur_ex mr_ex false.

(** Two builds of the matrix from one relation agree on the whole array. *)
Definition build_deterministic (np_sqrt : Qc → Qc) (a : Algo) (sim : string)
  : Prop :=
  ∀ mem1 mem2 M1 M2,
    constructSimMat np_sqrt mem1 a sim = Ok M1 →
    constructSimMat np_sqrt mem2 a sim = Ok M2 →
    ∀ i j, 0 ≤ i ≤ lastXi a → 0 ≤ j ≤ lastXi a → get2 M1 i j = get2 M2 i j.

(** The rating matrix has one row per X-entity and one column per
    Y-entity, besides the unused row and column [0]. *)
Definition rm_shape (a : Algo) : Prop :=
  nrows (rm a) = lastXi a + 1 ∧ ncols (rm a) = lastYi a + 1.

(** [xr] lists, for every valid X-entity and without repetition, exactly the
    Y-entities with a present entry in the rating matrix. *)
Definition xr_consistent (a : Algo) : Prop :=
  Forall (fun x =>
    NoDup (map fst (dict_get (xr a) x))
    ∧ Forall (fun y => 1 ≤ y ≤ lastYi a ∧ 0 < cell (rm a) x y)
             (map fst (dict_get (xr a) x))
    ∧ Forall (fun y => 0 < cell (rm a) x y → y ∈ map fst (dict_get (xr a) x))
             (range 0 (lastYi a + 1)))
    (range 1 (lastXi a + 1)).

(** The value [simMSDClone] computes from the list of rating differences. *)
Definition clone_sim (ds : list Qc) : Qc :=
  match ds with
  | [] => 0%Qc
  | _ =>
    let m := (sumQ ds / zq (len ds))%Qc in
    let ssd := sumQ (map (fun d => (d - m) ^ 2)%Qc ds) in
    if bool_decide (ssd = 0%Qc) then zq (len ds) else (zq (len ds) / ssd)%Qc
  end.

(** The Y-entities that [xi] lists and that [xj] rated. *)
Definition common_ys (a : Algo) (xi xj : Z) : list Z :=
  filter (fun y => 0 < cell (rm a) xj y) (map fst (dict_get (xr a) xi)).

(** The rating differences of [xi] and [xj] on these Y-entities. *)
Definition common_diffs (a : Algo) (xi xj : Z) : list Qc :=
  map (fun y => zq (cell (rm a) xi y - cell (rm a) xj y)) (common_ys a xi xj).

(** Two users and two movies, each user having rated one movie. *)
Definition rm_solo : ndarray Z := of_rows [[0; 0; 0]; [0; 4; 0]; [0; 0; 3]].
Definition ur_solo : ratings := [(1, [(1, 4)]); (2, [(2, 3)])].
Definition mr_solo : ratings := [(1, [(1, 4)]); (2, [(2, 3)])].

(** The first half of C1 as the specification words it: when no X-entity
    other than [x0] rated [y0], the estimate is the sentinel [0]. *)
Definition others_silent_impossible (s : AlgoBasicCollaborative)
    (u0 m0 : Z) : Prop :=
  let a := sim_base (knn_sim s) in
  (∀ x, 1 ≤ x ≤ lastXi a → x ≠ (getx0y0 a u0 m0).1 →
     ∃ r, get2 (rm a) x (getx0y0 a u0 m0).2 = Ok r ∧ r ≤ 0) →
  ∃ s', AlgoBasicCollaborative_estimate s u0 m0 = Ok s'
        ∧ est (sim_base (knn_sim s')) = 0%Qc.

(** The relation of [rm_solo] with the similarity matrix of the cosine
    build on its valid indices. *)
Definition algo_solo : Algo := Algo_init 2 2 rm_solo ur_solo mr_solo false.
Definition knn_solo : AlgoBasicCollaborative :=
  MkAlgoBasicCollaborative
    (MkAlgoUsingSim algo_solo
       (NDArray 3 3 (fun i j => if bool_decide (i = j) then 1%Qc else 0%Qc)))
    40.

(** The bias vectors have one entry per entity, besides the unused entry
    [0]. *)
Definition bias_shape (s : AlgoWithBaseline) : Prop :=
  len (xBiases s) = lastXi (bl_base s) + 1
  ∧ len (yBiases s) = lastYi (bl_base s) + 1.

(** Every rating listed in the dictionary is [v], given by an entity whose id
    is at most [last]. *)
Definition constant_ratings (v last : Z) (d : ratings) : Prop :=
  Forall (fun kl => Forall (fun xr => 0 ≤ xr.1 ≤ last ∧ xr.2 = v) kl.2) d.

(** A baseline state over [algo_ex], and a relation whose ratings are all
    4. *)
Definition baseline_ex : AlgoWithBaseline :=
  MkAlgoWithBaseline algo_ex (zq 9 / zq 2)%Qc
    [0; 1; zq 1 / zq 2; - zq 1]%Qc [0; zq 2 / zq 5; 0; 0; - zq 3]%Qc.

Definition rm_const : ndarray Z := of_rows [[0; 0; 0]; [0; 4; 4]; [0; 4; 0]].
Definition ur_const : ratings := [(1, [(1, 4); (2, 4)]); (2, [(1, 4)])].
Definition mr_const : ratings := [(1, [(1, 4); (2, 4)]); (2, [(1, 4)])].

(** The number of occurrences of each rating 1..5 in a list. *)
Definition histogram (rs : list Z) : list Z :=
  map (fun v => len (filter (fun r => r = v) rs)) [1; 2; 3; 4; 5].

(** One user, one movie, one rating. *)
Definition rm_one : ndarray Z := of_rows [[0; 0]; [0; 3]].
Definition ur_one : ratings := [(1, [(1, 3)])].
Definition mr_one : ratings := [(1, [(1, 3)])].

(** Every id listed in the dictionary is between 1 and [last]. *)
Definition ids_valid (last : Z) (d : ratings) : Prop :=
  Forall (fun kl => Forall (fun p => 1 ≤ p.1 ≤ last) kl.2) d.

(** The candidates the neighbour [n] contributes, from its common ratings
    [c] with [x0]. *)
Definition clone_new (n : Z * Z) (c : list (Z * Z)) : list Z :=
  match c with
  | [] => []
  | _ => map (fun k => n.2 + k)
             (filter (fun k => isClone (map fst c) (map snd c) k)
                     (range (-4) 5))
  end.

(** Two users and three movies: user 1 rated movie 1 with 1; user 2 rated
    movie 1 with 4 and movie 2 with 3; nobody rated movie 3. *)
Definition rm_zero : ndarray Z :=
  of_rows [[0; 0; 0]; [0; 1; 4]; [0; 0; 3]; [0; 0; 0]].
Definition ur_zero : ratings := [(1, [(1, 1)]); (2, [(1, 4); (2, 3)])].
Definition mr_zero : ratings := [(1, [(1, 1); (2, 4)]); (2, [(2, 3)])].
Definition algo_zero : Algo := Algo_init 2 3 rm_zero ur_zero mr_zero false.

(** A loop body that stores [val xj] at [(xi, xj)] and [(xj, xi)]. *)
Definition writes_pair (n xi : Z) (val : Z → Qc)
    (body : ndarray Qc → Z → result (ndarray Qc)) (lo : Z) : Prop :=
  ∀ M xj, square n M → lo ≤ xj ≤ n →
    ∃ M', body M xj = Ok M' ∧ square n M' ∧
      ∀ p q, cell M' p q =
        if bool_decide ((p = xi ∧ q = xj) ∨ (p = xj ∧ q = xi))
        then val xj else cell M p q.

(** A row body that stores [V] on the pairs whose smaller index is [xi]. *)
Definition writes_row (n : Z) (V : Z → Z → Qc)
    (row : ndarray Qc → Z → result (ndarray Qc)) : Prop :=
  ∀ M xi, square n M → 1 ≤ xi ≤ n →
    ∃ M', row M xi = Ok M' ∧ square n M' ∧
      ∀ p q, cell M' p q =
        if bool_decide (Z.min p q = xi ∧ Z.max p q ≤ n)
        then V (Z.min p q) (Z.max p q) else cell M p q.

(** The pairs of ratings the accumulation loops visit. *)
Definition all_pairs (yrs : ratings) : list ((Z * Z) * (Z * Z)) :=
  concat (map (fun '(_, yRatings) => combinations2 yRatings) yrs).

(** What the loops add, over these pairs, to the accumulator of key [k]. *)
Definition weight_sum (w : Z → Z → Z) (k : Z * Z)
    (l : list ((Z * Z) * (Z * Z))) : Z :=
  sumZ (map (fun '((xi, r1), (xj, r2)) =>
               if bool_decide ((xi, xj) = k) then w r1 r2 else 0) l).

(** The default value of [sim] in [AlgoBasicCollaborative.__init__] and in
    [AlgoCollabMeanDiff.__init__], and of [method] in
    [AlgoBaselineOnly.__init__]. *)
Definition AlgoBasicCollaborative_sim : string := "Cos".
Definition AlgoCollabMeanDiff_sim : string := "MSDClone".
Definition AlgoBaselineOnly_method : string := "opt".

(** The bias one ALS sweep computes for the entity [y]. *)
Definition als_bias (mu : Qc) (reg : Z) (rs : ratings) (other : list Qc)
    (y : Z) : Qc :=
  (sumQ (map (fun p => zq p.2 - mu - default 0%Qc (other !! Z.to_nat p.1))
             (dict_get rs y))
   / zq (reg + len (dict_get rs y)))%Qc.


(** Sums over a list of co-ratings: products, and squares of each side. *)
Definition dot (l : list (Z * Z)) : Z :=
  sumZ (map (fun '(r1, r2) => r1 * r2) l).
Definition sq_left (l : list (Z * Z)) : Z :=
  sumZ (map (fun '(r1, r2) => r1 ^ 2) l).
Definition sq_right (l : list (Z * Z)) : Z :=
  sumZ (map (fun '(r1, r2) => r2 ^ 2) l).

(** [np.sqrt] is exact on the square of a non-negative integer. *)
Definition sqrt_exact (np_sqrt : Qc → Qc) : Prop :=
  ∀ z : Z, 0 ≤ z → np_sqrt (zq (z * z)) = zq z.

(** The common ratings of [x0] and [x], read off the relation. *)
Definition common_of (a : Algo) (x0 x : Z) : list (Z * Z) :=
  map (fun p => (cell (rm a) x0 p.1, cell (rm a) x p.1))
      (filter (fun p => 0 < cell (rm a) x p.1) (dict_get (xr a) x0)).

(** The relation is well formed for the queries about [x0]: the rating
    matrix has the declared shape and the ids of both indexes are in
    range. *)
Definition well_formed (a : Algo) : Prop :=
  rm_shape a ∧ ids_valid (lastYi a) (xr a) ∧ ids_valid (lastXi a) (yr a).

(** The X-entities with a present rating of [y0], in increasing id. *)
Definition raters (a : Algo) (y0 : Z) : list Z :=
  filter (fun x => 0 < cell (rm a) x y0) (range 1 (lastXi a + 1)).


(** The differences between the ratings of [x0] and [x] on what they
    share. *)
Definition diffs_of (a : Algo) (x0 x : Z) : list Qc :=
  map zq (zip_with Z.sub (map fst (common_of a x0 x))
                         (map snd (common_of a x0 x))).




(** The mean difference [AlgoCollabMeanDiff.meanDiff] returns for [x0] and
    [x]: 0 without a shared Y-entity. *)
Definition collab_md (a : Algo) (x0 x : Z) : Qc :=
  match common_of a x0 x with
  | [] => 0%Qc
  | _ => (sumQ (diffs_of a x0 x) / zq (len (diffs_of a x0 x)))%Qc
  end.

(** * Properties *)

(** ** Indexing *)

Lemma py_index_in (n i : Z) : 0 ≤ i < n → py_index n i = Ok i.
Proof. intros H. unfold py_index. by rewrite bool_decide_eq_true_2. Qed.

Lemma get2_in {A} (M : ndarray A) (i j : Z) :
  0 ≤ i < nrows M → 0 ≤ j < ncols M → get2 M i j = Ok (cell M i j).
Proof.
  intros Hi Hj. unfold get2.
  rewrite (py_index_in _ _ Hi), (py_index_in _ _ Hj). reflexivity.
Qed.

Lemma set2_in {A} (M : ndarray A) (i j : Z) (v : A) :
  0 ≤ i < nrows M → 0 ≤ j < ncols M →
  set2 M i j v =
    Ok (NDArray (nrows M) (ncols M)
          (fun p q => if bool_decide (p = i ∧ q = j) then v else cell M p q)).
Proof.
  intros Hi Hj. unfold set2.
  rewrite (py_index_in _ _ Hi), (py_index_in _ _ Hj). reflexivity.
Qed.

Lemma range_nil (a b : Z) : b ≤ a → range a b = [].
Proof.
  intros H. unfold range, seqZ.
  replace (Z.to_nat (b - a)) with 0%nat by lia. reflexivity.
Qed.

Lemma range_cons (a b : Z) : a < b → range a b = a :: range (a + 1) b.
Proof.
  intros H. unfold range. rewrite seqZ_cons by lia.
  f_equal. f_equal; lia.
Qed.

Lemma elem_of_range (a b x : Z) : x ∈ range a b ↔ a ≤ x < b.
Proof. unfold range. rewrite elem_of_seqZ. lia. Qed.

(** ** The symmetric filling loops *)

Lemma inner_loop (n xi : Z) (val : Z → Qc) body (k : nat) :
  ∀ lo M, xi ≤ lo → Z.to_nat (n + 1 - lo) = k →
    writes_pair n xi val body lo → square n M →
    ∃ M', foldM body M (range lo (n + 1)) = Ok M' ∧ square n M' ∧
      ∀ p q, cell M' p q =
        if bool_decide ((p = xi ∧ lo ≤ q ≤ n) ∨ (q = xi ∧ lo ≤ p ≤ n))
        then val (Z.max p q) else cell M p q.
Proof.
  induction k as [|k IH]; intros lo M Hlo Hk Hbody HM.
  - rewrite range_nil by lia. exists M. split; [done|]. split; [done|].
    intros p q. case_bool_decide; [lia|done].
  - rewrite range_cons by lia. cbn [foldM].
    destruct (Hbody M lo HM) as (M1 & -> & HM1 & Hc1); [lia|].
    destruct (IH (lo + 1) M1) as (M2 & HM2 & Hsq2 & Hc2); [lia|lia| |done|].
    { intros M' xj HM' Hxj. apply Hbody; [done|lia]. }
    exists M2. split; [exact HM2|]. split; [done|].
    intros p q. rewrite Hc2, Hc1.
    repeat case_bool_decide; try lia; try done; f_equal; lia.
Qed.

Lemma outer_loop (n : Z) (V : Z → Z → Qc) row (k : nat) :
  ∀ lo M, 1 ≤ lo → Z.to_nat (n + 1 - lo) = k →
    writes_row n V row → square n M →
    ∃ M', foldM row M (range lo (n + 1)) = Ok M' ∧ square n M' ∧
      ∀ p q, cell M' p q =
        if bool_decide (lo ≤ Z.min p q ∧ Z.max p q ≤ n)
        then V (Z.min p q) (Z.max p q) else cell M p q.
Proof.
  induction k as [|k IH]; intros lo M Hlo Hk Hrow HM.
  - rewrite range_nil by lia. exists M. split; [done|]. split; [done|].
    intros p q. case_bool_decide; [lia|done].
  - rewrite range_cons by lia. cbn [foldM].
    destruct (Hrow M lo HM) as (M1 & -> & HM1 & Hc1); [lia|].
    destruct (IH (lo + 1) M1) as (M2 & HM2 & Hsq2 & Hc2); [lia|lia|done|done|].
    exists M2. split; [exact HM2|]. split; [done|].
    intros p q. rewrite Hc2, Hc1.
    repeat case_bool_decide; try lia; done.
Qed.


(** ** The accumulators *)

Lemma acc_get_add d k k' v :
  acc_get (acc_add d k v) k' =
    if bool_decide (k = k') then acc_get d k' + v else acc_get d k'.
Proof.
  unfold acc_add, acc_get at 1. rewrite lookup_insert.
  case_decide; case_bool_decide; try done. by subst.
Qed.

Lemma sumZ_app l1 l2 : sumZ (l1 ++ l2) = sumZ l1 + sumZ l2.
Proof.
  unfold sumZ. induction l1 as [|a l1 IH]; cbn; [done|]. rewrite IH. lia.
Qed.

Lemma weight_sum_app w k l1 l2 :
  weight_sum w k (l1 ++ l2) = weight_sum w k l1 + weight_sum w k l2.
Proof. unfold weight_sum. by rewrite map_app, sumZ_app. Qed.

Lemma weight_sum_cons w k xi r1 xj r2 l :
  weight_sum w k ((xi, r1, (xj, r2)) :: l)
    = (if bool_decide ((xi, xj) = k) then w r1 r2 else 0) + weight_sum w k l.
Proof. reflexivity. Qed.

Lemma weight_sum_nil w k : weight_sum w k [] = 0.
Proof. reflexivity. Qed.

Lemma msd_inner_get acc l k :
  let acc' := foldl (fun acc '((xi, r1), (xj, r2)) =>
      MsdAcc (acc_add (sqDiff acc) (xi, xj) ((r1 - r2) ^ 2))
             (acc_add (mfreq acc) (xi, xj) 1)) acc l in
  acc_get (sqDiff acc') k
    = acc_get (sqDiff acc) k + weight_sum (fun r1 r2 => (r1 - r2) ^ 2) k l
  ∧ acc_get (mfreq acc') k
    = acc_get (mfreq acc) k + weight_sum (fun _ _ => 1) k l.
Proof.
  revert acc. induction l as [|[[xi r1] [xj r2]] l IH]; intros acc.
  - rewrite !weight_sum_nil. cbn. lia.
  - rewrite !weight_sum_cons. cbn [foldl].
    destruct (IH (MsdAcc (acc_add (sqDiff acc) (xi, xj) ((r1 - r2) ^ 2))
                         (acc_add (mfreq acc) (xi, xj) 1))) as [H1 H2].
    cbv zeta in H1, H2 |- *. rewrite H1, H2. cbn [sqDiff mfreq].
    rewrite !acc_get_add.
    case_bool_decide; split; ring.
Qed.

Lemma all_pairs_cons y l yrs :
  all_pairs ((y, l) :: yrs) = combinations2 l ++ all_pairs yrs.
Proof. reflexivity. Qed.

Lemma msd_outer_get acc yrs k :
  let acc' := foldl (fun acc '(y, yRatings) =>
    foldl (fun acc '((xi, r1), (xj, r2)) =>
      MsdAcc (acc_add (sqDiff acc) (xi, xj) ((r1 - r2) ^ 2))
             (acc_add (mfreq acc) (xi, xj) 1))
      acc (combinations2 yRatings)) acc yrs in
  acc_get (sqDiff acc') k
    = acc_get (sqDiff acc) k
      + weight_sum (fun r1 r2 => (r1 - r2) ^ 2) k (all_pairs yrs)
  ∧ acc_get (mfreq acc') k
    = acc_get (mfreq acc) k + weight_sum (fun _ _ => 1) k (all_pairs yrs).
Proof.
  revert acc. induction yrs as [|[y l] yrs IH]; intros acc.
  - cbn [foldl]. change (all_pairs []) with (@nil (Z * Z * (Z * Z))).
    rewrite !weight_sum_nil. cbv zeta. lia.
  - rewrite all_pairs_cons, !weight_sum_app. cbn [foldl]. cbv zeta.
    match goal with |- context [foldl _ (foldl ?f acc ?c) yrs] =>
      destruct (IH (foldl f acc c)) as [H1 H2];
      destruct (msd_inner_get acc c k) as [H3 H4] end.
    cbv zeta in H1, H2, H3, H4. rewrite H1, H2, H3, H4. split; ring.
Qed.

Lemma msd_accumulate_get yrs k :
  acc_get (sqDiff (msd_accumulate yrs)) k
    = weight_sum (fun r1 r2 => (r1 - r2) ^ 2) k (all_pairs yrs)
  ∧ acc_get (mfreq (msd_accumulate yrs)) k
    = weight_sum (fun _ _ => 1) k (all_pairs yrs).
Proof.
  destruct (msd_outer_get (MsdAcc ∅ ∅) yrs k) as [H1 H2].
  unfold msd_accumulate. cbn in H1, H2. rewrite H1, H2.
  unfold acc_get. cbn. rewrite lookup_empty. cbn. lia.
Qed.

Lemma zq_0 : zq 0 = 0%Qc.
Proof. exact Z2Qc_inj_0. Qed.

Lemma zq_eq0 (z : Z) : zq z = 0%Qc ↔ z = 0.
Proof. rewrite <- zq_0. apply Z2Qc_inj_iff. Qed.

Lemma fdiv_ok (x y : Qc) : y ≠ 0%Qc → fdiv x y = Ok (x / y)%Qc.
Proof. intros H. unfold fdiv. by rewrite bool_decide_eq_false_2. Qed.

(** ** The MSD matrix *)

Lemma msd_body_writes acc n xi :
  1 ≤ xi ≤ n →
  writes_pair n xi (msd_entry acc xi)
    (fun M xj =>
      M ← (if bool_decide (acc_get (sqDiff acc) (xi, xj) = 0)
           then set2 M xi xj (zq (acc_get (mfreq acc) (xi, xj)))
           else
             v ← fdiv (zq (acc_get (mfreq acc) (xi, xj)))
                      (zq (acc_get (sqDiff acc) (xi, xj)));
             set2 M xi xj v);
      v ← get2 M xi xj;
      set2 M xj xi v) xi.
Proof.
  intros Hxi M xj [Hr Hc] Hxj.
  assert (Hset : ∀ v, ∃ M',
    (M1 ← set2 M xi xj v; w ← get2 M1 xi xj; set2 M1 xj xi w) = Ok M'
    ∧ square n M' ∧ ∀ p q, cell M' p q =
        if bool_decide ((p = xi ∧ q = xj) ∨ (p = xj ∧ q = xi))
        then v else cell M p q).
  { intros v. rewrite set2_in by lia. cbn.
    rewrite get2_in by (cbn; lia). cbn.
    rewrite set2_in by (cbn; lia). cbn.
    eexists. split; [reflexivity|]. split; [by split|].
    intros p q. cbn. rewrite (bool_decide_eq_true_2 (xi = xi ∧ xj = xj)) by done.
    repeat case_bool_decide; try done; exfalso; intuition congruence. }
  unfold msd_entry. case_bool_decide as Hs.
  - apply Hset.
  - rewrite fdiv_ok by (by rewrite zq_eq0). apply Hset.
Qed.

Lemma msd_row_writes acc n : writes_row n (msd_entry acc) (msd_row acc n).
Proof.
  intros M xi [Hr Hc] Hxi. unfold msd_row.
  rewrite set2_in by lia. cbn.
  match goal with |- context [foldM _ ?M1 _] =>
    destruct (inner_loop n xi (msd_entry acc xi) _ _ xi M1 (Z.le_refl xi)
                eq_refl (msd_body_writes acc n xi Hxi))
      as (M' & HM' & Hsq & Hcell); [by split|] end.
  exists M'. split; [exact HM'|]. split; [exact Hsq|].
  intros p q. rewrite Hcell. cbn.
  repeat case_bool_decide; try lia; try done; f_equal; lia.
Qed.

Lemma constructMSDSimMat_cells a M :
  square (lastXi a) M →
  ∃ M', constructMSDSimMat a M = Ok M' ∧ square (lastXi a) M' ∧
    ∀ p q, cell M' p q =
      if bool_decide (1 ≤ Z.min p q ∧ Z.max p q ≤ lastXi a)
      then msd_entry (msd_accumulate (yr a)) (Z.min p q) (Z.max p q)
      else cell M p q.
Proof.
  intros HM. unfold constructMSDSimMat.
  eapply (outer_loop (lastXi a)); eauto using msd_row_writes. lia.
Qed.

(** ** The cosine matrix *)

Lemma cos_inner_get acc l k :
  let acc' := foldl (fun acc '((xi, r1), (xj, r2)) =>
      CosAcc (acc_add (prods acc) (xi, xj) (r1 * r2))
             (acc_add (freq acc) (xi, xj) 1)
             (acc_add (sqi acc) (xi, xj) (r1 ^ 2))
             (acc_add (sqj acc) (xi, xj) (r2 ^ 2))) acc l in
  acc_get (prods acc') k
    = acc_get (prods acc) k + weight_sum (fun r1 r2 => r1 * r2) k l
  ∧ acc_get (freq acc') k
    = acc_get (freq acc) k + weight_sum (fun _ _ => 1) k l
  ∧ acc_get (sqi acc') k
    = acc_get (sqi acc) k + weight_sum (fun r1 _ => r1 ^ 2) k l
  ∧ acc_get (sqj acc') k
    = acc_get (sqj acc) k + weight_sum (fun _ r2 => r2 ^ 2) k l.
Proof.
  revert acc. induction l as [|[[xi r1] [xj r2]] l IH]; intros acc.
  - rewrite !weight_sum_nil. cbn. lia.
  - rewrite !weight_sum_cons. cbn [foldl].
    destruct (IH (CosAcc (acc_add (prods acc) (xi, xj) (r1 * r2))
                         (acc_add (freq acc) (xi, xj) 1)
                         (acc_add (sqi acc) (xi, xj) (r1 ^ 2))
                         (acc_add (sqj acc) (xi, xj) (r2 ^ 2))))
      as (H1 & H2 & H3 & H4).
    cbv zeta in H1, H2, H3, H4 |- *. rewrite H1, H2, H3, H4.
    cbn [prods freq sqi sqj]. rewrite !acc_get_add.
    case_bool_decide; repeat split; ring.
Qed.

Lemma cos_outer_get acc yrs k :
  let acc' := foldl (fun acc '(y, yRatings) =>
    foldl (fun acc '((xi, r1), (xj, r2)) =>
      CosAcc (acc_add (prods acc) (xi, xj) (r1 * r2))
             (acc_add (freq acc) (xi, xj) 1)
             (acc_add (sqi acc) (xi, xj) (r1 ^ 2))
             (acc_add (sqj acc) (xi, xj) (r2 ^ 2)))
      acc (combinations2 yRatings)) acc yrs in
  acc_get (prods acc') k
    = acc_get (prods acc) k
      + weight_sum (fun r1 r2 => r1 * r2) k (all_pairs yrs)
  ∧ acc_get (freq acc') k
    = acc_get (freq acc) k + weight_sum (fun _ _ => 1) k (all_pairs yrs)
  ∧ acc_get (sqi acc') k
    = acc_get (sqi acc) k + weight_sum (fun r1 _ => r1 ^ 2) k (all_pairs yrs)
  ∧ acc_get (sqj acc') k
    = acc_get (sqj acc) k + weight_sum (fun _ r2 => r2 ^ 2) k (all_pairs yrs).
Proof.
  revert acc. induction yrs as [|[y l] yrs IH]; intros acc.
  - cbn [foldl]. change (all_pairs []) with (@nil (Z * Z * (Z * Z))).
    rewrite !weight_sum_nil. cbv zeta. lia.
  - rewrite all_pairs_cons, !weight_sum_app. cbn [foldl]. cbv zeta.
    match goal with |- context [foldl _ (foldl ?f acc ?c) yrs] =>
      destruct (IH (foldl f acc c)) as (H1 & H2 & H3 & H4);
      destruct (cos_inner_get acc c k) as (H5 & H6 & H7 & H8) end.
    cbv zeta in H1, H2, H3, H4, H5, H6, H7, H8.
    rewrite H1, H2, H3, H4, H5, H6, H7, H8. repeat split; ring.
Qed.

Lemma cos_accumulate_get yrs k :
  acc_get (prods (cos_accumulate yrs)) k
    = weight_sum (fun r1 r2 => r1 * r2) k (all_pairs yrs)
  ∧ acc_get (freq (cos_accumulate yrs)) k
    = weight_sum (fun _ _ => 1) k (all_pairs yrs)
  ∧ acc_get (sqi (cos_accumulate yrs)) k
    = weight_sum (fun r1 _ => r1 ^ 2) k (all_pairs yrs)
  ∧ acc_get (sqj (cos_accumulate yrs)) k
    = weight_sum (fun _ r2 => r2 ^ 2) k (all_pairs yrs).
Proof.
  destruct (cos_outer_get (CosAcc ∅ ∅ ∅ ∅) yrs k) as (H1 & H2 & H3 & H4).
  unfold cos_accumulate. cbv zeta in H1, H2, H3, H4. rewrite H1, H2, H3, H4.
  unfold acc_get. cbn. rewrite lookup_empty. cbn. lia.
Qed.

Section Cosine.

Variable np_sqrt : Qc → Qc.

Lemma cos_body_writes acc n xi :
  1 ≤ xi ≤ n → cos_defined np_sqrt acc n →
  writes_pair n xi (cos_val np_sqrt acc xi)
    (fun M xj =>
      M ← (if bool_decide (acc_get (freq acc) (xi, xj) = 0)
           then set2 M xi xj 0%Qc
           else
             let denum :=
               np_sqrt (zq (acc_get (sqi acc) (xi, xj)
                            * acc_get (sqj acc) (xi, xj))) in
             v ← fdiv (zq (acc_get (prods acc) (xi, xj))) denum;
             set2 M xi xj v);
      v ← get2 M xi xj;
      set2 M xj xi v) (xi + 1).
Proof.
  intros Hxi Hdef M xj [Hr Hc] Hxj.
  assert (Hset : ∀ v, ∃ M',
    (M1 ← set2 M xi xj v; w ← get2 M1 xi xj; set2 M1 xj xi w) = Ok M'
    ∧ square n M' ∧ ∀ p q, cell M' p q =
        if bool_decide ((p = xi ∧ q = xj) ∨ (p = xj ∧ q = xi))
        then v else cell M p q).
  { intros v. rewrite set2_in by lia. cbn.
    rewrite get2_in by (cbn; lia). cbn.
    rewrite set2_in by (cbn; lia). cbn.
    eexists. split; [reflexivity|]. split; [by split|].
    intros p q. cbn.
    rewrite (bool_decide_eq_true_2 (xi = xi ∧ xj = xj)) by done.
    repeat case_bool_decide; try done; exfalso; intuition congruence. }
  unfold cos_val. rewrite (bool_decide_eq_false_2 (xi = xj)) by lia.
  case_bool_decide as Hf.
  - apply Hset.
  - cbv zeta. rewrite fdiv_ok by (apply Hdef; [lia|lia|done]). apply Hset.
Qed.

Lemma cos_row_writes acc n :
  cos_defined np_sqrt acc n →
  writes_row n (cos_val np_sqrt acc) (cos_row np_sqrt acc n).
Proof.
  intros Hdef M xi [Hr Hc] Hxi. unfold cos_row.
  rewrite set2_in by lia. cbn.
  match goal with |- context [foldM _ ?M1 _] =>
    destruct (inner_loop n xi (cos_val np_sqrt acc xi) _ _ (xi + 1) M1
                ltac:(lia) eq_refl (cos_body_writes acc n xi Hxi Hdef))
      as (M' & HM' & Hsq & Hcell); [by split|] end.
  exists M'. split; [exact HM'|]. split; [exact Hsq|].
  intros p q. rewrite Hcell. cbn.
  repeat case_bool_decide; try lia; try done.
  - f_equal; lia.
  - unfold cos_val. by rewrite bool_decide_eq_true_2 by lia.
Qed.

Lemma constructCosineSimMat_cells a M :
  cos_defined np_sqrt (cos_accumulate (yr a)) (lastXi a) →
  square (lastXi a) M →
  ∃ M', constructCosineSimMat np_sqrt a M = Ok M' ∧ square (lastXi a) M' ∧
    ∀ p q, cell M' p q =
      if bool_decide (1 ≤ Z.min p q ∧ Z.max p q ≤ lastXi a)
      then cos_val np_sqrt (cos_accumulate (yr a)) (Z.min p q) (Z.max p q)
      else cell M p q.
Proof.
  intros Hdef HM. unfold constructCosineSimMat.
  eapply (outer_loop (lastXi a)); eauto using cos_row_writes. lia.
Qed.

End Cosine.

(** ** Co-rated pairs *)

Lemma elem_of_combinations2 {A} (l : list A) (a b : A) :
  (a, b) ∈ combinations2 l → a ∈ l ∧ b ∈ l.
Proof.
  induction l as [|c l IH]; cbn; [by intros ?%elem_of_nil|].
  rewrite elem_of_app, list_elem_of_fmap. intros [(b' & [= -> ->] & Hb)|H].
  - split; [left|by right].
  - destruct (IH H). split; by right.
Qed.

Lemma elem_of_all_pairs yrs pr :
  pr ∈ all_pairs yrs → ∃ y l, (y, l) ∈ yrs ∧ pr ∈ combinations2 l.
Proof.
  unfold all_pairs. rewrite list_elem_of_In, in_concat.
  intros (c & Hc%list_elem_of_In & Hpr%list_elem_of_In).
  apply list_elem_of_fmap in Hc as ([y l] & -> & Hyl). eauto.
Qed.

Lemma all_pairs_positive yrs xi r1 xj r2 :
  ratings_positive yrs → (xi, r1, (xj, r2)) ∈ all_pairs yrs → 0 < r1 ∧ 0 < r2.
Proof.
  intros Hpos (y & l & Hyl & Hc)%elem_of_all_pairs.
  apply elem_of_combinations2 in Hc as [H1 H2].
  unfold ratings_positive in Hpos. rewrite Forall_forall in Hpos.
  specialize (Hpos _ Hyl). rewrite Forall_forall in Hpos.
  split; [apply (Hpos _ H1)|apply (Hpos _ H2)].
Qed.

Lemma weight_sum_no_pair w k l :
  weight_sum (fun _ _ => 1) k l = 0 → weight_sum w k l = 0.
Proof.
  induction l as [|[[xi r1] [xj r2]] l IH]; [done|].
  rewrite !weight_sum_cons.
  assert (0 ≤ weight_sum (fun _ _ => 1) k l).
  { clear. induction l as [|[[xi r1] [xj r2]] l IH]; [done|].
    rewrite weight_sum_cons. case_bool_decide; lia. }
  case_bool_decide; [lia|]. intros. rewrite IH; lia.
Qed.

Lemma weight_sum_some_pair w k l :
  (∀ xi r1 xj r2, (xi, r1, (xj, r2)) ∈ l → 0 < w r1 r2) →
  weight_sum (fun _ _ => 1) k l ≠ 0 → 0 < weight_sum w k l.
Proof.
  induction l as [|[[xi r1] [xj r2]] l IH]; [done|].
  intros Hw. rewrite !weight_sum_cons.
  assert (0 ≤ weight_sum w k l).
  { assert (Hl : ∀ xi r1 xj r2, (xi, r1, (xj, r2)) ∈ l → 0 < w r1 r2).
    { intros. eapply Hw. right. eassumption. }
    clear -Hl. induction l as [|[[xi r1] [xj r2]] l IH]; [done|].
    rewrite weight_sum_cons.
    assert (0 < w r1 r2) by (eapply Hl; left).
    assert (0 ≤ weight_sum w k l).
    { apply IH. intros. eapply Hl. right. eassumption. }
    case_bool_decide; lia. }
  assert (0 < w r1 r2) by (eapply Hw; left).
  case_bool_decide; [lia|]. intros Hn.
  assert (0 < weight_sum w k l); [|lia].
  apply IH; [|lia]. intros. eapply Hw. right. eassumption.
Qed.

Lemma cos_defined_positive np_sqrt a :
  ratings_positive (yr a) → sqrt_nonzero np_sqrt →
  cos_defined np_sqrt (cos_accumulate (yr a)) (lastXi a).
Proof.
  intros Hpos Hsqrt i j Hi Hj Hf.
  destruct (cos_accumulate_get (yr a) (i, j)) as (_ & H2 & H3 & H4).
  rewrite H2 in Hf. rewrite H3, H4. apply Hsqrt.
  apply Z.mul_pos_pos; apply weight_sum_some_pair; try done.
  - intros xi r1 xj r2 [H _]%(all_pairs_positive _ _ _ _ _ Hpos). nia.
  - intros xi r1 xj r2 [_ H]%(all_pairs_positive _ _ _ _ _ Hpos). nia.
Qed.

(** ** [constructSimMat] *)

Section Build.

Variable np_sqrt : Qc → Qc.
Variable mem : Z → Z → Qc.

Lemma constructSimMat_cos a :
  0 ≤ lastXi a + 1 →
  cos_defined np_sqrt (cos_accumulate (yr a)) (lastXi a) →
  ∃ M, constructSimMat np_sqrt mem a "cos" = Ok M ∧ square (lastXi a) M ∧
    ∀ p q, cell M p q =
      if bool_decide (1 ≤ Z.min p q ∧ Z.max p q ≤ lastXi a)
      then cos_val np_sqrt (cos_accumulate (yr a)) (Z.min p q) (Z.max p q)
      else mem p q.
Proof.
  intros Hn Hdef. unfold constructSimMat, np_empty.
  rewrite (bool_decide_eq_true_2 (_ ∈ knownSim)) by (vm_compute; set_solver).
  rewrite (bool_decide_eq_true_2 (_ ∧ _)) by lia. cbn.
  by apply (constructCosineSimMat_cells np_sqrt a).
Qed.

Lemma constructSimMat_msd a :
  0 ≤ lastXi a + 1 →
  ∃ M, constructSimMat np_sqrt mem a "MSD" = Ok M ∧ square (lastXi a) M ∧
    ∀ p q, cell M p q =
      if bool_decide (1 ≤ Z.min p q ∧ Z.max p q ≤ lastXi a)
      then msd_entry (msd_accumulate (yr a)) (Z.min p q) (Z.max p q)
      else mem p q.
Proof.
  intros Hn. unfold constructSimMat, np_empty.
  rewrite (bool_decide_eq_true_2 (_ ∈ knownSim)) by (vm_compute; set_solver).
  rewrite (bool_decide_eq_true_2 (_ ∧ _)) by lia. cbn.
  by apply (constructMSDSimMat_cells a).
Qed.

Lemma constructSimMat_clone a :
  0 ≤ lastXi a + 1 →
  constructSimMat np_sqrt mem a "MSDClone"
    = Ok (NDArray (lastXi a + 1) (lastXi a + 1) mem).
Proof.
  intros Hn. unfold constructSimMat, np_empty.
  rewrite (bool_decide_eq_true_2 (_ ∈ knownSim)) by (vm_compute; set_solver).
  by rewrite (bool_decide_eq_true_2 (_ ∧ _)) by lia.
Qed.

End Build.

(** ** Accumulators and co-ratings *)

Lemma weight_sum_agree yrs i j :
  agree yrs i j →
  weight_sum (fun r1 r2 => (r1 - r2) ^ 2) (i, j) (all_pairs yrs) = 0.
Proof.
  intros Hag.
  assert (H : ∀ xi r1 xj r2, (xi, r1, (xj, r2)) ∈ all_pairs yrs →
                xi = i → xj = j → r1 = r2).
  { intros xi r1 xj r2 (y & l & Hyl & Hc)%elem_of_all_pairs -> ->.
    apply elem_of_combinations2 in Hc as [H1 H2]. eauto. }
  revert H. generalize (all_pairs yrs). intros l.
  induction l as [|[[xi r1] [xj r2]] l IH]; intros H; [done|].
  rewrite weight_sum_cons, IH by (intros; eapply H; [by right|done..]).
  case_bool_decide as Hk; [|done]. injection Hk as -> ->.
  rewrite (H i r1 j r2); [lia|by left|done..].
Qed.

Lemma agree_sym yrs i j : agree yrs i j → agree yrs j i.
Proof. intros H y l ri rj ? ? ?. symmetry. eauto. Qed.

Lemma ratings_by_cons i x r l :
  ratings_by i ((x, r) :: l)
    = if bool_decide (x = i) then r :: ratings_by i l else ratings_by i l.
Proof.
  unfold ratings_by. rewrite filter_cons. cbn.
  case_decide; case_bool_decide; done.
Qed.

Lemma ratings_by_absent i l : i ∉ map fst l → ratings_by i l = [].
Proof.
  induction l as [|[x r] l IH]; [done|]. cbn [map fst].
  rewrite not_elem_of_cons.
  intros [Hx Hl]. rewrite ratings_by_cons, bool_decide_eq_false_2 by done.
  by apply IH.
Qed.

Lemma weight_sum_map_pair w i j x r (l : list (Z * Z)) :
  weight_sum w (i, j) (map (pair (x, r)) l)
    = if bool_decide (x = i) then sumZ (map (w r) (ratings_by j l)) else 0.
Proof.
  induction l as [|[x' r'] l IH]; cbn [map].
  - rewrite weight_sum_nil. by case_bool_decide.
  - rewrite weight_sum_cons, IH, ratings_by_cons.
    repeat case_bool_decide; try done; exfalso; congruence.
Qed.

Lemma sorted_head_lt x (l : list (Z * Z)) i :
  StronglySorted Z.lt (x :: map fst l) → i ≤ x → i ∉ map fst l.
Proof.
  intros Hs Hi Hin. apply StronglySorted_inv in Hs as [_ Hall].
  rewrite Forall_forall in Hall. apply Hall in Hin. lia.
Qed.

Lemma weight_sum_combinations w i j (l : list (Z * Z)) :
  i < j → StronglySorted Z.lt (map fst l) →
  weight_sum w (i, j) (combinations2 l)
    = sumZ (map (fun '(r1, r2) => w r1 r2)
                (list_prod (ratings_by i l) (ratings_by j l))).
Proof.
  intros Hij. induction l as [|[x r] l IH]; intros Hs; [done|].
  cbn [combinations2]. cbn [map fst] in Hs.
  rewrite weight_sum_app, weight_sum_map_pair, IH
    by (by apply StronglySorted_inv in Hs as [? _]).
  rewrite !ratings_by_cons.
  destruct (decide (x = i)) as [->|Hxi].
  - rewrite bool_decide_eq_true_2 by done.
    rewrite (bool_decide_eq_false_2 (i = j)) by lia.
    rewrite (ratings_by_absent i l) by (eapply sorted_head_lt; [done|lia]).
    cbn [list_prod]. rewrite app_nil_r, map_map.
    change (sumZ (map _ [])) with 0. rewrite Z.add_0_r. reflexivity.
  - rewrite !(bool_decide_eq_false_2 (x = i)) by done.
    case_bool_decide as Hxj; [|lia].
    rewrite (ratings_by_absent i l) by (eapply sorted_head_lt; [done|lia]).
    done.
Qed.

Lemma weight_sum_co_ratings w yrs i j :
  i < j → ascending yrs →
  weight_sum w (i, j) (all_pairs yrs)
    = sumZ (map (fun '(r1, r2) => w r1 r2) (co_ratings yrs i j)).
Proof.
  intros Hij. induction yrs as [|[y l] yrs IH]; intros Hs; [done|].
  apply Forall_cons in Hs as [Hl Hs].
  rewrite all_pairs_cons, weight_sum_app, IH by done.
  unfold co_ratings. cbn [map concat]. rewrite map_app, sumZ_app.
  by rewrite weight_sum_combinations.
Qed.

Lemma sumZ_ones {A} (l : list A) : sumZ (map (fun _ => 1) l) = len l.
Proof.
  unfold len. induction l as [|a l IH]; [done|].
  cbn [map length]. change (sumZ (1 :: ?l)) with (1 + sumZ l). lia.
Qed.

Lemma msd_accumulate_co_ratings yrs i j :
  i < j → ascending yrs →
  acc_get (mfreq (msd_accumulate yrs)) (i, j) = len (co_ratings yrs i j)
  ∧ acc_get (sqDiff (msd_accumulate yrs)) (i, j)
    = sq_diffs (co_ratings yrs i j).
Proof.
  intros Hij Hs. destruct (msd_accumulate_get yrs (i, j)) as [-> ->].
  rewrite !weight_sum_co_ratings by done. split; [|done].
  rewrite <- sumZ_ones. f_equal. apply map_ext. by intros [? ?].
Qed.

(** ** Entries of the similarity matrix *)

(** The MSD build on [algo_ex]: users 1 and 2 share three movies with
    squared differences 4, 4 and 4; users 1 and 3 agree on their one common
    movie; the diagonal holds 0 and row 0 is what the memory held. *)
Example msd_matrix_ex :
  (M ← constructSimMat sqrt_floor mem_a algo_ex "MSD";
   forM (fun '(i, j) => get2 M i j) [(1, 2); (2, 1); (1, 3); (2, 3); (1, 1);
                                      (0, 2)])
    = Ok [(zq 1 / zq 4)%Qc; (zq 1 / zq 4)%Qc; zq 1; (zq 1 / zq 4)%Qc; zq 0;
          zq 7].
Proof. apply (bool_decide_unpack _). vm_compute. exact I. Qed.

Example cos_matrix_ex :
  (M ← constructSimMat sqrt_floor mem_a algo_ex "cos";
   forM (fun '(i, j) => get2 M i j) [(1, 3); (3, 1); (2, 2); (0, 0)])
    = Ok [zq 1; zq 1; zq 1; zq 7].
Proof. apply (bool_decide_unpack _). vm_compute. exact I. Qed.

Example unknown_sim_ex :
  (M ← constructSimMat sqrt_floor mem_a algo_ex "Cos"; get2 M 1 1)
    = Raise NameError.
Proof. apply (bool_decide_unpack _). vm_compute. exact I. Qed.

Lemma sqrt_floor_nonzero : sqrt_nonzero sqrt_floor.
Proof.
  intros z Hz. unfold sqrt_floor. cbn [zq Qc_of_Z this inject_Z Qnum Qden].
  rewrite Z.div_1_r.
  assert (Hs : 0 < Z.sqrt (z * 2 ^ 104)) by (apply Z.sqrt_pos; lia).
  intros H. unfold Qcdiv in H. apply Qcmult_integral in H as [H|H].
  - apply zq_eq0 in H. lia.
  - assert (Hne : zq (2 ^ 52) ≠ 0%Qc) by (by rewrite zq_eq0).
    apply Qcmult_inv_r in Hne. rewrite H, Qcmult_0_r in Hne. done.
Qed.

(** C2. For distinct valid X-entities [i] and [j] the MSD matrix holds, at
    [(i, j)], the accumulated co-rating count [f] when the accumulated squared
    difference [d] is zero and [f / d] otherwise; the entry is [0] when
    [f = 0]; it is [f] when the two entities agree on every shared Y-entity;
    and on lists in increasing order of ids the accumulators are the number
    of co-ratings and the sum of their squared differences. *)
Theorem msd_similarity_entry (np_sqrt : Qc → Qc) (mem : Z → Z → Qc)
    (a : Algo) (i j : Z) :
  1 ≤ i ≤ lastXi a → 1 ≤ j ≤ lastXi a → i ≠ j →
  let k := (Z.min i j, Z.max i j) in
  let f := acc_get (mfreq (msd_accumulate (yr a))) k in
  let d := acc_get (sqDiff (msd_accumulate (yr a))) k in
  ∃ M, constructSimMat np_sqrt mem a "MSD" = Ok M
    ∧ get2 M i j
      = Ok (if bool_decide (d = 0) then zq f else (zq f / zq d)%Qc)
    ∧ (f = 0 → get2 M i j = Ok 0%Qc)
    ∧ (agree (yr a) i j → get2 M i j = Ok (zq f))
    ∧ (ascending (yr a) →
        f = len (co_ratings (yr a) (Z.min i j) (Z.max i j))
        ∧ d = sq_diffs (co_ratings (yr a) (Z.min i j) (Z.max i j))).
Proof.
  intros Hi Hj Hij k f d.
  destruct (constructSimMat_msd np_sqrt mem a) as (M & HM & [Hr Hc] & Hcell);
    [lia|].
  assert (Hget : get2 M i j
            = Ok (if bool_decide (d = 0) then zq f else (zq f / zq d)%Qc)).
  { rewrite get2_in, Hcell by lia.
    rewrite bool_decide_eq_true_2 by lia. reflexivity. }
  destruct (msd_accumulate_get (yr a) k) as [Hd Hf]. fold d in Hd. fold f in Hf.
  exists M. split; [exact HM|]. split; [exact Hget|]. repeat split.
  - intros Hf0. rewrite Hget.
    assert (d = 0) as ->.
    { rewrite Hd. apply weight_sum_no_pair. by rewrite <- Hf. }
    rewrite bool_decide_eq_true_2 by done. by rewrite Hf0, zq_0.
  - intros Hag. rewrite Hget.
    assert (d = 0) as ->; [|by rewrite bool_decide_eq_true_2].
    rewrite Hd. unfold k.
    destruct (Z.min_spec i j) as [[? ->]|[? ->]];
      destruct (Z.max_spec i j) as [[? ->]|[? ->]]; try lia.
    + by apply weight_sum_agree.
    + by apply weight_sum_agree, agree_sym.
  - by apply msd_accumulate_co_ratings; [lia|].
  - by apply msd_accumulate_co_ratings; [lia|].
Qed.

Lemma msd_similarity_entry_witness :
  let k := (1, 2) in
  let f := acc_get (mfreq (msd_accumulate (yr algo_ex))) k in
  let d := acc_get (sqDiff (msd_accumulate (yr algo_ex))) k in
  ∃ M, constructSimMat sqrt_floor mem_a algo_ex "MSD" = Ok M
    ∧ get2 M 2 1
      = Ok (if bool_decide (d = 0) then zq f else (zq f / zq d)%Qc)
    ∧ (f = 0 → get2 M 2 1 = Ok 0%Qc)
    ∧ (agree (yr algo_ex) 2 1 → get2 M 2 1 = Ok (zq f))
    ∧ (ascending (yr algo_ex) →
        f = len (co_ratings (yr algo_ex) 1 2)
        ∧ d = sq_diffs (co_ratings (yr algo_ex) 1 2)).
Proof.
  apply (msd_similarity_entry sqrt_floor mem_a algo_ex 2 1); cbn; lia.
Defined.

(** ** The diagonal *)

Lemma combinations2_sorted (l : list (Z * Z)) a b :
  StronglySorted Z.lt (map fst l) → (a, b) ∈ combinations2 l → a.1 < b.1.
Proof.
  induction l as [|c l IH]; cbn [combinations2 map]; intros Hs;
    [by intros ?%elem_of_nil|].
  apply StronglySorted_inv in Hs as [Hs Hall].
  rewrite elem_of_app, list_elem_of_fmap. intros [(b' & [= -> ->] & Hb)|H].
  - rewrite Forall_forall in Hall. apply Hall.
    apply list_elem_of_fmap. eauto.
  - by apply IH.
Qed.

Lemma weight_sum_no_key w k l :
  (∀ xi r1 xj r2, (xi, r1, (xj, r2)) ∈ l → (xi, xj) ≠ k) →
  weight_sum w k l = 0.
Proof.
  induction l as [|[[xi r1] [xj r2]] l IH]; intros H; [done|].
  rewrite weight_sum_cons, IH by (intros; eapply H; by right).
  rewrite bool_decide_eq_false_2; [done|]. eapply H. by left.
Qed.

Lemma weight_sum_diagonal w yrs i :
  ascending yrs → weight_sum w (i, i) (all_pairs yrs) = 0.
Proof.
  intros Hs. apply weight_sum_no_key.
  intros xi r1 xj r2 (y & l & Hyl & Hc)%elem_of_all_pairs [= -> ->].
  unfold ascending in Hs. rewrite Forall_forall in Hs.
  apply (combinations2_sorted l) in Hc; [cbn in Hc; lia|].
  by apply (Hs (y, l)).
Qed.

(** The cosine build leaves [1] on the diagonal. *)
Lemma cos_diagonal np_sqrt mem a i :
  1 ≤ i ≤ lastXi a → ratings_positive (yr a) → sqrt_nonzero np_sqrt →
  ∃ M, constructSimMat np_sqrt mem a "cos" = Ok M ∧ get2 M i i = Ok 1%Qc.
Proof.
  intros Hi Hpos Hsqrt.
  destruct (constructSimMat_cos np_sqrt mem a) as (M & HM & [Hr Hc] & Hcell);
    [lia|by apply cos_defined_positive|].
  exists M. split; [done|]. rewrite get2_in, Hcell by lia.
  rewrite bool_decide_eq_true_2 by lia. unfold cos_val.
  by rewrite bool_decide_eq_true_2 by lia.
Qed.

(** The MSD build ends with the value of the key [(i, i)] on the diagonal:
    the [100] written first is replaced by the inner loop. *)
Lemma msd_diagonal np_sqrt mem a i :
  1 ≤ i ≤ lastXi a →
  ∃ M, constructSimMat np_sqrt mem a "MSD" = Ok M
    ∧ get2 M i i = Ok (msd_entry (msd_accumulate (yr a)) i i).
Proof.
  intros Hi.
  destruct (constructSimMat_msd np_sqrt mem a) as (M & HM & [Hr Hc] & Hcell);
    [lia|].
  exists M. split; [done|]. rewrite get2_in, Hcell by lia.
  rewrite bool_decide_eq_true_2 by lia. do 2 f_equal; lia.
Qed.

(** C3. After the build the diagonal entry of a valid X-entity is [1] under
    the cosine metric, but under the MSD metric it is [0], not the sentinel
    [100] that the source writes first: the inner loop starts at [xi] and
    overwrites it. *)
Theorem similarity_diagonal (np_sqrt : Qc → Qc) (mem : Z → Z → Qc)
    (a : Algo) (i : Z) :
  1 ≤ i ≤ lastXi a → ratings_positive (yr a) → sqrt_nonzero np_sqrt →
  ascending (yr a) →
  (∃ M, constructSimMat np_sqrt mem a "cos" = Ok M ∧ get2 M i i = Ok 1%Qc)
  ∧ (∃ M, constructSimMat np_sqrt mem a "MSD" = Ok M
       ∧ get2 M i i = Ok 0%Qc ∧ get2 M i i ≠ Ok (zq 100)).
Proof.
  intros Hi Hpos Hsqrt Hasc. split; [by apply cos_diagonal|].
  destruct (msd_diagonal np_sqrt mem a i Hi) as (M & HM & Hget).
  exists M. split; [done|].
  assert (Hz : get2 M i i = Ok 0%Qc).
  { rewrite Hget. unfold msd_entry.
    destruct (msd_accumulate_get (yr a) (i, i)) as [-> ->].
    rewrite !weight_sum_diagonal by done.
    by rewrite bool_decide_eq_true_2, zq_0. }
  split; [done|]. rewrite Hz. intros H.
  assert (H' : zq 100 = 0%Qc) by congruence. by apply zq_eq0 in H'.
Qed.

Lemma ratings_positive_ex : ratings_positive (yr algo_ex).
Proof. apply (bool_decide_unpack _). vm_compute. exact I. Defined.

Lemma ascending_ex : ascending (yr algo_ex).
Proof. apply (bool_decide_unpack _). vm_compute. exact I. Defined.

Lemma similarity_diagonal_witness :
  (∃ M, constructSimMat sqrt_floor mem_a algo_ex "cos" = Ok M
     ∧ get2 M 2 2 = Ok 1%Qc)
  ∧ (∃ M, constructSimMat sqrt_floor mem_a algo_ex "MSD" = Ok M
       ∧ get2 M 2 2 = Ok 0%Qc ∧ get2 M 2 2 ≠ Ok (zq 100)).
Proof.
  apply (similarity_diagonal sqrt_floor mem_a algo_ex 2).
  - vm_compute. split; discriminate.
  - exact ratings_positive_ex.
  - exact sqrt_floor_nonzero.
  - exact ascending_ex.
Defined.

(** ** Determinism of the build *)

(** C9, as stated, fails: [np.empty] does not initialise the array, row and
    column [0] are never written, and for ['MSDClone'] no cell is written, so
    two builds from one relation can differ. *)
Lemma build_not_deterministic :
  ¬ build_deterministic sqrt_floor algo_ex "cos"
  ∧ ¬ build_deterministic sqrt_floor algo_ex "MSD"
  ∧ ¬ build_deterministic sqrt_floor algo_ex "MSDClone".
Proof.
  assert (Hne : Ok (mem_a 0 0) ≠ Ok (mem_b 0 0)).
  { intros H.
    assert (H' : zq 7 = zq 8) by (unfold mem_a, mem_b in H; congruence).
    by apply Z2Qc_inj in H'. }
  assert (Hn : lastXi algo_ex = 3) by reflexivity.
  split; [|split]; intros Hdet.
  - destruct (constructSimMat_cos sqrt_floor mem_a algo_ex)
      as (M1 & HM1 & [Hr1 Hc1] & Hcell1);
      [lia|apply cos_defined_positive;
           [exact ratings_positive_ex|exact sqrt_floor_nonzero]|].
    destruct (constructSimMat_cos sqrt_floor mem_b algo_ex)
      as (M2 & HM2 & [Hr2 Hc2] & Hcell2);
      [lia|apply cos_defined_positive;
           [exact ratings_positive_ex|exact sqrt_floor_nonzero]|].
    specialize (Hdet _ _ _ _ HM1 HM2 0 0 ltac:(lia) ltac:(lia)).
    rewrite !get2_in, Hcell1, Hcell2 in Hdet by lia.
    rewrite !bool_decide_eq_false_2 in Hdet by lia. exact (Hne Hdet).
  - destruct (constructSimMat_msd sqrt_floor mem_a algo_ex)
      as (M1 & HM1 & [Hr1 Hc1] & Hcell1); [lia|].
    destruct (constructSimMat_msd sqrt_floor mem_b algo_ex)
      as (M2 & HM2 & [Hr2 Hc2] & Hcell2); [lia|].
    specialize (Hdet _ _ _ _ HM1 HM2 0 0 ltac:(lia) ltac:(lia)).
    rewrite !get2_in, Hcell1, Hcell2 in Hdet by lia.
    rewrite !bool_decide_eq_false_2 in Hdet by lia. exact (Hne Hdet).
  - specialize (Hdet mem_a mem_b _ _
      (constructSimMat_clone sqrt_floor mem_a algo_ex ltac:(lia))
      (constructSimMat_clone sqrt_floor mem_b algo_ex ltac:(lia))
      1 2 ltac:(lia) ltac:(lia)).
    rewrite !get2_in in Hdet by (cbn [nrows ncols]; lia). exact (Hne Hdet).
Qed.

(** C9, amended. For the cosine and the MSD metric, two builds from one
    relation succeed and agree on every entry whose two indices are valid
    X-entities, whatever the memory [np.empty] handed out. *)
Theorem valid_entries_deterministic (np_sqrt : Qc → Qc) (a : Algo)
    (sim : string) (mem1 mem2 : Z → Z → Qc) (i j : Z) :
  sim = "cos"%string ∨ sim = "MSD"%string →
  ratings_positive (yr a) → sqrt_nonzero np_sqrt →
  1 ≤ i ≤ lastXi a → 1 ≤ j ≤ lastXi a →
  ∃ M1 M2 v,
    constructSimMat np_sqrt mem1 a sim = Ok M1
    ∧ constructSimMat np_sqrt mem2 a sim = Ok M2
    ∧ get2 M1 i j = Ok v ∧ get2 M2 i j = Ok v.
Proof.
  intros [-> | ->] Hpos Hsqrt Hi Hj.
  - destruct (constructSimMat_cos np_sqrt mem1 a)
      as (M1 & HM1 & [Hr1 Hc1] & Hcell1);
      [lia|by apply cos_defined_positive|].
    destruct (constructSimMat_cos np_sqrt mem2 a)
      as (M2 & HM2 & [Hr2 Hc2] & Hcell2);
      [lia|by apply cos_defined_positive|].
    exists M1, M2, (cell M1 i j). repeat split; try done.
    + apply get2_in; lia.
    + rewrite get2_in, Hcell1, Hcell2 by lia.
      by rewrite !bool_decide_eq_true_2 by lia.
  - destruct (constructSimMat_msd np_sqrt mem1 a)
      as (M1 & HM1 & [Hr1 Hc1] & Hcell1); [lia|].
    destruct (constructSimMat_msd np_sqrt mem2 a)
      as (M2 & HM2 & [Hr2 Hc2] & Hcell2); [lia|].
    exists M1, M2, (cell M1 i j). repeat split; try done.
    + apply get2_in; lia.
    + rewrite get2_in, Hcell1, Hcell2 by lia.
      by rewrite !bool_decide_eq_true_2 by lia.
Qed.

Lemma valid_entries_deterministic_witness :
  ∃ M1 M2 v,
    constructSimMat sqrt_floor mem_a algo_ex "cos" = Ok M1
    ∧ constructSimMat sqrt_floor mem_b algo_ex "cos" = Ok M2
    ∧ get2 M1 1 2 = Ok v ∧ get2 M2 1 2 = Ok v.
Proof.
  apply (valid_entries_deterministic sqrt_floor algo_ex "cos" mem_a mem_b 1 2).
  - left; reflexivity.
  - exact ratings_positive_ex.
  - exact sqrt_floor_nonzero.
  - vm_compute. split; discriminate.
  - vm_compute. split; discriminate.
Defined.

(** ** Comprehensions that do not raise *)

Lemma bind_Ok {A B} (x : A) (f : A → result B) : (Ok x ≫= f) = f x.
Proof. reflexivity. Qed.

Lemma comprehension_ok {A B} (p : A → result bool) (g : A → result B)
    (P : A → Prop) `{∀ a, Decision (P a)} (gv : A → B) (l : list A) :
  (∀ a, a ∈ l → p a = Ok (bool_decide (P a))) →
  (∀ a, a ∈ l → P a → g a = Ok (gv a)) →
  comprehension p g l = Ok (map gv (filter P l)).
Proof.
  induction l as [|a l IH]; intros Hp Hg; [done|].
  cbn [comprehension]. rewrite Hp by left. rewrite bind_Ok, filter_cons.
  rewrite IH; cycle 1.
  { intros; apply Hp; by right. }
  { intros; apply Hg; [by right|done]. }
  case_bool_decide as HP.
  - rewrite Hg by (done || left). by rewrite decide_True by done.
  - by rewrite decide_False by done.
Qed.

Lemma forM_ok {A B} (g : A → result B) (gv : A → B) (l : list A) :
  (∀ a, a ∈ l → g a = Ok (gv a)) → forM g l = Ok (map gv l).
Proof.
  induction l as [|a l IH]; intros Hg; [done|].
  cbn [forM]. rewrite Hg by left. rewrite bind_Ok, IH; [done|].
  intros; apply Hg; by right.
Qed.

(** ** [simMSDClone] *)

Lemma map_fst_filter {A B} (Q : A → Prop) `{∀ x, Decision (Q x)}
    (l : list (A * B)) :
  map fst (filter (fun p => Q p.1) l) = filter Q (map fst l).
Proof.
  induction l as [|[x y] l IH]; [done|].
  cbn [map fst]. rewrite !filter_cons. cbn [fst].
  case_decide; cbn [map fst]; by rewrite IH.
Qed.

Lemma xr_consistent_at a x :
  xr_consistent a → 1 ≤ x ≤ lastXi a →
  NoDup (map fst (dict_get (xr a) x))
  ∧ ∀ y, y ∈ map fst (dict_get (xr a) x)
         ↔ 1 ≤ y ≤ lastYi a ∧ 0 < cell (rm a) x y.
Proof.
  intros Hc Hx. unfold xr_consistent in Hc. rewrite Forall_forall in Hc.
  destruct (Hc x) as (Hnd & Hin & Hall); [apply elem_of_range; lia|].
  rewrite Forall_forall in Hin, Hall. split; [done|].
  intros y. split; [by apply Hin|]. intros [Hy Hr].
  apply Hall; [apply elem_of_range; lia|done].
Qed.

Lemma elem_of_common_ys a xi xj y :
  xr_consistent a → 1 ≤ xi ≤ lastXi a →
  y ∈ common_ys a xi xj
  ↔ 1 ≤ y ≤ lastYi a ∧ 0 < cell (rm a) xi y ∧ 0 < cell (rm a) xj y.
Proof.
  intros Hc Hxi. destruct (xr_consistent_at a xi Hc Hxi) as [_ Hin].
  unfold common_ys. rewrite list_elem_of_filter, Hin. tauto.
Qed.


Lemma clone_sim_nonempty ds :
  ds ≠ [] →
  clone_sim ds =
    let m := (sumQ ds / zq (len ds))%Qc in
    let ssd := sumQ (map (fun d => (d - m) ^ 2)%Qc ds) in
    if bool_decide (ssd = 0%Qc) then zq (len ds) else (zq (len ds) / ssd)%Qc.
Proof. by destruct ds. Qed.

Lemma simMSDClone_eval a xi xj :
  rm_shape a → xr_consistent a →
  1 ≤ xi ≤ lastXi a → 1 ≤ xj ≤ lastXi a →
  simMSDClone a xi xj = Ok (clone_sim (common_diffs a xi xj)).
Proof.
  intros [Hr Hc] Hcons Hxi Hxj.
  destruct (xr_consistent_at a xi Hcons Hxi) as [_ Hin].
  assert (Hget : ∀ x y, 1 ≤ x ≤ lastXi a → 1 ≤ y ≤ lastYi a →
            get2 (rm a) x y = Ok (cell (rm a) x y)).
  { intros. apply get2_in; lia. }
  unfold simMSDClone.
  rewrite (comprehension_ok _ _ (fun p => 0 < cell (rm a) xj p.1) fst);
    cycle 1.
  { intros [y r] Hy. rewrite Hget; [done|done|].
    apply Hin, list_elem_of_fmap. by exists (y, r). }
  { by intros [y r] _ _. }
  assert (HY : map fst (filter (fun p : Z * Z => 0 < cell (rm a) xj p.1)
                               (dict_get (xr a) xi))
               = common_ys a xi xj)
    by exact (map_fst_filter (B:=Z) (fun y => 0 < cell (rm a) xj y)
                (dict_get (xr a) xi)).
  rewrite HY, bind_Ok. unfold common_diffs.
  assert (Hys : ∀ y, y ∈ common_ys a xi xj → 1 ≤ y ≤ lastYi a).
  { intros y Hy. by apply elem_of_common_ys in Hy as [? _]. }
  destruct (common_ys a xi xj) as [|y0 Y] eqn:E; [done|].
  rewrite (forM_ok _ (fun y => zq (cell (rm a) xi y - cell (rm a) xj y)));
    cycle 1.
  { intros y Hy. by rewrite !Hget by auto. }
  rewrite bind_Ok. set (ds := map _ (y0 :: Y)).
  assert (Hmean : np_mean ds = Ok (sumQ ds / zq (len ds))%Qc) by done.
  rewrite Hmean, bind_Ok.
  rewrite (forM_ok _ (fun y =>
     (zq (cell (rm a) xi y - cell (rm a) xj y)
      - sumQ ds / zq (len ds)) ^ 2)%Qc); cycle 1.
  { intros y Hy. by rewrite !Hget by auto. }
  rewrite bind_Ok.
  assert (Hlen : len (y0 :: Y) = len ds).
  { unfold len, ds. by rewrite length_map. }
  assert (Hmm : map (fun y => (zq (cell (rm a) xi y - cell (rm a) xj y)
                                - sumQ ds / zq (len ds)) ^ 2)%Qc (y0 :: Y)
              = map (fun d => (d - sumQ ds / zq (len ds)) ^ 2)%Qc ds).
  { symmetry. apply map_map. }
  rewrite Hlen, (clone_sim_nonempty ds) by done. cbv zeta.
  rewrite Hmm. case_bool_decide as Hz; [done|]. by apply fdiv_ok.
Qed.








(** Users 1 and 2 of [algo_ex] differ by 2 on their three common movies. *)
Example simMSDClone_ex :
  simMSDClone algo_ex 1 2 = Ok (zq 3) ∧ simMSDClone algo_ex 2 1 = Ok (zq 3)
  ∧ simMSDClone algo_ex 1 3 = Ok (zq 1).
Proof.
  repeat split; apply (bool_decide_unpack _); vm_compute; exact I.
Qed.

(** ** Symmetry *)




Lemma rm_shape_ex : rm_shape algo_ex.
Proof. apply (bool_decide_unpack _). vm_compute. exact I. Defined.

Lemma xr_consistent_ex : xr_consistent algo_ex.
Proof. apply (bool_decide_unpack _). vm_compute. exact I. Defined.


(** ** The KNN estimator *)

Lemma bind_inv {A B} (m : result A) (f : A → result B) (v : B) :
  (m ≫= f) = Ok v → ∃ x, m = Ok x ∧ f x = Ok v.
Proof. destruct m as [x|e]; [eauto|discriminate]. Qed.

Lemma comprehension_inv {A B} (p : A → result bool) (g : A → result B)
    (l : list A) (res : list B) :
  comprehension p g l = Ok res →
  ∀ b, b ∈ res → ∃ a, a ∈ l ∧ p a = Ok true ∧ g a = Ok b.
Proof.
  revert res. induction l as [|a l IH]; intros res; cbn [comprehension].
  - intros [= <-] b Hb. by apply elem_of_nil in Hb.
  - intros (c & Hp & H)%bind_inv. destruct c.
    + apply bind_inv in H as (v & Hg & H).
      apply bind_inv in H as (r & Hr & [= <-]).
      intros b [->|Hb]%elem_of_cons.
      * exists a. split; [left|done].
      * destruct (IH _ Hr b Hb) as (a' & ? & ?).
        exists a'. split; [by right|done].
    + intros b Hb. destruct (IH _ H b Hb) as (a' & ? & ?).
      exists a'. split; [by right|done].
Qed.

Lemma comprehension_none {A B} (p : A → result bool) (g : A → result B)
    (l : list A) :
  (∀ a, a ∈ l → p a = Ok false) → comprehension p g l = Ok [].
Proof.
  induction l as [|a l IH]; intros H; [done|].
  cbn [comprehension]. rewrite H by left. rewrite bind_Ok. apply IH.
  intros; apply H; by right.
Qed.

Lemma forM_total {A B} (g : A → result B) (l : list A) :
  (∀ a, a ∈ l → ∃ b, g a = Ok b) → ∃ bs, forM g l = Ok bs.
Proof.
  induction l as [|a l IH]; intros H; [by exists []|].
  destruct (H a) as [b Hb]; [left|].
  destruct IH as [bs Hbs]; [intros; apply H; by right|].
  exists (b :: bs). cbn [forM]. by rewrite Hb, bind_Ok, Hbs.
Qed.

Lemma insert_desc_perm x l : insert_desc x l ≡ₚ x :: l.
Proof.
  induction l as [|y l IH]; [done|]. cbn [insert_desc].
  case_bool_decide; [done|]. rewrite IH. apply Permutation_swap.
Qed.

Lemma sorted_desc_perm l : sorted_desc l ≡ₚ l.
Proof.
  unfold sorted_desc. induction l as [|x l IH]; [done|].
  cbn [foldr]. by rewrite insert_desc_perm, IH.
Qed.

Lemma elem_of_neighbours k l p : p ∈ neighbours k l → p ∈ l.
Proof.
  unfold neighbours. intros (i & H & _)%elem_of_take.
  apply list_elem_of_lookup_2 in H. by rewrite sorted_desc_perm in H.
Qed.

Lemma np_average_zero (a w : list Qc) :
  sumQ w = 0%Qc → np_average a w = Raise ZeroDivisionError.
Proof. intros H. unfold np_average. by rewrite bool_decide_eq_true_2. Qed.

(** The estimate when the list [simX0] is known. *)
Lemma knn_estimate_zero_weights (s : AlgoBasicCollaborative)
    (u0 m0 x0 y0 : Z) (l : list (Z * Qc)) :
  getx0y0 (sim_base (knn_sim s)) u0 m0 = (x0, y0) →
  simX0_of (knn_sim s) x0 y0 = Ok l →
  sumQ (map snd (neighbours (knn_k s) l)) = 0%Qc →
  AlgoBasicCollaborative_estimate s u0 m0
    = Ok (MkAlgoBasicCollaborative (with_est (knn_sim s) 0%Qc) (knn_k s)).
Proof.
  intros Hq Hl Hw. unfold AlgoBasicCollaborative_estimate.
  rewrite Hq, Hl, bind_Ok. destruct l as [|p l]; [done|].
  destruct (forM_total
    (fun '(x, _) => r ← get2 (rm (sim_base (knn_sim s))) x y0; Ok (zq r))
    (neighbours (knn_k s) (p :: l))) as [rats Hrats].
  { intros [x v] Hx%elem_of_neighbours.
    destruct (comprehension_inv _ _ _ _ Hl _ Hx) as (x' & _ & Hp & Hg).
    apply bind_inv in Hg as (v' & _ & [= -> _]).
    apply bind_inv in Hp as (r & -> & _). by exists (zq r). }
  rewrite Hrats, bind_Ok. by rewrite np_average_zero.
Qed.

(** C1, amended. The KNN estimate is the sentinel [0], and nothing is
    raised, when no X-entity at all ([x0] included) rated [y0], and whenever
    the similarities of the selected neighbourhood sum to zero. *)
Theorem knn_impossible (s : AlgoBasicCollaborative) (u0 m0 x0 y0 : Z) :
  getx0y0 (sim_base (knn_sim s)) u0 m0 = (x0, y0) →
  (∀ x, 1 ≤ x ≤ lastXi (sim_base (knn_sim s)) →
     ∃ r, get2 (rm (sim_base (knn_sim s))) x y0 = Ok r ∧ r ≤ 0)
  ∨ (∃ l, simX0_of (knn_sim s) x0 y0 = Ok l
          ∧ sumQ (map snd (neighbours (knn_k s) l)) = 0%Qc) →
  ∃ s', AlgoBasicCollaborative_estimate s u0 m0 = Ok s'
        ∧ est (sim_base (knn_sim s')) = 0%Qc.
Proof.
  intros Hq [Hnone|(l & Hl & Hw)].
  - assert (Hl : simX0_of (knn_sim s) x0 y0 = Ok []).
    { apply comprehension_none. intros x Hx%elem_of_range.
      destruct (Hnone x) as (r & -> & Hr); [lia|].
      by rewrite bind_Ok, bool_decide_eq_false_2 by lia. }
    assert (Hw : sumQ (map snd (neighbours (knn_k s) [])) = 0%Qc).
    { unfold neighbours. cbn [sorted_desc foldr]. by rewrite take_nil. }
    rewrite (knn_estimate_zero_weights s u0 m0 x0 y0 [] Hq Hl Hw).
    by eexists.
  - rewrite (knn_estimate_zero_weights s u0 m0 x0 y0 l Hq Hl Hw).
    by eexists.
Qed.

Lemma knn_impossible_witness :
  ∃ s', AlgoBasicCollaborative_estimate knn_solo 1 2 = Ok s'
        ∧ est (sim_base (knn_sim s')) = 0%Qc.
Proof.
  apply (knn_impossible knn_solo 1 2 1 2).
  - reflexivity.
  - right. exists [(2, 0%Qc)]. split.
    + apply (bool_decide_unpack _). vm_compute. exact I.
    + apply (bool_decide_unpack _). vm_compute. exact I.
Defined.

(** C1, first half as stated, fails: [x0] itself is taken as a neighbour when
    it rated [y0]. User 1 alone rated movie 1, and the estimate for (1, 1)
    under the cosine metric is that rating, 4, not the sentinel. *)
Lemma knn_own_rating_counterexample :
  ∃ s, AlgoBasicCollaborative_init sqrt_floor mem_a 2 2 rm_solo ur_solo
         mr_solo false "cos" = Ok s
       ∧ ¬ others_silent_impossible s 1 1.
Proof.
  assert (Hrun :
    (s ← AlgoBasicCollaborative_init sqrt_floor mem_a 2 2 rm_solo ur_solo
           mr_solo false "cos";
     s' ← AlgoBasicCollaborative_estimate s 1 1;
     Ok (est (sim_base (knn_sim s')))) = Ok (zq 4)).
  { apply (bool_decide_unpack _). vm_compute. exact I. }
  apply bind_inv in Hrun as (s & Hs & Hrun).
  apply bind_inv in Hrun as (s' & Hest & Hval).
  exists s. split; [exact Hs|]. intros Hclaim.
  assert (Hbase : sim_base (knn_sim s) = algo_solo).
  { unfold AlgoBasicCollaborative_init in Hs.
    apply bind_inv in Hs as (t & Ht & [= <-]).
    unfold AlgoUsingSim_init in Ht.
    by apply bind_inv in Ht as (M & _ & [= <-]). }
  destruct Hclaim as (s'' & Hest' & Hz).
  - rewrite Hbase. intros x Hx Hne. exists 0.
    assert (x = 2) as -> by (cbn in Hx, Hne; lia). split; [reflexivity|lia].
  - rewrite Hest in Hest'. assert (s' = s'') as <- by congruence.
    assert (H4 : zq 4 = 0%Qc) by congruence. by apply zq_eq0 in H4.
Qed.

(** ** The baseline *)

Lemma get1_in {A} (l : list A) (i : Z) (v : A) :
  0 ≤ i → l !! Z.to_nat i = Some v → get1 l i = Ok v.
Proof.
  intros Hi Hl. unfold get1. rewrite py_index_in, bind_Ok, Hl; [done|].
  apply lookup_lt_Some in Hl. unfold len. lia.
Qed.

Lemma get1_total {A} (l : list A) (i : Z) :
  0 ≤ i < len l → ∃ v, get1 l i = Ok v.
Proof.
  intros Hi. destruct (lookup_lt_is_Some_2 l (Z.to_nat i)) as [v Hv].
  { unfold len in Hi. lia. }
  exists v. apply get1_in; [lia|done].
Qed.


Lemma foldM_invariant {S A} (I : S → Prop) (f : S → A → result S)
    (l : list A) (s0 s : S) :
  (∀ s a s', I s → f s a = Ok s' → I s') →
  I s0 → foldM f s0 l = Ok s → I s.
Proof.
  intros Hstep. revert s0. induction l as [|a l IH]; intros s0 H0.
  - by intros [= <-].
  - cbn [foldM]. intros (s1 & H1 & H)%bind_inv. eauto.
Qed.

(** C5. For a valid query the BaselineOnly estimate is exactly
    [mu + xBiases[X0] + yBiases[Y0]], with [(X0, Y0)] the pair of the active
    orientation: the call does not raise, nothing is clamped, and the model
    is left unchanged. *)
Theorem baseline_only_exact (s : AlgoWithBaseline) (u0 m0 x0 y0 : Z) :
  bias_shape s →
  getx0y0 (bl_base s) u0 m0 = (x0, y0) →
  1 ≤ x0 ≤ lastXi (bl_base s) → 1 ≤ y0 ≤ lastYi (bl_base s) →
  ∃ xb yb s',
    xBiases s !! Z.to_nat x0 = Some xb
    ∧ yBiases s !! Z.to_nat y0 = Some yb
    ∧ AlgoBaselineOnly_estimate s u0 m0 = Ok s'
    ∧ est (bl_base s') = (mu s + xb + yb)%Qc
    ∧ mu s' = mu s ∧ xBiases s' = xBiases s ∧ yBiases s' = yBiases s.
Proof.
  intros [Hx Hy] Hq Hx0 Hy0.
  destruct (lookup_lt_is_Some_2 (xBiases s) (Z.to_nat x0)) as [xb Hxb].
  { unfold len in Hx. lia. }
  destruct (lookup_lt_is_Some_2 (yBiases s) (Z.to_nat y0)) as [yb Hyb].
  { unfold len in Hy. lia. }
  exists xb, yb. eexists. split; [done|]. split; [done|].
  unfold AlgoBaselineOnly_estimate, getBaseline. rewrite Hq.
  rewrite (get1_in (xBiases s) x0 xb), bind_Ok by (lia || done).
  rewrite (get1_in (yBiases s) y0 yb), !bind_Ok by (lia || done).
  done.
Qed.

Lemma baseline_only_exact_witness :
  ∃ xb yb s',
    xBiases baseline_ex !! Z.to_nat 2 = Some xb
    ∧ yBiases baseline_ex !! Z.to_nat 4 = Some yb
    ∧ AlgoBaselineOnly_estimate baseline_ex 2 4 = Ok s'
    ∧ est (bl_base s') = (mu baseline_ex + xb + yb)%Qc
    ∧ mu s' = mu baseline_ex ∧ xBiases s' = xBiases baseline_ex
    ∧ yBiases s' = yBiases baseline_ex.
Proof.
  apply (baseline_only_exact baseline_ex 2 4 2 4).
  - split; reflexivity.
  - reflexivity.
  - vm_compute. split; discriminate.
  - vm_compute. split; discriminate.
Defined.

(** The estimate is not clamped into [1, 5]: here it is 11/2. *)
Example baseline_only_not_clamped :
  (s' ← AlgoBaselineOnly_estimate baseline_ex 1 2; Ok (est (bl_base s')))
    = Ok (zq 11 / zq 2)%Qc.
Proof. apply (bool_decide_unpack _). vm_compute. exact I. Qed.








(** ** ALS on a constant relation *)

Lemma dict_get_Forall (P : Z * Z → Prop) (d : ratings) (k : Z) :
  Forall (fun kl => Forall P kl.2) d → Forall P (dict_get d k).
Proof.
  induction 1 as [|[k' l] d Hl _ IH]; cbn [dict_get]; [done|].
  by case_bool_decide.
Qed.

Lemma foldM_fixed {S A} (f : S → A → result S) (s : S) (l : list A) :
  (∀ a, a ∈ l → f s a = Ok s) → foldM f s l = Ok s.
Proof.
  induction l as [|a l IH]; intros H; [done|].
  cbn [foldM]. rewrite H by left. rewrite bind_Ok. apply IH.
  intros; apply H; by right.
Qed.

Lemma sumQ_zq_constant (v : Z) (l : list Z) :
  Forall (fun r => r = v) l → sumQ (map zq l) = zq (len l * v).
Proof.
  unfold sumQ, len. induction 1 as [|r l -> _ IH]; [by rewrite <- zq_0|].
  cbn [map foldr length]. rewrite IH. unfold zq. rewrite <- Z2Qc_inj_add.
  f_equal. lia.
Qed.

Lemma mean_constant (v : Z) (l : list Z) :
  l ≠ [] → Forall (fun r => r = v) l → np_mean (map zq l) = Ok (zq v).
Proof.
  intros Hne Hall. destruct l as [|r l]; [done|].
  cbn [map np_mean]. f_equal.
  change (zq r :: map zq l) with (map zq (r :: l)).
  assert (Hlen : len (map zq (r :: l)) = len (r :: l)).
  { unfold len. by rewrite length_map. }
  rewrite Hlen, (sumQ_zq_constant v) by done.
  assert (Hn : zq (len (r :: l)) ≠ 0%Qc).
  { rewrite zq_eq0. unfold len. cbn [length]. lia. }
  unfold zq in *. rewrite Z2Qc_inj_mul. field. done.
Qed.

Lemma sumQ_zeros (l : list Qc) : Forall (fun d => d = 0%Qc) l → sumQ l = 0%Qc.
Proof.
  unfold sumQ. induction 1 as [|d l -> _ IH]; [done|].
  cbn [foldr]. rewrite IH. ring.
Qed.

Lemma get1_replicate (n : nat) (x : Z) (q : Qc) :
  0 ≤ x < Z.of_nat n → get1 (replicate n q) x = Ok q.
Proof.
  intros Hx. apply get1_in; [lia|]. apply lookup_replicate_2. lia.
Qed.

Lemma set1_replicate (n : nat) (y : Z) (q : Qc) :
  0 ≤ y < Z.of_nat n → set1 (replicate n q) y q = Ok (replicate n q).
Proof.
  intros Hy. unfold set1. rewrite py_index_in, bind_Ok.
  - f_equal. apply list_eq. intros i.
    destruct (decide (i = Z.to_nat y)) as [->|Hi].
    + rewrite list_lookup_insert_eq by (rewrite length_replicate; lia).
      symmetry. apply lookup_replicate_2. lia.
    + by rewrite list_lookup_insert_ne.
  - unfold len. rewrite length_replicate. lia.
Qed.

Lemma als_sweep_zero (v reg last last_other : Z) (rs : ratings) :
  0 < reg → 0 ≤ last →
  constant_ratings v last_other rs →
  als_sweep (zq v) reg last rs (replicate (Z.to_nat (last_other + 1)) 0%Qc)
    = Ok (replicate (Z.to_nat (last + 1)) 0%Qc).
Proof.
  intros Hreg Hlast Hrs. unfold als_sweep, np_zeros.
  rewrite bool_decide_eq_true_2, bind_Ok by lia.
  apply foldM_fixed. intros y Hy%elem_of_range.
  pose proof (dict_get_Forall _ _ y Hrs) as Hy'. rewrite Forall_forall in Hy'.
  rewrite (forM_ok _ (fun _ => 0%Qc)); cycle 1.
  { intros [x r] Hxr. destruct (Hy' _ Hxr) as [Hx Hr]. cbn in Hx, Hr.
    rewrite get1_replicate, bind_Ok by lia. subst r. f_equal. ring. }
  rewrite bind_Ok, sumQ_zeros; cycle 1.
  { apply Forall_forall. intros d Hd. apply list_elem_of_fmap in Hd.
    by destruct Hd as (? & -> & _). }
  rewrite fdiv_ok, bind_Ok; cycle 1.
  { rewrite zq_eq0. unfold len. lia. }
  replace (0 / zq (reg + len (dict_get rs y)))%Qc with 0%Qc
    by (unfold Qcdiv; ring).
  apply set1_replicate. lia.
Qed.

(** C6. On a non-empty relation whose present ratings all equal [v], the
    global mean is [v]; one ALS iteration from the zero biases of the
    constructor (a y-sweep, then an x-sweep, with denominators
    [reg + degree]) leaves every bias at [0]; and so does the constructor
    with method ['als']. *)
Theorem als_constant_ratings (lastUi lastMi : Z) (rm0 : ndarray Z)
    (ur mr : ratings) (movieBased : bool) (v : Z) :
  let a := Algo_init lastUi lastMi rm0 ur mr movieBased in
  let s0 := MkAlgoWithBaseline a (zq v)
              (replicate (Z.to_nat (lastXi a + 1)) 0%Qc)
              (replicate (Z.to_nat (lastYi a + 1)) 0%Qc) in
  0 ≤ lastXi a → 0 ≤ lastYi a →
  present_ratings (rm a) ≠ [] →
  Forall (fun r => r = v) (present_ratings (rm a)) →
  constant_ratings v (lastXi a) (yr a) →
  constant_ratings v (lastYi a) (xr a) →
  np_mean (map zq (present_ratings (rm a))) = Ok (zq v)
  ∧ ∃ s, als_iteration s0 = Ok s
      ∧ AlgoWithBaseline_init lastUi lastMi rm0 ur mr movieBased "als" = Ok s
      ∧ mu s = zq v
      ∧ Forall (fun b => b = 0%Qc) (xBiases s)
      ∧ Forall (fun b => b = 0%Qc) (yBiases s)
      ∧ bias_shape s.
Proof.
  intros a s0 HX HY Hne Hall Hyr Hxr.
  assert (Hmu : np_mean (map zq (present_ratings (rm a))) = Ok (zq v))
    by by apply mean_constant.
  assert (Hregx : 0 < reg_x a) by (unfold reg_x; by destruct (ub a)).
  assert (Hregy : 0 < reg_y a) by (unfold reg_y; by destruct (ub a)).
  assert (Hit : als_iteration s0 = Ok s0).
  { unfold als_iteration. cbn [bl_base mu xBiases s0].
    rewrite (als_sweep_zero v (reg_y a) (lastYi a) (lastXi a)), bind_Ok
      by done.
    by rewrite (als_sweep_zero v (reg_x a) (lastXi a) (lastYi a)) by done. }
  split; [done|]. exists s0. split; [done|]. split.
  - unfold AlgoWithBaseline_init. fold a. rewrite Hmu, bind_Ok.
    unfold np_zeros.
    rewrite (bool_decide_eq_true_2 (0 ≤ lastXi a + 1)), bind_Ok by lia.
    rewrite (bool_decide_eq_true_2 (0 ≤ lastYi a + 1)), bind_Ok by lia.
    fold s0. rewrite (bool_decide_eq_false_2 (_ = "sgd"%string)) by done.
    rewrite (bool_decide_eq_true_2 (_ = "als"%string)) by done.
    unfold optimize_als. by apply foldM_fixed.
  - split; [done|]. split; [apply Forall_replicate; done|].
    split; [apply Forall_replicate; done|].
    split; unfold len; cbn; rewrite length_replicate; lia.
Qed.

Lemma als_constant_ratings_witness :
  let a := Algo_init 2 2 rm_const ur_const mr_const false in
  let s0 := MkAlgoWithBaseline a (zq 4)
              (replicate (Z.to_nat (lastXi a + 1)) 0%Qc)
              (replicate (Z.to_nat (lastYi a + 1)) 0%Qc) in
  np_mean (map zq (present_ratings (rm a))) = Ok (zq 4)
  ∧ ∃ s, als_iteration s0 = Ok s
      ∧ AlgoWithBaseline_init 2 2 rm_const ur_const mr_const false "als"
        = Ok s
      ∧ mu s = zq 4
      ∧ Forall (fun b => b = 0%Qc) (xBiases s)
      ∧ Forall (fun b => b = 0%Qc) (yBiases s)
      ∧ bias_shape s.
Proof.
  apply (als_constant_ratings 2 2 rm_const ur_const mr_const false 4).
  - vm_compute. discriminate.
  - vm_compute. discriminate.
  - vm_compute. discriminate.
  - apply (bool_decide_unpack _). vm_compute. exact I.
  - apply (bool_decide_unpack _). vm_compute. exact I.
  - apply (bool_decide_unpack _). vm_compute. exact I.
Defined.

(** ** The Random estimator *)

(** The loops of the constructor stop before the last X-entity and the last
    Y-entity: on [algo_ex] the ratings of user 3 and of movie 4 are not
    counted. *)
Example random_fqs_ex : AlgoRandom_fqs algo_ex = Ok [1; 1; 2; 1; 1].
Proof. vm_compute. reflexivity. Qed.

Example histogram_ex :
  histogram (present_ratings (rm algo_ex)) = [1; 2; 3; 2; 1].
Proof. vm_compute. reflexivity. Qed.

Lemma foldM_ext {S A} (f g : S → A → result S) (l : list A) (s : S) :
  (∀ t a, a ∈ l → f t a = g t a) → foldM f s l = foldM g s l.
Proof.
  revert s. induction l as [|a l IH]; intros s H; [done|].
  cbn [foldM]. rewrite H by left. destruct (g s a) as [t|e]; [|done].
  rewrite !bind_Ok. apply IH. intros; apply H; by right.
Qed.

(** The counts do not depend on the ratings of the last X-entity nor on
    those of the last Y-entity: two relations that differ only there get the
    same counts. *)
Lemma AlgoRandom_fqs_ignores_last (a b : Algo) :
  lastXi a = lastXi b → lastYi a = lastYi b →
  rm_shape a → rm_shape b →
  (∀ x y, 1 ≤ x < lastXi a → 1 ≤ y < lastYi a →
          cell (rm a) x y = cell (rm b) x y) →
  AlgoRandom_fqs a = AlgoRandom_fqs b.
Proof.
  intros HX HY [Hra Hca] [Hrb Hcb] Hcell. unfold AlgoRandom_fqs.
  rewrite <- HX, <- HY. apply foldM_ext. intros fqs x Hx%elem_of_range.
  apply foldM_ext. intros fqs' y Hy%elem_of_range.
  by rewrite !get2_in, Hcell by lia.
Qed.

(** C7. The histogram of the Random estimator is not taken over the whole
    relation: the loops run over [range(1, lastXi)] and [range(1, lastYi)],
    which leave out the last X-entity and the last Y-entity. On the relation
    of [algo_ex] the counts are [1; 1; 2; 1; 1] where the relation holds
    [1; 2; 3; 2; 1], and on a relation with one user and one movie no rating
    is counted and the normalisation divides by zero. The estimate itself
    does not depend on the query. *)
Theorem random_histogram_skips_last :
  AlgoRandom_fqs (Algo_init 3 4 rm_ex ur_ex mr_ex false)
    = Ok [1; 1; 2; 1; 1]
  ∧ histogram (present_ratings (rm (Algo_init 3 4 rm_ex ur_ex mr_ex false)))
    = [1; 2; 3; 2; 1]
  ∧ (s ← AlgoRandom_init 3 4 rm_ex ur_ex mr_ex; Ok (distrib s))
    = Ok [(1, (zq 1 / zq 6)%Qc); (2, (zq 1 / zq 6)%Qc);
          (3, (zq 2 / zq 6)%Qc); (4, (zq 1 / zq 6)%Qc);
          (5, (zq 1 / zq 6)%Qc)]
  ∧ (s ← AlgoRandom_init 1 1 rm_one ur_one mr_one; Ok (distrib s))
    = Raise ZeroDivisionError
  ∧ ∀ s u u0 m0 u0' m0',
      AlgoRandom_estimate s u u0 m0 = AlgoRandom_estimate s u u0' m0'.
Proof.
  split; [vm_compute; reflexivity|].
  split; [vm_compute; reflexivity|].
  split; [apply (bool_decide_unpack _); vm_compute; exact I|].
  split; [apply (bool_decide_unpack _); vm_compute; exact I|].
  reflexivity.
Qed.

(** ** The Clone estimator *)

Lemma foldl_append {A B} (P : A → bool) (g : A → B) (c0 : list B)
    (ks : list A) :
  foldl (fun c k => if P k then c ++ [g k] else c) c0 ks
    = c0 ++ map g (filter (fun k => P k) ks).
Proof.
  revert c0. induction ks as [|k ks IH]; intros c0; cbn [foldl].
  - by rewrite app_nil_r.
  - rewrite IH, filter_cons. case_decide as HP.
    + destruct (P k); [|done]. cbn [map]. by rewrite <- app_assoc.
    + destruct (P k); [by destruct HP|done].
Qed.

Lemma clone_neighbour_eval a x0 cands x rx c :
  commonRatings a x0 x = Ok c →
  clone_neighbour a x0 cands (x, rx) = Ok (cands ++ clone_new (x, rx) c).
Proof.
  intros Hc. unfold clone_neighbour. rewrite Hc, bind_Ok.
  destruct c as [|p c]; [by rewrite app_nil_r|].
  f_equal. apply foldl_append.
Qed.

Lemma clone_candidates_elem a x0 (l : list (Z * Z)) n c v :
  n ∈ l → commonRatings a x0 n.1 = Ok c → v ∈ clone_new n c →
  (∀ n', n' ∈ l → ∃ c', commonRatings a x0 n'.1 = Ok c') →
  ∀ s0, ∃ cands, foldM (clone_neighbour a x0) s0 l = Ok cands
                 ∧ v ∈ cands ∧ ∀ w, w ∈ s0 → w ∈ cands.
Proof.
  intros Hn Hc Hv Hall.
  assert (Hmono : ∀ l s0, (∀ n', n' ∈ l → ∃ c', commonRatings a x0 n'.1 = Ok c') →
            ∃ cands, foldM (clone_neighbour a x0) s0 l = Ok cands
                     ∧ ∀ w, w ∈ s0 → w ∈ cands).
  { clear. induction l as [|[x rx] l IH]; intros s0 Hall; [by exists s0|].
    destruct (Hall (x, rx)) as [c Hc]; [left|]. cbn [fst] in Hc.
    destruct (IH (s0 ++ clone_new (x, rx) c)) as (cands & Hf & Hsub).
    { intros; apply Hall; by right. }
    exists cands. cbn [foldM].
    rewrite (clone_neighbour_eval _ _ _ _ _ c Hc), bind_Ok.
    split; [done|]. intros w Hw. apply Hsub, elem_of_app. by left. }
  induction l as [|[x rx] l IH]; intros s0; [by apply elem_of_nil in Hn|].
  destruct (Hall (x, rx)) as [c' Hc']; [left|]. cbn [fst] in Hc'.
  cbn [foldM]. rewrite (clone_neighbour_eval _ _ _ _ _ c' Hc'), bind_Ok.
  apply elem_of_cons in Hn as [->|Hn].
  - cbn [fst] in Hc, Hc'. assert (c' = c) as -> by congruence.
    destruct (Hmono l (s0 ++ clone_new (x, rx) c)) as (cands & Hf & Hsub).
    { intros; apply Hall; by right. }
    exists cands. split; [done|]. split.
    + apply Hsub, elem_of_app. by right.
    + intros w Hw. apply Hsub, elem_of_app. by left.
  - destruct (IH Hn) with (s0 := s0 ++ clone_new (x, rx) c')
      as (cands & Hf & Hvc & Hsub).
    { intros; apply Hall; by right. }
    exists cands. split; [done|]. split; [done|].
    intros w Hw. apply Hsub, elem_of_app. by left.
Qed.

Lemma commonRatings_total a x0 x :
  rm_shape a → ids_valid (lastYi a) (xr a) →
  1 ≤ x0 ≤ lastXi a → 1 ≤ x ≤ lastXi a →
  ∃ c, commonRatings a x0 x = Ok c.
Proof.
  intros [Hr Hc] Hids Hx0 Hx. unfold commonRatings.
  pose proof (dict_get_Forall _ _ x0 Hids) as Hys.
  rewrite Forall_forall in Hys. eexists.
  apply (comprehension_ok _ _ (fun p => 0 < cell (rm a) x p.1)
           (fun p => (cell (rm a) x0 p.1, cell (rm a) x p.1))).
  - intros [y r] Hy. specialize (Hys _ Hy). cbn in Hys.
    by rewrite get2_in by lia.
  - intros [y r] Hy _. specialize (Hys _ Hy). cbn in Hys.
    by rewrite !get2_in by lia.
Qed.

Example isClone_345_123 :
  map (isClone [3; 4; 5] [1; 2; 3]) (range (-4) 5)
    = [false; false; false; false; false; true; true; true; false].
Proof. vm_compute. reflexivity. Qed.

(** C8. With common ratings [3, 4, 5] for [X0] and [1, 2, 3] for the
    neighbour [x], the 2-clone test succeeds with a deviation sum of 0, and if
    [x] rated the query Y-entity with 4 the candidate 6 is among the values
    whose unweighted mean is the estimate (on a relation whose ids are in
    range, so that no lookup raises). *)
Theorem clone_scenario (a : Algo) (u0 m0 x0 y0 x : Z) :
  getx0y0 a u0 m0 = (x0, y0) →
  rm_shape a → ids_valid (lastYi a) (xr a) → ids_valid (lastXi a) (yr a) →
  1 ≤ x0 ≤ lastXi a →
  (x, 4) ∈ dict_get (yr a) y0 →
  commonRatings a x0 x = Ok [(3, 1); (4, 2); (5, 3)] →
  isClone [3; 4; 5] [1; 2; 3] 2 = true
  ∧ sumZ (map (fun wi => Z.abs (wi - 2))
              (zip_with Z.sub [3; 4; 5] [1; 2; 3])) = 0
  ∧ ∃ cands a',
      clone_candidates a x0 y0 = Ok cands
      ∧ 6 ∈ cands
      ∧ AlgoClone_estimate a u0 m0 = Ok a'
      ∧ est a' = (sumQ (map zq cands) / zq (len cands))%Qc.
Proof.
  intros Hq Hshape Hxr Hyr Hx0 Hx Hc.
  split; [reflexivity|]. split; [reflexivity|].
  destruct (clone_candidates_elem a x0 (dict_get (yr a) y0) (x, 4)
              [(3, 1); (4, 2); (5, 3)] 6 Hx Hc) with (s0 := @nil Z)
    as (cands & Hcands & H6 & _).
  { change (6 ∈ [5; 6; 7]). right. left. }
  { intros [x' rx'] Hn. apply commonRatings_total; try done.
    pose proof (dict_get_Forall _ _ y0 Hyr) as Hv.
    rewrite Forall_forall in Hv. apply (Hv _ Hn). }
  exists cands. unfold AlgoClone_estimate, clone_candidates.
  rewrite Hq, Hcands, bind_Ok.
  destruct cands as [|c cands]; [by apply elem_of_nil in H6|].
  eexists. split; [done|]. split; [done|]. split; [reflexivity|].
  cbn [est set_est]. unfold len. by rewrite length_map.
Qed.

Lemma ids_valid_xr_ex : ids_valid (lastYi algo_ex) (xr algo_ex).
Proof. apply (bool_decide_unpack _). vm_compute. exact I. Defined.

Lemma ids_valid_yr_ex : ids_valid (lastXi algo_ex) (yr algo_ex).
Proof. apply (bool_decide_unpack _). vm_compute. exact I. Defined.

Lemma clone_scenario_witness :
  isClone [3; 4; 5] [1; 2; 3] 2 = true
  ∧ sumZ (map (fun wi => Z.abs (wi - 2))
              (zip_with Z.sub [3; 4; 5] [1; 2; 3])) = 0
  ∧ ∃ cands a',
      clone_candidates algo_ex 1 4 = Ok cands
      ∧ 6 ∈ cands
      ∧ AlgoClone_estimate algo_ex 1 4 = Ok a'
      ∧ est a' = (sumQ (map zq cands) / zq (len cands))%Qc.
Proof.
  apply (clone_scenario algo_ex 1 4 1 4 2).
  - reflexivity.
  - exact rm_shape_ex.
  - exact ids_valid_xr_ex.
  - exact ids_valid_yr_ex.
  - vm_compute. split; discriminate.
  - apply (bool_decide_unpack _). vm_compute. exact I.
  - vm_compute. reflexivity.
Defined.

(** On [algo_ex] the candidates for the query (1, 4) are those of user 2
    (5, 6, 7) and of user 3 (1, 2, 3), and the estimate is their mean. *)
Example clone_estimate_ex :
  clone_candidates algo_ex 1 4 = Ok [5; 6; 7; 1; 2; 3]
  ∧ (a' ← AlgoClone_estimate algo_ex 1 4; Ok (est a')) = Ok (zq 4).
Proof.
  split; [vm_compute; reflexivity|].
  apply (bool_decide_unpack _). vm_compute. exact I.
Qed.


(** The MeanDiff estimator gives 0 on the same query: the only candidate is
    [3 + (1 - 4)]. *)
Example meandiff_zero_estimate :
  (a' ← AlgoMeanDiff_estimate sqrt_floor algo_zero 1 2; Ok (est a'))
    = Ok 0%Qc.
Proof. apply (bool_decide_unpack _). vm_compute. exact I. Qed.

(** * Further properties of the code *)

(** ** [cut_estimate] and [updatePreds] *)

(** X1. [cut_estimate(inf, sup)] with [inf <= sup] leaves the estimate in
    [inf, sup]: it is unchanged when it already lies there, [inf] when it was
    below and [sup] when it was above; the recorded predictions are not
    touched. *)
Theorem cut_estimate_clamps (a : Algo) (inf sup : Qc) :
  (inf ≤ sup)%Qc →
  (inf ≤ est (cut_estimate a inf sup))%Qc
  ∧ (est (cut_estimate a inf sup) ≤ sup)%Qc
  ∧ ((inf ≤ est a)%Qc → (est a ≤ sup)%Qc →
       est (cut_estimate a inf sup) = est a)
  ∧ ((est a < inf)%Qc → est (cut_estimate a inf sup) = inf)
  ∧ ((sup < est a)%Qc → est (cut_estimate a inf sup) = sup)
  ∧ preds (cut_estimate a inf sup) = preds a.
Proof.
  intros Hle. unfold cut_estimate. cbn [est set_est preds].
  repeat split; intros; repeat case_bool_decide; try done;
    unfold Qcle, Qclt in *;
    first [lra | exfalso; lra | apply Qc_is_canon; lra].
Qed.

Lemma cut_estimate_clamps_witness :
  (zq 1 ≤ est (cut_estimate (set_est algo_ex (zq 7)) (zq 1) (zq 5)))%Qc
  ∧ (est (cut_estimate (set_est algo_ex (zq 7)) (zq 1) (zq 5)) ≤ zq 5)%Qc
  ∧ ((zq 1 ≤ est (set_est algo_ex (zq 7)))%Qc →
     (est (set_est algo_ex (zq 7)) ≤ zq 5)%Qc →
       est (cut_estimate (set_est algo_ex (zq 7)) (zq 1) (zq 5))
       = est (set_est algo_ex (zq 7)))
  ∧ ((est (set_est algo_ex (zq 7)) < zq 1)%Qc →
     est (cut_estimate (set_est algo_ex (zq 7)) (zq 1) (zq 5)) = zq 1)
  ∧ ((zq 5 < est (set_est algo_ex (zq 7)))%Qc →
     est (cut_estimate (set_est algo_ex (zq 7)) (zq 1) (zq 5)) = zq 5)
  ∧ preds (cut_estimate (set_est algo_ex (zq 7)) (zq 1) (zq 5))
    = preds (set_est algo_ex (zq 7)).
Proof.
  apply (cut_estimate_clamps (set_est algo_ex (zq 7)) (zq 1) (zq 5)).
  apply (bool_decide_unpack _). vm_compute. exact I.
Defined.

(** X2. [updatePreds] appends exactly one record, flagged impossible exactly
    when the estimate was 0; the estimate it leaves and records is never 0
    (the default 3 replaces 0), so a second call without a new estimate
    records a possible prediction. *)
Theorem updatePreds_records (a : Algo) (u0 m0 r0 u1 m1 r1 : Z) :
  preds (updatePreds a u0 m0 r0)
    = preds a ++ [PredInfo (bool_decide (est a = 0%Qc)) u0 m0 r0
                    (est (updatePreds a u0 m0 r0))]
  ∧ est (updatePreds a u0 m0 r0) ≠ 0%Qc
  ∧ (est a ≠ 0%Qc → est (updatePreds a u0 m0 r0) = est a)
  ∧ (est a = 0%Qc → est (updatePreds a u0 m0 r0) = zq 3)
  ∧ wasImpossible
      <$> last (preds (updatePreds (updatePreds a u0 m0 r0) u1 m1 r1))
    = Some false.
Proof.
  assert (H3 : zq 3 ≠ 0%Qc) by (by rewrite zq_eq0).
  assert (Hne : est (updatePreds a u0 m0 r0) ≠ 0%Qc).
  { unfold updatePreds. cbn [est]. by case_bool_decide. }
  split; [done|]. split; [done|]. split; [|split].
  - intros H. unfold updatePreds. cbn [est].
    by rewrite bool_decide_eq_false_2.
  - intros H. unfold updatePreds. cbn [est].
    by rewrite bool_decide_eq_true_2.
  - unfold updatePreds at 1. cbn [preds]. rewrite last_snoc. cbn.
    by rewrite bool_decide_eq_false_2.
Qed.

(** ** Orientation *)

Lemma py_index_error (n i : Z) (e : pyerr) :
  py_index n i = Raise e → e = IndexError.
Proof. unfold py_index. repeat case_bool_decide; congruence. Qed.

Lemma get2_transpose {A} (M : ndarray A) (i j : Z) :
  get2 (transpose M) i j = get2 M j i.
Proof.
  unfold get2, transpose. cbn [nrows ncols cell].
  destruct (py_index (ncols M) i) as [i'|e] eqn:Hi;
    destruct (py_index (nrows M) j) as [j'|e'] eqn:Hj;
    repeat match goal with
           | H : py_index _ _ = Raise _ |- _ =>
               apply py_index_error in H; subst
           end; reflexivity.
Qed.

(** X3. Orientation is a relabelling: whatever the flag [movieBased], the
    entry [rm[x0, y0]] of the estimator at the reinterpreted pair
    [getx0y0(u0, m0)] is the entry [rm[m0, u0]] of the matrix the constructor
    received (also when it raises), and [xr], [yr], [lastXi], [lastYi] are
    swapped accordingly. *)
Theorem orientation_relabels (lastUi lastMi : Z) (rm0 : ndarray Z)
    (ur mr : ratings) (movieBased : bool) (u0 m0 : Z) :
  let a := Algo_init lastUi lastMi rm0 ur mr movieBased in
  get2 (rm a) (getx0y0 a u0 m0).1 (getx0y0 a u0 m0).2 = get2 rm0 m0 u0
  ∧ dict_get (xr a) (getx0y0 a u0 m0).1
    = (if movieBased then dict_get mr m0 else dict_get ur u0)
  ∧ dict_get (yr a) (getx0y0 a u0 m0).2
    = (if movieBased then dict_get ur u0 else dict_get mr m0)
  ∧ lastXi a = (if movieBased then lastMi else lastUi)
  ∧ lastYi a = (if movieBased then lastUi else lastMi)
  ∧ est a = 0%Qc ∧ preds a = [].
Proof.
  destruct movieBased; cbn; repeat split. apply get2_transpose.
Qed.

(** ** Unknown similarity names *)

(** X4. A similarity name outside [knownSim] makes the constructors of the
    two KNN estimators raise [NameError] before any matrix is allocated; the
    default name ['Cos'] of [AlgoBasicCollaborative] is such a name (the
    known one is ['cos']). *)
Theorem unknown_sim_raises (np_sqrt : Qc → Qc) (mem : Z → Z → Qc)
    (lastUi lastMi : Z) (rm0 : ndarray Z) (ur mr : ratings)
    (movieBased : bool) (sim : string) :
  sim ∉ knownSim →
  AlgoBasicCollaborative_init np_sqrt mem lastUi lastMi rm0 ur mr movieBased
    sim = Raise NameError
  ∧ AlgoCollabMeanDiff_init np_sqrt mem lastUi lastMi rm0 ur mr movieBased
      sim = Raise NameError.
Proof.
  intros H.
  unfold AlgoBasicCollaborative_init, AlgoCollabMeanDiff_init,
    AlgoUsingSim_init, constructSimMat.
  by rewrite bool_decide_eq_false_2.
Qed.

Lemma unknown_sim_raises_witness :
  AlgoBasicCollaborative_init sqrt_floor mem_a 3 4 rm_ex ur_ex mr_ex false
    AlgoBasicCollaborative_sim = Raise NameError
  ∧ AlgoCollabMeanDiff_init sqrt_floor mem_a 3 4 rm_ex ur_ex mr_ex false
      AlgoBasicCollaborative_sim = Raise NameError.
Proof.
  apply (unknown_sim_raises sqrt_floor mem_a 3 4 rm_ex ur_ex mr_ex false
           AlgoBasicCollaborative_sim).
  apply (bool_decide_unpack _). vm_compute. exact I.
Defined.

(** ** The constructor of the Random estimator *)

Lemma foldM_error {S A} (P : pyerr → Prop) (f : S → A → result S)
    (l : list A) (s : S) (e : pyerr) :
  (∀ t a e', f t a = Raise e' → P e') → foldM f s l = Raise e → P e.
Proof.
  intros Hf. revert s. induction l as [|a l IH]; intros s; [done|].
  cbn [foldM]. destruct (f s a) as [t|e'] eqn:Hfa.
  - rewrite bind_Ok. apply IH.
  - intros [= <-]. eauto.
Qed.

Lemma get1_error {A} (l : list A) (i : Z) (e : pyerr) :
  get1 l i = Raise e → e = IndexError.
Proof.
  unfold get1. destruct (py_index (len l) i) as [i'|e'] eqn:Hi.
  - rewrite bind_Ok. destruct (l !! Z.to_nat i'); congruence.
  - intros [= <-]. by apply py_index_error in Hi.
Qed.

Lemma set1_error {A} (l : list A) (i : Z) (v : A) (e : pyerr) :
  set1 l i v = Raise e → e = IndexError.
Proof.
  unfold set1. destruct (py_index (len l) i) as [i'|e'] eqn:Hi; [done|].
  intros [= <-]. by apply py_index_error in Hi.
Qed.












(** ** The baseline constructors *)

Lemma len_map {A B} (f : A → B) (l : list A) : len (map f l) = len l.
Proof. unfold len. by rewrite length_map. Qed.

Lemma np_mean_nonempty (l : list Qc) :
  l ≠ [] → np_mean l = Ok (sumQ l / zq (len l))%Qc.
Proof. by destruct l. Qed.

(** X6. With a method other than ['sgd'] and ['als'] (the default ['opt'] of
    [AlgoBaselineOnly] is one) no bias is fitted: on a non-empty relation the
    constructor returns zero biases, and the BaselineOnly estimate of every
    valid query is the global mean of the present ratings. *)
Theorem baseline_default_is_mean (lastUi lastMi : Z) (rm0 : ndarray Z)
    (ur mr : ratings) (movieBased : bool) (method : string) (u0 m0 : Z) :
  let a := Algo_init lastUi lastMi rm0 ur mr movieBased in
  method ≠ "sgd"%string → method ≠ "als"%string →
  present_ratings (rm a) ≠ [] →
  1 ≤ (getx0y0 a u0 m0).1 ≤ lastXi a →
  1 ≤ (getx0y0 a u0 m0).2 ≤ lastYi a →
  ∃ s s',
    AlgoBaselineOnly_init lastUi lastMi rm0 ur mr movieBased method = Ok s
    ∧ mu s = (sumQ (map zq (present_ratings (rm a)))
              / zq (len (present_ratings (rm a))))%Qc
    ∧ Forall (fun b => b = 0%Qc) (xBiases s)
    ∧ Forall (fun b => b = 0%Qc) (yBiases s)
    ∧ AlgoBaselineOnly_estimate s u0 m0 = Ok s'
    ∧ est (bl_base s') = mu s.
Proof.
  intros a Hsgd Hals Hne Hx Hy.
  set (m := (sumQ (map zq (present_ratings (rm a)))
             / zq (len (present_ratings (rm a))))%Qc).
  set (s := MkAlgoWithBaseline a m
              (replicate (Z.to_nat (lastXi a + 1)) 0%Qc)
              (replicate (Z.to_nat (lastYi a + 1)) 0%Qc)).
  assert (Hinit : AlgoBaselineOnly_init lastUi lastMi rm0 ur mr movieBased
                    method = Ok s).
  { unfold AlgoBaselineOnly_init, AlgoWithBaseline_init. fold a.
    rewrite np_mean_nonempty by (by destruct (present_ratings (rm a))).
    rewrite bind_Ok. unfold np_zeros.
    rewrite (bool_decide_eq_true_2 (0 ≤ lastXi a + 1)), bind_Ok by lia.
    rewrite (bool_decide_eq_true_2 (0 ≤ lastYi a + 1)), bind_Ok by lia.
    rewrite (bool_decide_eq_false_2 (method = "sgd"%string)) by done.
    rewrite (bool_decide_eq_false_2 (method = "als"%string)) by done.
    unfold s, m. by rewrite len_map. }
  exists s. eexists. split; [exact Hinit|]. split; [done|].
  split; [by apply Forall_replicate|]. split; [by apply Forall_replicate|].
  unfold AlgoBaselineOnly_estimate, getBaseline, s.
  cbn [bl_base xBiases yBiases mu].
  destruct (getx0y0 a u0 m0) as [x0 y0]. cbn [fst snd] in Hx, Hy.
  rewrite (get1_replicate _ x0), (get1_replicate _ y0) by lia.
  split; [reflexivity|]. cbn [est bl_base set_est mu]. ring.
Qed.

Lemma baseline_default_is_mean_witness :
  let a := Algo_init 3 4 rm_ex ur_ex mr_ex false in
  ∃ s s',
    AlgoBaselineOnly_init 3 4 rm_ex ur_ex mr_ex false AlgoBaselineOnly_method
      = Ok s
    ∧ mu s = (sumQ (map zq (present_ratings (rm a)))
              / zq (len (present_ratings (rm a))))%Qc
    ∧ Forall (fun b => b = 0%Qc) (xBiases s)
    ∧ Forall (fun b => b = 0%Qc) (yBiases s)
    ∧ AlgoBaselineOnly_estimate s 1 4 = Ok s'
    ∧ est (bl_base s') = mu s.
Proof.
  apply (baseline_default_is_mean 3 4 rm_ex ur_ex mr_ex false
           AlgoBaselineOnly_method 1 4).
  - discriminate.
  - discriminate.
  - vm_compute. discriminate.
  - vm_compute. split; discriminate.
  - vm_compute. split; discriminate.
Defined.

(** ** One ALS sweep *)

Lemma get1_default (l : list Qc) (x : Z) :
  0 ≤ x < len l → get1 l x = Ok (default 0%Qc (l !! Z.to_nat x)).
Proof.
  intros Hx. destruct (lookup_lt_is_Some_2 l (Z.to_nat x)) as [v Hv].
  { unfold len in Hx. lia. }
  rewrite Hv. apply get1_in; [lia|done].
Qed.

Lemma set1_in {A} (l : list A) (y : Z) (v : A) :
  0 ≤ y < len l → set1 l y v = Ok (<[Z.to_nat y := v]> l).
Proof. intros Hy. unfold set1. by rewrite py_index_in. Qed.

Lemma als_body_eval (mu : Qc) (reg last_o : Z) (rs : ratings)
    (other biases : list Qc) (y : Z) :
  0 < reg → len other = last_o + 1 → ids_valid last_o rs →
  0 ≤ y < len biases →
  (devs ← forM (fun '(x, r) => b ← get1 other x; Ok (zq r - mu - b)%Qc)
             (dict_get rs y);
   v ← fdiv (sumQ devs) (zq (reg + len (dict_get rs y)));
   set1 biases y v)
  = Ok (<[Z.to_nat y := als_bias mu reg rs other y]> biases).
Proof.
  intros Hreg Hlen Hids Hy.
  pose proof (dict_get_Forall _ _ y Hids) as Hv. rewrite Forall_forall in Hv.
  rewrite (forM_ok _ (fun p => zq p.2 - mu
                               - default 0%Qc (other !! Z.to_nat p.1))%Qc);
    cycle 1.
  { intros [x r] Hxr. specialize (Hv _ Hxr). cbn [fst] in Hv.
    by rewrite get1_default by lia. }
  rewrite bind_Ok, fdiv_ok, bind_Ok; cycle 1.
  { rewrite zq_eq0. unfold len. lia. }
  by apply set1_in.
Qed.

Lemma als_loop (mu : Qc) (reg last last_o : Z) (rs : ratings)
    (other : list Qc) (k : nat) :
  0 < reg → len other = last_o + 1 → ids_valid last_o rs →
  ∀ lo b0, 1 ≤ lo → Z.to_nat (last + 1 - lo) = k → len b0 = last + 1 →
    ∃ b, foldM (fun biases y =>
             devs ← forM (fun '(x, r) => b ← get1 other x;
                                         Ok (zq r - mu - b)%Qc)
                       (dict_get rs y);
             v ← fdiv (sumQ devs) (zq (reg + len (dict_get rs y)));
             set1 biases y v) b0 (range lo (last + 1)) = Ok b
       ∧ len b = last + 1
       ∧ ∀ i : nat, b !! i =
           if bool_decide (lo ≤ Z.of_nat i ≤ last)
           then Some (als_bias mu reg rs other (Z.of_nat i)) else b0 !! i.
Proof.
  intros Hreg Hlen Hids. induction k as [|k IH]; intros lo b0 Hlo Hk Hb0.
  - rewrite range_nil by lia. exists b0. split; [done|]. split; [done|].
    intros i. case_bool_decide; [lia|done].
  - rewrite range_cons by lia. cbn [foldM].
    rewrite (als_body_eval mu reg last_o) by (done || lia). rewrite bind_Ok.
    destruct (IH (lo + 1) (<[Z.to_nat lo := als_bias mu reg rs other lo]> b0))
      as (b & Hb & Hlb & Hcell); [lia|lia| |].
    { unfold len. rewrite length_insert. exact Hb0. }
    exists b. split; [exact Hb|]. split; [exact Hlb|].
    intros i. rewrite Hcell.
    destruct (decide (i = Z.to_nat lo)) as [->|Hne].
    + rewrite list_lookup_insert_eq by (unfold len in Hb0; lia).
      rewrite (bool_decide_eq_false_2 (lo + 1 ≤ _ ≤ _)) by lia.
      rewrite bool_decide_eq_true_2 by lia. do 2 f_equal. lia.
    + rewrite list_lookup_insert_ne by done.
      repeat case_bool_decide; try done; lia.
Qed.

(** X7. One ALS sweep over well-formed ratings does not raise and returns a
    vector of [last + 1] biases: entry 0 is 0, and the entry of every entity
    [y] in 1..last is the sum of [r - mu - other[x]] over its ratings divided
    by [reg + degree], which is 0 for an entity without ratings (no division
    by zero). *)
Theorem als_sweep_spec (mu : Qc) (reg last last_o : Z) (rs : ratings)
    (other : list Qc) :
  0 < reg → 0 ≤ last → len other = last_o + 1 → ids_valid last_o rs →
  ∃ b, als_sweep mu reg last rs other = Ok b
     ∧ len b = last + 1
     ∧ b !! 0%nat = Some 0%Qc
     ∧ ∀ y, 1 ≤ y ≤ last →
         b !! Z.to_nat y = Some (als_bias mu reg rs other y)
         ∧ (dict_get rs y = [] → b !! Z.to_nat y = Some 0%Qc).
Proof.
  intros Hreg Hlast Hlen Hids. unfold als_sweep, np_zeros.
  rewrite bool_decide_eq_true_2, bind_Ok by lia.
  destruct (als_loop mu reg last last_o rs other _ Hreg Hlen Hids 1
              (replicate (Z.to_nat (last + 1)) 0%Qc) ltac:(lia) eq_refl)
    as (b & Hb & Hlb & Hcell).
  { unfold len. rewrite length_replicate. lia. }
  exists b. split; [exact Hb|]. split; [exact Hlb|]. split.
  - rewrite Hcell, bool_decide_eq_false_2 by lia.
    apply lookup_replicate_2. lia.
  - intros y Hy.
    assert (Hy' : b !! Z.to_nat y = Some (als_bias mu reg rs other y)).
    { rewrite Hcell, bool_decide_eq_true_2 by lia. do 2 f_equal. lia. }
    split; [exact Hy'|]. intros Hempty. rewrite Hy'. f_equal.
    unfold als_bias. rewrite Hempty. cbn. unfold Qcdiv. ring.
Qed.

Lemma ids_valid_mr_ex : ids_valid 3 mr_ex.
Proof. apply (bool_decide_unpack _). vm_compute. exact I. Defined.

Lemma als_sweep_spec_witness :
  ∃ b, als_sweep (zq 3) 10 4 mr_ex [0; 0; 0; 0]%Qc = Ok b
     ∧ len b = 4 + 1
     ∧ b !! 0%nat = Some 0%Qc
     ∧ ∀ y, 1 ≤ y ≤ 4 →
         b !! Z.to_nat y = Some (als_bias (zq 3) 10 mr_ex [0; 0; 0; 0]%Qc y)
         ∧ (dict_get mr_ex y = [] → b !! Z.to_nat y = Some 0%Qc).
Proof.
  apply (als_sweep_spec (zq 3) 10 4 3 mr_ex [0; 0; 0; 0]%Qc).
  - lia.
  - lia.
  - reflexivity.
  - exact ids_valid_mr_ex.
Defined.

(** ** What the baseline constructors can raise *)

Lemma bind_error {A B} (m : result A) (f : A → result B) (e : pyerr) :
  (m ≫= f) = Raise e → m = Raise e ∨ ∃ x, m = Ok x ∧ f x = Raise e.
Proof.
  destruct m as [x|e']; [right; eauto|]. intros [= <-]. by left.
Qed.





Lemma sgd_step_error (s : AlgoWithBaseline) (t : Z * Z * Z) (e : pyerr) :
  sgd_step s t = Raise e → e = IndexError.
Proof.
  destruct t as [[x y] r]. unfold sgd_step.
  intros [H|(xb & _ & H)]%bind_error; [by apply get1_error in H|].
  apply bind_error in H as [H|(yb & _ & H)]; [by apply get1_error in H|].
  apply bind_error in H as [H|(xb1 & _ & H)]; [by apply get1_error in H|].
  apply bind_error in H as [H|(xB & _ & H)]; [by apply set1_error in H|].
  apply bind_error in H as [H|(yb1 & _ & H)]; [by apply get1_error in H|].
  apply bind_error in H as [H|(yB & _ & H)]; [by apply set1_error in H|].
  discriminate.
Qed.

Lemma optimize_sgd_error (s : AlgoWithBaseline) (e : pyerr) :
  optimize_sgd s = Raise e → e = IndexError.
Proof.
  unfold optimize_sgd. apply (foldM_error (fun e => e = IndexError)).
  intros t _ e'. apply (foldM_error (fun e => e = IndexError)).
  intros u r e''. apply sgd_step_error.
Qed.




(** ** SGD and the entities without ratings *)

Lemma foldM_invariant_in {S A} (I : S → Prop) (f : S → A → result S)
    (l : list A) (s0 s : S) :
  (∀ t a t', a ∈ l → I t → f t a = Ok t' → I t') →
  I s0 → foldM f s0 l = Ok s → I s.
Proof.
  revert s0. induction l as [|a l IH]; intros s0 Hstep H0.
  - by intros [= <-].
  - cbn [foldM]. intros (s1 & H1 & H)%bind_inv.
    apply (IH s1); [|by eapply Hstep; [left|..]|done].
    intros t b t' Hb. apply Hstep. by right.
Qed.

Lemma py_index_nonneg (n i i' : Z) : 0 ≤ i → py_index n i = Ok i' → i' = i.
Proof. unfold py_index. intros Hi. repeat case_bool_decide; try lia; congruence. Qed.

Lemma set1_other {A} (l l' : list A) (x : Z) (v : A) (i : nat) :
  set1 l x v = Ok l' → 0 ≤ x → i ≠ Z.to_nat x → l' !! i = l !! i.
Proof.
  unfold set1. intros (x' & Hx' & [= <-])%bind_inv Hx Hi.
  apply py_index_nonneg in Hx' as ->; [|done].
  by rewrite list_lookup_insert_ne.
Qed.

Lemma sgd_step_other (s s' : AlgoWithBaseline) (x y r : Z) :
  sgd_step s (x, y, r) = Ok s' →
  bl_base s' = bl_base s
  ∧ (∀ i, 0 ≤ x → i ≠ Z.to_nat x → xBiases s' !! i = xBiases s !! i)
  ∧ (∀ j, 0 ≤ y → j ≠ Z.to_nat y → yBiases s' !! j = yBiases s !! j).
Proof.
  unfold sgd_step. intros (xb & _ & H)%bind_inv.
  apply bind_inv in H as (yb & _ & H). apply bind_inv in H as (xb1 & _ & H).
  apply bind_inv in H as (xB & HxB & H). apply bind_inv in H as (yb1 & _ & H).
  apply bind_inv in H as (yB & HyB & [= <-]). cbn.
  split; [done|]. split; intros; eauto using set1_other.
Qed.

Lemma optimize_sgd_invariant (I : AlgoWithBaseline → Prop)
    (s s' : AlgoWithBaseline) :
  (∀ t t' u, u ∈ iterAllRatings (bl_base s) → bl_base t = bl_base s →
     I t → sgd_step t u = Ok t' → I t') →
  I s → optimize_sgd s = Ok s' → I s'.
Proof.
  intros Hstep Hs. unfold optimize_sgd. intros H.
  assert (HI : bl_base s' = bl_base s ∧ I s'); [|by destruct HI].
  revert H. apply (foldM_invariant (fun t => bl_base t = bl_base s ∧ I t));
    [|done].
  intros t _ t' [Hb Ht].
  apply (foldM_invariant_in (fun t => bl_base t = bl_base s ∧ I t)); [|done].
  intros v u v' Hu [Hbv Hv] Hsv. rewrite Hb in Hu.
  split; [|by eapply Hstep].
  destruct u as [[x y] r]. apply sgd_step_other in Hsv as [-> _]. done.
Qed.

(** X9. [optimize_sgd] leaves untouched the bias of every entity that gave or
    received no rating, so that it keeps its initial value: the twenty passes
    only write the entries of the ids met in [iterAllRatings]; the only
    exception it can raise is [IndexError]. *)
Theorem sgd_leaves_unrated (s : AlgoWithBaseline) :
  match optimize_sgd s with
  | Ok s' =>
      bl_base s' = bl_base s ∧ mu s' = mu s
      ∧ (∀ x0, 0 ≤ x0 →
           Forall (fun t => 0 ≤ t.1.1 ∧ t.1.1 ≠ x0)
                  (iterAllRatings (bl_base s)) →
           xBiases s' !! Z.to_nat x0 = xBiases s !! Z.to_nat x0)
      ∧ (∀ y0, 0 ≤ y0 →
           Forall (fun t => 0 ≤ t.1.2 ∧ t.1.2 ≠ y0)
                  (iterAllRatings (bl_base s)) →
           yBiases s' !! Z.to_nat y0 = yBiases s !! Z.to_nat y0)
  | Raise e => e = IndexError
  end.
Proof.
  destruct (optimize_sgd s) as [s'|e] eqn:Hs;
    [|by apply optimize_sgd_error in Hs].
  split; [|split; [|split]].
  - revert Hs. apply (optimize_sgd_invariant (fun t => bl_base t = bl_base s));
      [|done].
    intros t t' [[x y] r] _ _ Ht [-> _]%sgd_step_other. done.
  - revert Hs. apply (optimize_sgd_invariant (fun t => mu t = mu s)); [|done].
    intros t t' [[x y] r] _ _ Ht. unfold sgd_step.
    intros (? & _ & H)%bind_inv. apply bind_inv in H as (? & _ & H).
    apply bind_inv in H as (? & _ & H). apply bind_inv in H as (? & _ & H).
    apply bind_inv in H as (? & _ & H).
    by apply bind_inv in H as (? & _ & [= <-]).
  - intros x0 Hx0 Hall. rewrite Forall_forall in Hall. revert Hs.
    apply (optimize_sgd_invariant
             (fun t => xBiases t !! Z.to_nat x0 = xBiases s !! Z.to_nat x0));
      [|done].
    intros t t' [[x y] r] Hu _ Ht (_ & Hx & _)%sgd_step_other.
    destruct (Hall _ Hu) as [H1 H2]. cbn in H1, H2.
    rewrite Hx; [done|done|lia].
  - intros y0 Hy0 Hall. rewrite Forall_forall in Hall. revert Hs.
    apply (optimize_sgd_invariant
             (fun t => yBiases t !! Z.to_nat y0 = yBiases s !! Z.to_nat y0));
      [|done].
    intros t t' [[x y] r] Hu _ Ht (_ & _ & Hy)%sgd_step_other.
    destruct (Hall _ Hu) as [H1 H2]. cbn in H1, H2.
    rewrite Hy; [done|done|lia].
Qed.

(** On [algo_zero], where nobody rated movie 3, the fit moves the bias of
    user 1 and leaves the bias of movie 3 at 0. *)
Example sgd_unrated_ex :
  (s ← AlgoWithBaseline_init 2 3 rm_zero ur_zero mr_zero false "sgd";
   Ok (bool_decide (xBiases s !! 1%nat = Some 0%Qc), yBiases s !! 3%nat,
       yBiases s !! 0%nat))
    = Ok (false, Some 0%Qc, Some 0%Qc).
Proof. apply (bool_decide_unpack _). vm_compute. exact I. Qed.

(** ** Entries of the cosine matrix *)

Lemma cos_accumulate_co_ratings yrs i j :
  i < j → ascending yrs →
  acc_get (prods (cos_accumulate yrs)) (i, j) = dot (co_ratings yrs i j)
  ∧ acc_get (freq (cos_accumulate yrs)) (i, j) = len (co_ratings yrs i j)
  ∧ acc_get (sqi (cos_accumulate yrs)) (i, j) = sq_left (co_ratings yrs i j)
  ∧ acc_get (sqj (cos_accumulate yrs)) (i, j)
    = sq_right (co_ratings yrs i j).
Proof.
  intros Hij Hs.
  destruct (cos_accumulate_get yrs (i, j)) as (-> & -> & -> & ->).
  rewrite !weight_sum_co_ratings by done. repeat split.
  rewrite <- sumZ_ones. f_equal. apply map_ext. by intros [? ?].
Qed.

(** X10. For distinct valid X-entities and lists in increasing id order, the
    cosine matrix holds at [(i, j)]: 0 when the two entities share no
    Y-entity, and otherwise the sum of the products of their co-ratings
    divided by the root of the product of the two sums of squares. *)
Theorem cos_similarity_entry (np_sqrt : Qc → Qc) (mem : Z → Z → Qc)
    (a : Algo) (i j : Z) :
  1 ≤ i ≤ lastXi a → 1 ≤ j ≤ lastXi a → i ≠ j →
  ratings_positive (yr a) → sqrt_nonzero np_sqrt → ascending (yr a) →
  let c := co_ratings (yr a) (Z.min i j) (Z.max i j) in
  ∃ M, constructSimMat np_sqrt mem a "cos" = Ok M
    ∧ get2 M i j
      = Ok (if bool_decide (c = []) then 0%Qc
            else (zq (dot c) / np_sqrt (zq (sq_left c * sq_right c)))%Qc).
Proof.
  intros Hi Hj Hij Hpos Hsqrt Hasc c.
  destruct (constructSimMat_cos np_sqrt mem a) as (M & HM & [Hr Hc] & Hcell);
    [lia|by apply cos_defined_positive|].
  exists M. split; [exact HM|].
  rewrite get2_in, Hcell by lia. rewrite bool_decide_eq_true_2 by lia.
  unfold cos_val. rewrite (bool_decide_eq_false_2 (Z.min i j = Z.max i j))
    by lia.
  destruct (cos_accumulate_co_ratings (yr a) (Z.min i j) (Z.max i j))
    as (-> & -> & -> & ->); [lia|done|]. fold c.
  f_equal. destruct c as [|p c']; [done|].
  rewrite (bool_decide_eq_false_2 (len _ = 0)); [done|].
  unfold len. cbn [length]. lia.
Qed.

Lemma cos_similarity_entry_witness :
  let c := co_ratings (yr algo_ex) (Z.min 2 1) (Z.max 2 1) in
  ∃ M, constructSimMat sqrt_floor mem_a algo_ex "cos" = Ok M
    ∧ get2 M 2 1
      = Ok (if bool_decide (c = []) then 0%Qc
            else (zq (dot c) / sqrt_floor (zq (sq_left c * sq_right c)))%Qc).
Proof.
  apply (cos_similarity_entry sqrt_floor mem_a algo_ex 2 1).
  - vm_compute. split; discriminate.
  - vm_compute. split; discriminate.
  - discriminate.
  - exact ratings_positive_ex.
  - exact sqrt_floor_nonzero.
  - exact ascending_ex.
Defined.

Lemma elem_of_ratings_by x r l : r ∈ ratings_by x l ↔ (x, r) ∈ l.
Proof.
  unfold ratings_by. rewrite list_elem_of_fmap. split.
  - intros ([x' r'] & -> & [Hx Hl]%list_elem_of_filter). cbn in Hx.
    by subst.
  - intros H. exists (x, r). split; [done|].
    by apply list_elem_of_filter.
Qed.

Lemma elem_of_co_ratings yrs i j r1 r2 :
  (r1, r2) ∈ co_ratings yrs i j →
  ∃ y l, (y, l) ∈ yrs ∧ (i, r1) ∈ l ∧ (j, r2) ∈ l.
Proof.
  unfold co_ratings. rewrite list_elem_of_In, in_concat.
  intros (c & Hc%list_elem_of_In & Hr).
  apply list_elem_of_fmap in Hc as ([y l] & -> & Hyl).
  apply in_prod_iff in Hr as [H1%list_elem_of_In H2%list_elem_of_In].
  exists y, l. by rewrite <- !elem_of_ratings_by.
Qed.

Lemma sqrt_floor_exact : sqrt_exact sqrt_floor.
Proof.
  intros z Hz. unfold sqrt_floor. cbn [zq Qc_of_Z this inject_Z Qnum Qden].
  rewrite Z.div_1_r.
  replace (z * z * 2 ^ 104) with ((z * 2 ^ 52) * (z * 2 ^ 52)) by lia.
  rewrite Z.sqrt_square by lia. unfold zq. rewrite Z2Qc_inj_mul.
  assert (Hne : Qc_of_Z (2 ^ 52) ≠ 0%Qc).
  { intros H. by apply (zq_eq0 (2 ^ 52)) in H. }
  field. exact Hne.
Qed.

(** X11. Cosine of perfect agreement: when two distinct valid X-entities
    share at least one Y-entity and gave the same rating to every Y-entity
    they share, their cosine similarity is exactly 1 (lists in increasing id
    order, a root that is exact on integer squares). *)
Theorem cos_perfect_agreement (np_sqrt : Qc → Qc) (mem : Z → Z → Qc)
    (a : Algo) (i j : Z) :
  1 ≤ i ≤ lastXi a → 1 ≤ j ≤ lastXi a → i ≠ j →
  ratings_positive (yr a) → sqrt_nonzero np_sqrt → sqrt_exact np_sqrt →
  ascending (yr a) →
  co_ratings (yr a) (Z.min i j) (Z.max i j) ≠ [] →
  agree (yr a) i j →
  ∃ M, constructSimMat np_sqrt mem a "cos" = Ok M ∧ get2 M i j = Ok 1%Qc.
Proof.
  intros Hi Hj Hij Hpos Hsqrt Hex Hasc Hne Hag.
  destruct (constructSimMat_cos np_sqrt mem a) as (M & HM & [Hr Hc] & Hcell);
    [lia|by apply cos_defined_positive|].
  exists M. split; [exact HM|].
  rewrite get2_in, Hcell by lia. rewrite bool_decide_eq_true_2 by lia.
  unfold cos_val. rewrite (bool_decide_eq_false_2 (Z.min i j = Z.max i j))
    by lia.
  destruct (cos_accumulate_co_ratings (yr a) (Z.min i j) (Z.max i j))
    as (-> & -> & -> & ->); [lia|done|].
  set (c := co_ratings (yr a) (Z.min i j) (Z.max i j)) in *.
  assert (Hagc : ∀ r1 r2, (r1, r2) ∈ c → r1 = r2 ∧ 0 < r1).
  { intros r1 r2 (y & l & Hyl & H1 & H2)%elem_of_co_ratings. split.
    - destruct (Z.min_spec i j) as [[? Hm]|[? Hm]];
        destruct (Z.max_spec i j) as [[? HM']|[? HM']];
        rewrite Hm, HM' in *; try lia.
      + eapply Hag; eauto.
      + symmetry. eapply Hag; eauto.
    - unfold ratings_positive in Hpos. rewrite Forall_forall in Hpos.
      specialize (Hpos _ Hyl). rewrite Forall_forall in Hpos.
      apply (Hpos _ H1). }
  assert (Hsums : dot c = sq_left c ∧ sq_right c = sq_left c
                  ∧ (c ≠ [] → 0 < sq_left c)).
  { clear -Hagc. unfold dot, sq_left, sq_right.
    induction c as [|[r1 r2] c IH]; [done|].
    destruct (Hagc r1 r2) as [<- Hr]; [left|].
    destruct IH as (IH1 & IH2 & IH3); [intros; apply Hagc; by right|].
    assert (0 ≤ sumZ (map (fun '(r1, _) => r1 ^ 2) c)).
    { destruct c; [done|]. apply Z.lt_le_incl, IH3. done. }
    cbn [map]. change (sumZ (?x :: ?l)) with (x + sumZ l).
    rewrite IH1, IH2. repeat split; nia. }
  destruct Hsums as (Hd & Hsr & Hp). specialize (Hp Hne).
  rewrite (bool_decide_eq_false_2 (len c = 0)); cycle 1.
  { destruct c; [done|]. unfold len. cbn [length]. lia. }
  rewrite Hd, Hsr, Hex by lia. f_equal. apply Qcmult_inv_r.
  rewrite zq_eq0. lia.
Qed.

Lemma agree_Forall yrs i j :
  Forall (fun kl =>
    Forall (fun p =>
      Forall (fun q => p.1 = i → q.1 = j → p.2 = q.2) kl.2) kl.2) yrs →
  agree yrs i j.
Proof.
  intros H y l ri rj Hyl Hi Hj. rewrite Forall_forall in H.
  specialize (H _ Hyl). cbn in H. rewrite Forall_forall in H.
  specialize (H _ Hi). rewrite Forall_forall in H.
  by apply (H _ Hj).
Defined.

Lemma cos_perfect_agreement_witness :
  ∃ M, constructSimMat sqrt_floor mem_a algo_ex "cos" = Ok M
       ∧ get2 M 3 1 = Ok 1%Qc.
Proof.
  apply (cos_perfect_agreement sqrt_floor mem_a algo_ex 3 1).
  - vm_compute. split; discriminate.
  - vm_compute. split; discriminate.
  - discriminate.
  - exact ratings_positive_ex.
  - exact sqrt_floor_nonzero.
  - exact sqrt_floor_exact.
  - exact ascending_ex.
  - vm_compute. discriminate.
  - apply agree_Forall. apply (bool_decide_unpack _). vm_compute. exact I.
Defined.

(** ** [simMSDClone] on clones *)

Lemma sumQ_constant (q : Qc) (ds : list Qc) :
  Forall (fun d => d = q) ds → sumQ ds = (zq (len ds) * q)%Qc.
Proof.
  unfold sumQ, len. induction 1 as [|d ds -> _ IH].
  - cbn [foldr length]. change (Z.of_nat 0) with 0. rewrite zq_0. ring.
  - cbn [foldr length]. rewrite IH, Nat2Z.inj_succ. unfold zq.
    rewrite <- Z.add_1_r, Z2Qc_inj_add, Z2Qc_inj_1. ring.
Qed.

Lemma clone_sim_constant (q : Qc) (ds : list Qc) :
  Forall (fun d => d = q) ds → clone_sim ds = zq (len ds).
Proof.
  intros Hall. destruct ds as [|d ds].
  { change (len (@nil Qc)) with 0. by rewrite zq_0. }
  rewrite clone_sim_nonempty by done. cbv zeta.
  assert (Hn : zq (len (d :: ds)) ≠ 0%Qc).
  { rewrite zq_eq0. unfold len. cbn [length]. lia. }
  assert (Hm : (sumQ (d :: ds) / zq (len (d :: ds)))%Qc = q).
  { rewrite (sumQ_constant q) by done. field. exact Hn. }
  rewrite Hm. rewrite sumQ_zeros; [by rewrite bool_decide_eq_true_2|].
  apply Forall_forall. intros e (d' & -> & Hd')%list_elem_of_fmap.
  rewrite Forall_forall in Hall. rewrite (Hall _ Hd'). cbn [Qcpower]. ring.
Qed.

(** X12. [simMSDClone] scores a clone like a perfect match: when the ratings
    of [xi] exceed those of [xj] by one constant [k] on every Y-entity they
    share, the similarity is the number of shared Y-entities (0 when they
    share none), on a relation whose index [xr] lists the present entries of
    [rm]. *)
Theorem simMSDClone_constant_offset (a : Algo) (xi xj k : Z) :
  rm_shape a → xr_consistent a →
  1 ≤ xi ≤ lastXi a → 1 ≤ xj ≤ lastXi a →
  Forall (fun y => cell (rm a) xi y - cell (rm a) xj y = k)
         (common_ys a xi xj) →
  simMSDClone a xi xj = Ok (zq (len (common_ys a xi xj)))
  ∧ (common_ys a xi xj = [] → simMSDClone a xi xj = Ok 0%Qc).
Proof.
  intros Hs Hc Hxi Hxj Hk.
  assert (H : simMSDClone a xi xj = Ok (zq (len (common_ys a xi xj)))).
  { rewrite simMSDClone_eval by done. f_equal.
    rewrite (clone_sim_constant (zq k)).
    - unfold common_diffs. by rewrite len_map.
    - unfold common_diffs. apply Forall_forall.
      intros d (y & -> & Hy)%list_elem_of_fmap.
      rewrite Forall_forall in Hk. by rewrite (Hk _ Hy). }
  split; [exact H|]. intros He. rewrite H, He. by rewrite <- zq_0.
Qed.

Lemma simMSDClone_constant_offset_witness :
  simMSDClone algo_ex 1 2 = Ok (zq (len (common_ys algo_ex 1 2)))
  ∧ (common_ys algo_ex 1 2 = [] → simMSDClone algo_ex 1 2 = Ok 0%Qc).
Proof.
  apply (simMSDClone_constant_offset algo_ex 1 2 2).
  - exact rm_shape_ex.
  - exact xr_consistent_ex.
  - vm_compute. split; discriminate.
  - vm_compute. split; discriminate.
  - apply (bool_decide_unpack _). vm_compute. exact I.
Defined.

(** ** [isClone] *)

Lemma abs_sum_bound (w : list Z) (k k' : Z) :
  len w * Z.abs (k - k')
    ≤ sumZ (map (fun wi => Z.abs (wi - k)) w)
      + sumZ (map (fun wi => Z.abs (wi - k')) w).
Proof.
  unfold len, sumZ. induction w as [|wi w IH]; [cbn; lia|].
  cbn [map foldr length]. rewrite Nat2Z.inj_succ. nia.
Qed.

(** X13. The offsets [isClone] accepts for two rating vectors with at least
    one common position lie within 2 of each other, so a neighbour
    contributes candidates for at most three consecutive offsets; on empty
    vectors every offset is accepted. *)
Theorem isClone_offsets_close (xa xb : list Z) (k k' : Z) :
  zip_with Z.sub xa xb ≠ [] →
  isClone xa xb k = true → isClone xa xb k' = true →
  Z.abs (k - k') ≤ 2 ∧ ∀ k'', isClone [] xb k'' = true.
Proof.
  intros Hne Hk Hk'. split; [|intros; reflexivity].
  unfold isClone in Hk, Hk'. apply bool_decide_eq_true_1 in Hk, Hk'.
  pose proof (abs_sum_bound (zip_with Z.sub xa xb) k k') as Hb.
  assert (0 < len (zip_with Z.sub xa xb)).
  { destruct (zip_with Z.sub xa xb); [done|]. unfold len. cbn [length]. lia. }
  nia.
Qed.

Lemma isClone_offsets_close_witness :
  Z.abs (1 - 3) ≤ 2 ∧ ∀ k'', isClone [] [1; 2; 3] k'' = true.
Proof.
  apply (isClone_offsets_close [3; 4; 5] [1; 2; 3] 1 3).
  - discriminate.
  - reflexivity.
  - reflexivity.
Defined.

(** ** The candidates of the Clone estimator *)

Lemma commonRatings_eval a x0 x :
  rm_shape a → ids_valid (lastYi a) (xr a) →
  1 ≤ x0 ≤ lastXi a → 1 ≤ x ≤ lastXi a →
  commonRatings a x0 x = Ok (common_of a x0 x).
Proof.
  intros [Hr Hc] Hids Hx0 Hx. unfold commonRatings, common_of.
  pose proof (dict_get_Forall _ _ x0 Hids) as Hys.
  rewrite Forall_forall in Hys.
  apply (comprehension_ok _ _ (fun p => 0 < cell (rm a) x p.1)
           (fun p => (cell (rm a) x0 p.1, cell (rm a) x p.1))).
  - intros [y r] Hy. specialize (Hys _ Hy). cbn in Hys.
    by rewrite get2_in by lia.
  - intros [y r] Hy _. specialize (Hys _ Hy). cbn in Hys.
    by rewrite !get2_in by lia.
Qed.

Lemma clone_fold_eval a x0 (l : list (Z * Z)) :
  (∀ n, n ∈ l → commonRatings a x0 n.1 = Ok (common_of a x0 n.1)) →
  ∀ s0, foldM (clone_neighbour a x0) s0 l
        = Ok (s0 ++ concat (map (fun n => clone_new n (common_of a x0 n.1))
                                l)).
Proof.
  induction l as [|[x rx] l IH]; intros Hall s0.
  - cbn. by rewrite app_nil_r.
  - cbn [foldM map concat].
    rewrite (clone_neighbour_eval _ _ _ _ _ (common_of a x0 x)), bind_Ok
      by (apply (Hall (x, rx)); left).
    rewrite IH by (intros; apply Hall; by right). by rewrite app_assoc.
Qed.

Lemma clone_candidates_eval a x0 y0 :
  well_formed a → 1 ≤ x0 ≤ lastXi a →
  clone_candidates a x0 y0
    = Ok (concat (map (fun n => clone_new n (common_of a x0 n.1))
                      (dict_get (yr a) y0))).
Proof.
  intros (Hs & Hxr & Hyr) Hx0. unfold clone_candidates.
  rewrite clone_fold_eval; [done|]. intros [x rx] Hn.
  apply commonRatings_eval; try done.
  pose proof (dict_get_Forall _ _ y0 Hyr) as Hv.
  rewrite Forall_forall in Hv. apply (Hv _ Hn).
Qed.

Lemma elem_of_clone_new n c v :
  v ∈ clone_new n c ↔
  c ≠ [] ∧ ∃ k, -4 ≤ k ≤ 4 ∧ isClone (map fst c) (map snd c) k = true
                ∧ v = n.2 + k.
Proof.
  unfold clone_new. destruct c as [|p c].
  - split; [by intros ?%elem_of_nil|by intros [? _]].
  - rewrite list_elem_of_fmap. split.
    + intros (k & -> & [Hk Hr%elem_of_range]%list_elem_of_filter).
      split; [done|]. exists k. split; [lia|].
      split; [by apply Is_true_true_1|done].
    + intros (_ & k & Hk & Hc & ->). exists k. split; [done|].
      apply list_elem_of_filter. split; [by rewrite Hc|].
      apply elem_of_range. lia.
Qed.

(** X14. On a well-formed relation the Clone estimator does not raise, and
    its candidates are exactly the values [rx + k] for a neighbour [(x, rx)]
    of [yr[y0]] with a non-empty overlap with [x0] and an offset [k] of
    -4..4 accepted by [isClone]; the estimate is their unweighted mean, or
    the sentinel 0 when there is none. *)
Theorem clone_candidates_spec (a : Algo) (u0 m0 : Z) :
  well_formed a → 1 ≤ (getx0y0 a u0 m0).1 ≤ lastXi a →
  let x0 := (getx0y0 a u0 m0).1 in
  let y0 := (getx0y0 a u0 m0).2 in
  ∃ cands,
    clone_candidates a x0 y0 = Ok cands
    ∧ (∀ v, v ∈ cands ↔
         ∃ x rx k, (x, rx) ∈ dict_get (yr a) y0
           ∧ common_of a x0 x ≠ []
           ∧ -4 ≤ k ≤ 4
           ∧ isClone (map fst (common_of a x0 x))
                     (map snd (common_of a x0 x)) k = true
           ∧ v = rx + k)
    ∧ AlgoClone_estimate a u0 m0
      = Ok (set_est a (if bool_decide (cands = []) then 0%Qc
                       else (sumQ (map zq cands) / zq (len cands))%Qc)).
Proof.
  intros Hwf Hx0 x0 y0. eexists. split; [by apply clone_candidates_eval|].
  split.
  - intros v. rewrite list_elem_of_In, in_concat. split.
    + intros (c & Hc%list_elem_of_In & Hv%list_elem_of_In).
      apply list_elem_of_fmap in Hc as ([x rx] & -> & Hn).
      apply elem_of_clone_new in Hv as (Hne & k & Hk & Hcl & ->).
      by exists x, rx, k.
    + intros (x & rx & k & Hn & Hne & Hk & Hcl & ->).
      exists (clone_new (x, rx) (common_of a x0 x)). split.
      * apply list_elem_of_In, list_elem_of_fmap. by exists (x, rx).
      * apply list_elem_of_In, elem_of_clone_new. split; [done|].
        by exists k.
  - unfold AlgoClone_estimate. destruct (getx0y0 a u0 m0) as [x0' y0'] eqn:Hq.
    cbn [fst snd] in *. subst x0 y0.
    rewrite clone_candidates_eval, bind_Ok by done.
    destruct (concat _) as [|c cands] eqn:Hc; [done|].
    rewrite np_mean_nonempty by done. by rewrite bind_Ok, len_map.
Qed.

Lemma well_formed_ex : well_formed algo_ex.
Proof. apply (bool_decide_unpack _). vm_compute. exact I. Defined.

Lemma clone_candidates_spec_witness :
  let x0 := (getx0y0 algo_ex 1 4).1 in
  let y0 := (getx0y0 algo_ex 1 4).2 in
  ∃ cands,
    clone_candidates algo_ex x0 y0 = Ok cands
    ∧ (∀ v, v ∈ cands ↔
         ∃ x rx k, (x, rx) ∈ dict_get (yr algo_ex) y0
           ∧ common_of algo_ex x0 x ≠ []
           ∧ -4 ≤ k ≤ 4
           ∧ isClone (map fst (common_of algo_ex x0 x))
                     (map snd (common_of algo_ex x0 x)) k = true
           ∧ v = rx + k)
    ∧ AlgoClone_estimate algo_ex 1 4
      = Ok (set_est algo_ex (if bool_decide (cands = []) then 0%Qc
                             else (sumQ (map zq cands) / zq (len cands))%Qc)).
Proof.
  apply (clone_candidates_spec algo_ex 1 4).
  - exact well_formed_ex.
  - vm_compute. split; discriminate.
Defined.

(** X15. Without evidence the Clone estimate is the sentinel 0 and nothing
    is raised: this is the case when nobody rated [y0], and when no rater of
    [y0] shares a Y-entity with [x0]. *)
Theorem clone_no_overlap_impossible (a : Algo) (u0 m0 : Z) :
  well_formed a → 1 ≤ (getx0y0 a u0 m0).1 ≤ lastXi a →
  Forall (fun n => common_of a (getx0y0 a u0 m0).1 n.1 = [])
         (dict_get (yr a) (getx0y0 a u0 m0).2) →
  clone_candidates a (getx0y0 a u0 m0).1 (getx0y0 a u0 m0).2 = Ok []
  ∧ AlgoClone_estimate a u0 m0 = Ok (set_est a 0%Qc).
Proof.
  intros Hwf Hx0 Hall.
  assert (Hc : clone_candidates a (getx0y0 a u0 m0).1 (getx0y0 a u0 m0).2
               = Ok []).
  { rewrite clone_candidates_eval by done. f_equal.
    induction Hall as [|n l Hn _ IH]; [done|].
    cbn [map concat]. by rewrite Hn, IH. }
  split; [exact Hc|]. unfold AlgoClone_estimate.
  destruct (getx0y0 a u0 m0) as [x0 y0]. cbn [fst snd] in Hc.
  by rewrite Hc.
Qed.

Lemma well_formed_zero : well_formed algo_zero.
Proof. apply (bool_decide_unpack _). vm_compute. exact I. Defined.

Lemma clone_no_overlap_impossible_witness :
  clone_candidates algo_zero (getx0y0 algo_zero 1 3).1
    (getx0y0 algo_zero 1 3).2 = Ok []
  ∧ AlgoClone_estimate algo_zero 1 3 = Ok (set_est algo_zero 0%Qc).
Proof.
  apply (clone_no_overlap_impossible algo_zero 1 3).
  - exact well_formed_zero.
  - vm_compute. split; discriminate.
  - apply (bool_decide_unpack _). vm_compute. exact I.
Defined.

(** ** Clamping and recording together *)

(** X16. Clamping before recording erases the impossibility sentinel: after
    [cut_estimate(inf, sup)] with [0 < inf <= sup], [updatePreds] never
    flags the prediction impossible and records an estimate of
    [inf, sup], also when the estimator had left the sentinel 0. Recording
    first keeps the flag, and the default 3 is then clamped like any
    estimate. *)
Theorem cut_then_record (a : Algo) (inf sup : Qc) (u0 m0 r0 : Z) :
  (0 < inf)%Qc → (inf ≤ sup)%Qc →
  (∃ e, last (preds (updatePreds (cut_estimate a inf sup) u0 m0 r0))
          = Some (PredInfo false u0 m0 r0 e)
        ∧ (inf ≤ e)%Qc ∧ (e ≤ sup)%Qc
        ∧ (est a = 0%Qc → e = inf))
  ∧ last (preds (cut_estimate (updatePreds a u0 m0 r0) inf sup))
    = Some (PredInfo (bool_decide (est a = 0%Qc)) u0 m0 r0
              (if bool_decide (est a = 0%Qc) then zq 3 else est a)).
Proof.
  intros Hpos Hle. split.
  - exists (est (cut_estimate a inf sup)).
    assert (Hin : (inf ≤ est (cut_estimate a inf sup))%Qc
                  ∧ (est (cut_estimate a inf sup) ≤ sup)%Qc
                  ∧ (est a = 0%Qc → est (cut_estimate a inf sup) = inf)).
    { unfold cut_estimate. cbn [est set_est].
      repeat split; intros; repeat case_bool_decide; try done;
        unfold Qcle, Qclt in *;
        first [lra
              | exfalso; match goal with H : est a = _ |- _ =>
                           rewrite H in *; cbn in *; lra end
              | apply Qc_is_canon; lra]. }
    destruct Hin as (H1 & H2 & H3). repeat split; try done.
    unfold updatePreds. cbn [preds]. rewrite last_snoc.
    rewrite bool_decide_eq_false_2; [done|].
    intros H0. rewrite H0 in H1. unfold Qcle, Qclt in *. cbn in *. lra.
  - unfold cut_estimate, updatePreds. cbn [preds set_est].
    by rewrite last_snoc.
Qed.

Lemma cut_then_record_witness :
  (∃ e, last (preds (updatePreds (cut_estimate algo_ex (zq 1) (zq 5)) 1 4 3))
          = Some (PredInfo false 1 4 3 e)
        ∧ (zq 1 ≤ e)%Qc ∧ (e ≤ zq 5)%Qc
        ∧ (est algo_ex = 0%Qc → e = zq 1))
  ∧ last (preds (cut_estimate (updatePreds algo_ex 1 4 3) (zq 1) (zq 5)))
    = Some (PredInfo (bool_decide (est algo_ex = 0%Qc)) 1 4 3
              (if bool_decide (est algo_ex = 0%Qc) then zq 3
               else est algo_ex)).
Proof.
  apply (cut_then_record algo_ex (zq 1) (zq 5) 1 4 3).
  - apply (bool_decide_unpack _). vm_compute. exact I.
  - apply (bool_decide_unpack _). vm_compute. exact I.
Defined.

(** ** The neighbourhood of the KNN estimators *)

Lemma insert_desc_sorted x l :
  StronglySorted (fun p q : Z * Qc => (q.2 ≤ p.2)%Qc) l →
  StronglySorted (fun p q : Z * Qc => (q.2 ≤ p.2)%Qc) (insert_desc x l).
Proof.
  induction 1 as [|y l Hs IH Hy]; cbn [insert_desc].
  - repeat constructor.
  - case_bool_decide as Hc.
    + constructor; [by constructor|]. constructor; [done|].
      eapply Forall_impl; [exact Hy|]. intros q Hq. cbn in Hq.
      by etrans.
    + constructor; [done|].
      rewrite insert_desc_perm. constructor; [|done].
      apply Qclt_le_weak, Qcnot_le_lt, Hc.
Qed.

Lemma sorted_desc_sorted l :
  StronglySorted (fun p q : Z * Qc => (q.2 ≤ p.2)%Qc) (sorted_desc l).
Proof.
  unfold sorted_desc. induction l as [|x l IH]; cbn [foldr].
  - constructor.
  - by apply insert_desc_sorted.
Qed.

Lemma insert_desc_stable (v : Qc) x l :
  filter (fun p : Z * Qc => p.2 = v) (insert_desc x l)
  = filter (fun p : Z * Qc => p.2 = v) (x :: l).
Proof.
  induction l as [|y l IH]; [done|]. cbn [insert_desc].
  case_bool_decide as Hc; [done|].
  rewrite filter_cons, IH, !filter_cons.
  destruct (decide (y.2 = v)) as [Hy|Hy]; [|done].
  destruct (decide (x.2 = v)) as [Hx|Hx]; [|done].
  exfalso. apply Hc. rewrite Hy, Hx. apply Qcle_refl.
Qed.

Lemma sorted_desc_stable (v : Qc) l :
  filter (fun p : Z * Qc => p.2 = v) (sorted_desc l)
  = filter (fun p : Z * Qc => p.2 = v) l.
Proof.
  unfold sorted_desc. induction l as [|x l IH]; [done|].
  cbn [foldr]. by rewrite insert_desc_stable, !filter_cons, IH.
Qed.

(** X17. The neighbourhood [sorted(simX0, reverse=True)[:k]] for [k >= 0]
    holds the [min(k, len(simX0))] most similar entries, in decreasing
    similarity: with the entries left out it is a rearrangement of [simX0],
    and no entry left out is more similar than a selected one. The sort is
    stable: entries of equal similarity keep the order of [simX0]. *)
Theorem neighbours_top_k (k : Z) (simX0 : list (Z * Qc)) :
  0 ≤ k →
  let rest := drop (Z.to_nat k) (sorted_desc simX0) in
  neighbours k simX0 ++ rest ≡ₚ simX0
  ∧ len (neighbours k simX0) = Z.min k (len simX0)
  ∧ StronglySorted (fun p q : Z * Qc => (q.2 ≤ p.2)%Qc) (neighbours k simX0)
  ∧ (∀ p q, p ∈ neighbours k simX0 → q ∈ rest → (q.2 ≤ p.2)%Qc)
  ∧ (∀ v, filter (fun p : Z * Qc => p.2 = v) (neighbours k simX0 ++ rest)
          = filter (fun p : Z * Qc => p.2 = v) simX0).
Proof.
  intros Hk rest. unfold neighbours. subst rest.
  pose proof (sorted_desc_sorted simX0) as Hs.
  pose proof (sorted_desc_perm simX0) as Hp.
  split; [by rewrite take_drop|]. split.
  { unfold len. rewrite length_take, <- (Permutation_length Hp). lia. }
  split.
  { rewrite <- (take_drop (Z.to_nat k) (sorted_desc simX0)) in Hs.
    by apply StronglySorted_app_1_l in Hs. }
  split.
  { rewrite <- (take_drop (Z.to_nat k) (sorted_desc simX0)) in Hs.
    intros p q Hp' Hq.
    exact (StronglySorted_app_1_elem_of _ _ _ p q Hs Hp' Hq). }
  intros v. rewrite take_drop. apply sorted_desc_stable.
Qed.

Lemma neighbours_top_k_witness :
  let simX0 := [(1, zq 2); (2, zq 5); (3, zq 2); (4, zq 7)] in
  let rest := drop (Z.to_nat 2) (sorted_desc simX0) in
  neighbours 2 simX0 ++ rest ≡ₚ simX0
  ∧ len (neighbours 2 simX0) = Z.min 2 (len simX0)
  ∧ StronglySorted (fun p q : Z * Qc => (q.2 ≤ p.2)%Qc) (neighbours 2 simX0)
  ∧ (∀ p q, p ∈ neighbours 2 simX0 → q ∈ rest → (q.2 ≤ p.2)%Qc)
  ∧ (∀ v, filter (fun p : Z * Qc => p.2 = v) (neighbours 2 simX0 ++ rest)
          = filter (fun p : Z * Qc => p.2 = v) simX0).
Proof.
  apply (neighbours_top_k 2 [(1, zq 2); (2, zq 5); (3, zq 2); (4, zq 7)]).
  lia.
Defined.

(** ** The KNN estimate as a weighted mean *)




Lemma elem_of_raters (a : Algo) (y0 x : Z) :
  x ∈ raters a y0 ↔ 1 ≤ x ≤ lastXi a ∧ 0 < cell (rm a) x y0.
Proof.
  unfold raters. rewrite list_elem_of_filter, elem_of_range. intuition lia.
Qed.

Lemma simX0_of_eval (s : AlgoUsingSim) (x0 y0 : Z) :
  rm_shape (sim_base s) → square (lastXi (sim_base s)) (simMat s) →
  0 ≤ x0 ≤ lastXi (sim_base s) → 0 ≤ y0 ≤ lastYi (sim_base s) →
  simX0_of s x0 y0
    = Ok (map (fun x => (x, cell (simMat s) x0 x)) (raters (sim_base s) y0)).
Proof.
  intros [Hr Hc] [Hsr Hsc] Hx0 Hy0. unfold simX0_of, raters.
  apply (comprehension_ok _ _ (fun x => 0 < cell (rm (sim_base s)) x y0)
           (fun x => (x, cell (simMat s) x0 x))).
  - intros x Hx%elem_of_range. by rewrite get2_in by lia.
  - intros x Hx%elem_of_range _. by rewrite get2_in by lia.
Qed.





(** ** Exact clones *)

Lemma isClone_constant (c : list (Z * Z)) (d k : Z) :
  c ≠ [] → Forall (fun p => p.1 - p.2 = d) c →
  isClone (map fst c) (map snd c) k = bool_decide (Z.abs (d - k) ≤ 1).
Proof.
  intros Hne Hall. unfold isClone.
  assert (H : sumZ (map (fun wi => Z.abs (wi - k))
                        (zip_with Z.sub (map fst c) (map snd c)))
              = len c * Z.abs (d - k)
              ∧ len (zip_with Z.sub (map fst c) (map snd c)) = len c).
  { clear Hne. unfold sumZ, len.
    induction Hall as [|p c Hp _ [IH1 IH2]]; [done|].
    cbn [map zip_with foldr length]. rewrite IH1, Hp.
    apply Nat2Z.inj in IH2. rewrite IH2. split; [|done].
    rewrite Nat2Z.inj_succ. lia. }
  destruct H as [-> ->].
  assert (0 < len c) by (destruct c; [done|unfold len; cbn [length]; lia]).
  apply bool_decide_ext. nia.
Qed.

Lemma clone_new_exact (n : Z * Z) (c : list (Z * Z)) (d : Z) :
  c ≠ [] → Forall (fun p => p.1 - p.2 = d) c → -3 ≤ d ≤ 3 →
  clone_new n c = [n.2 + d - 1; n.2 + d; n.2 + d + 1].
Proof.
  intros Hne Hall Hd. unfold clone_new. destruct c as [|p c]; [done|].
  rewrite (list_filter_iff _ (fun k => Z.abs (d - k) ≤ 1)); cycle 1.
  { intros k. rewrite (isClone_constant _ d) by done.
    by rewrite bool_decide_spec. }
  assert (Hc : d = -3 ∨ d = -2 ∨ d = -1 ∨ d = 0 ∨ d = 1 ∨ d = 2 ∨ d = 3)
    by lia.
  destruct Hc as [->|[->|[->|[->|[->|[->| ->]]]]]]; vm_compute filter;
    cbn [map]; repeat (f_equal; try lia).
Qed.

Lemma sumQ_map_zq (l : list Z) : sumQ (map zq l) = zq (sumZ l).
Proof.
  unfold sumQ, sumZ. induction l as [|z l IH]; cbn [map foldr].
  - by rewrite zq_0.
  - rewrite IH. unfold zq. by rewrite Z2Qc_inj_add.
Qed.

(** X19. The Clone estimator on exact clones: when every rater [(x, rx)] of
    [y0] shares a Y-entity with [x0] and the ratings of [x0] exceed those of
    [x] by one constant [d] of -3..3 on all they share, that rater
    contributes the three candidates [rx + d - 1], [rx + d], [rx + d + 1],
    and the estimate is the mean of the corrected ratings [rx + d]. *)
Theorem clone_exact_estimate (a : Algo) (u0 m0 : Z) (offs : list Z) :
  let x0 := (getx0y0 a u0 m0).1 in
  let y0 := (getx0y0 a u0 m0).2 in
  well_formed a → 1 ≤ x0 ≤ lastXi a →
  dict_get (yr a) y0 ≠ [] →
  Forall2 (fun n d => common_of a x0 n.1 ≠ []
                      ∧ Forall (fun p => p.1 - p.2 = d) (common_of a x0 n.1)
                      ∧ -3 ≤ d ≤ 3)
          (dict_get (yr a) y0) offs →
  clone_candidates a x0 y0
    = Ok (concat (zip_with (fun n d => [n.2 + d - 1; n.2 + d; n.2 + d + 1])
                           (dict_get (yr a) y0) offs))
  ∧ AlgoClone_estimate a u0 m0
    = Ok (set_est a
            (zq (sumZ (zip_with (fun n d => (n.2 + d)%Z) (dict_get (yr a) y0)
                                offs))
             / zq (len (dict_get (yr a) y0)))%Qc).
Proof.
  intros x0 y0 Hwf Hx0 Hne Hall.
  assert (Hc : clone_candidates a x0 y0
    = Ok (concat (zip_with (fun n d => [n.2 + d - 1; n.2 + d; n.2 + d + 1])
                           (dict_get (yr a) y0) offs))).
  { rewrite clone_candidates_eval by done. f_equal. clear Hne.
    generalize dependent (dict_get (yr a) y0). intros ns Hall.
    induction Hall as [|n d ns ds (H1 & H2 & H3) _ IH]; [done|].
    cbn [map zip_with concat]. by rewrite IH, (clone_new_exact n _ d). }
  split; [exact Hc|]. unfold AlgoClone_estimate.
  destruct (getx0y0 a u0 m0) as [x0' y0']. cbn [fst snd] in x0, y0.
  subst x0 y0. rewrite Hc, bind_Ok.
  set (ns := dict_get (yr a) y0') in *.
  assert (Hs : sumZ (concat (zip_with
                 (fun n d => [n.2 + d - 1; n.2 + d; n.2 + d + 1]) ns offs))
               = 3 * sumZ (zip_with (fun n d => (n.2 + d)%Z) ns offs)
             ∧ len (concat (zip_with
                 (fun n d => [n.2 + d - 1; n.2 + d; n.2 + d + 1]) ns offs))
               = 3 * len ns).
  { clear Hc Hne. unfold sumZ, len.
    induction Hall as [|n d ns' ds _ _ [IH1 IH2]]; [done|].
    cbn [zip_with concat app foldr length]. rewrite IH1.
    split; [lia|]. rewrite !Nat2Z.inj_succ in *. lia. }
  destruct Hs as [Hs Hl].
  assert (Hpos : 0 < len ns).
  { destruct ns; [done|]. unfold len. cbn [length]. lia. }
  destruct (concat _) as [|c cs] eqn:Hcs.
  { exfalso. change (len (@nil Z)) with 0 in Hl. lia. }
  rewrite <- Hcs in *. rewrite np_mean_nonempty; cycle 1.
  { rewrite Hcs. discriminate. }
  rewrite bind_Ok, len_map, sumQ_map_zq, Hs, Hl. do 2 f_equal.
  assert (zq (len ns) ≠ 0%Qc) by (rewrite zq_eq0; lia).
  assert (zq 3 ≠ 0%Qc) by (by rewrite zq_eq0).
  unfold zq in *. rewrite !Z2Qc_inj_mul. by field.
Qed.

Lemma clone_exact_estimate_witness :
  clone_candidates algo_ex (getx0y0 algo_ex 1 4).1 (getx0y0 algo_ex 1 4).2
    = Ok (concat (zip_with (fun n d => [n.2 + d - 1; n.2 + d; n.2 + d + 1])
                    (dict_get (yr algo_ex) (getx0y0 algo_ex 1 4).2) [2; 0]))
  ∧ AlgoClone_estimate algo_ex 1 4
    = Ok (set_est algo_ex
            (zq (sumZ (zip_with (fun n d => (n.2 + d)%Z)
                         (dict_get (yr algo_ex) (getx0y0 algo_ex 1 4).2)
                         [2%Z; 0%Z]))
             / zq (len (dict_get (yr algo_ex) (getx0y0 algo_ex 1 4).2)))%Qc).
Proof.
  apply (clone_exact_estimate algo_ex 1 4 [2; 0]).
  - exact well_formed_ex.
  - vm_compute. split; discriminate.
  - vm_compute. discriminate.
  - apply (bool_decide_unpack _). vm_compute. exact I.
Defined.

(** ** Queries outside the known ids *)

Lemma get1_wrap {A} (l : list A) (i : Z) :
  - len l ≤ i < 0 → get1 l i = get1 l (i + len l).
Proof.
  intros Hi. unfold get1, py_index.
  rewrite (bool_decide_eq_false_2 (0 ≤ i < len l)) by lia.
  rewrite (bool_decide_eq_true_2 (- len l ≤ i < 0)) by lia.
  by rewrite (bool_decide_eq_true_2 (0 ≤ i + len l < len l)) by lia.
Qed.

Lemma get1_raises {A} (l : list A) (i : Z) :
  get1 l i = Raise IndexError ↔ ¬ (- len l ≤ i < len l).
Proof.
  split.
  - intros H Hi. destruct (decide (0 ≤ i)) as [Hp|Hn].
    + destruct (get1_total l i) as [v Hv]; [lia|]. congruence.
    + rewrite get1_wrap in H by lia.
      destruct (get1_total l (i + len l)) as [v Hv]; [lia|]. congruence.
  - intros Hi. unfold get1, py_index.
    rewrite (bool_decide_eq_false_2 (0 ≤ i < len l)) by lia.
    by rewrite (bool_decide_eq_false_2 (- len l ≤ i < 0)) by lia.
Qed.

(** X20. [getBaseline] on ids outside the known ones: the only error is
    [IndexError], raised exactly when [x] or [y] falls outside the bias
    array in both directions; a negative id within the length of the array
    does not raise but reads the bias of the entity counted from the end,
    as Python indexing does. *)
Theorem getBaseline_index_behaviour (s : AlgoWithBaseline) (x y : Z) :
  (getBaseline s x y = Raise IndexError
   ↔ ¬ (- len (xBiases s) ≤ x < len (xBiases s)
        ∧ - len (yBiases s) ≤ y < len (yBiases s)))
  ∧ (∀ e, getBaseline s x y = Raise e → e = IndexError)
  ∧ (- len (xBiases s) ≤ x < 0 →
     getBaseline s x y = getBaseline s (x + len (xBiases s)) y)
  ∧ (- len (yBiases s) ≤ y < 0 →
     getBaseline s x y = getBaseline s x (y + len (yBiases s))).
Proof.
  unfold getBaseline. split; [|split; [|split]].
  - destruct (get1 (xBiases s) x) as [xb|e] eqn:Hx.
    + rewrite bind_Ok. destruct (get1 (yBiases s) y) as [yb|e] eqn:Hy.
      * rewrite bind_Ok. split; [done|]. intros Hn. exfalso. apply Hn.
        split.
        -- destruct (decide (- len (xBiases s) ≤ x < len (xBiases s)));
             [done|].
           apply get1_raises in n. congruence.
        -- destruct (decide (- len (yBiases s) ≤ y < len (yBiases s)));
             [done|].
           apply get1_raises in n. congruence.
      * pose proof (get1_error _ _ _ Hy) as ->. split; [|done].
        intros _ [_ Hi]. by apply get1_raises in Hy.
    + pose proof (get1_error _ _ _ Hx) as ->. split; [|done].
      intros _ [Hi _]. by apply get1_raises in Hx.
  - intros e [H|(xb & _ & [H|(yb & _ & H)]%bind_error)]%bind_error.
    + by apply get1_error in H.
    + by apply get1_error in H.
    + discriminate.
  - intros Hx. by rewrite (get1_wrap (xBiases s) x) by done.
  - intros Hy. by rewrite (get1_wrap (yBiases s) y) by done.
Qed.

(** ** The MeanDiff estimator *)







(** ** The CollabMeanDiff estimator *)

Lemma collab_meanDiff_eval (a : Algo) (x0 x : Z) :
  rm_shape a → ids_valid (lastYi a) (xr a) →
  1 ≤ x0 ≤ lastXi a → 1 ≤ x ≤ lastXi a →
  collab_meanDiff a x0 x = Ok (collab_md a x0 x).
Proof.
  intros Hs Hids Hx0 Hx. unfold collab_meanDiff, collab_md, diffs_of.
  rewrite commonRatings_eval, bind_Ok by done.
  destruct (common_of a x0 x) as [|p c]; [done|].
  by rewrite np_mean_nonempty.
Qed.

(** X22. The CollabMeanDiff estimator on a relation of the declared shape,
    for a valid query: the call does not raise; the neighbourhood is that
    of the KNN estimator (the [k] most similar raters of [y0]) and each
    neighbour votes with its rating of [y0] plus the mean difference between
    the ratings of [x0] and its own (0 without a shared Y-entity); the
    estimate is the similarity-weighted mean of the votes, or the sentinel 0
    when the similarities of the neighbourhood sum to 0, which includes
    the case that nobody rated [y0]. *)
Theorem collab_meandiff_estimate_spec (s : AlgoBasicCollaborative)
    (u0 m0 : Z) :
  let a := sim_base (knn_sim s) in
  let x0 := (getx0y0 a u0 m0).1 in
  let y0 := (getx0y0 a u0 m0).2 in
  let top := neighbours (knn_k s)
               (map (fun x => (x, cell (simMat (knn_sim s)) x0 x))
                    (raters a y0)) in
  let votes := map (fun p => (zq (cell (rm a) p.1 y0) + collab_md a x0 p.1)%Qc)
                   top in
  rm_shape a → ids_valid (lastYi a) (xr a) →
  square (lastXi a) (simMat (knn_sim s)) →
  1 ≤ x0 ≤ lastXi a → 0 ≤ y0 ≤ lastYi a → 0 ≤ knn_k s →
  AlgoCollabMeanDiff_estimate s u0 m0
    = Ok (MkAlgoBasicCollaborative
            (with_est (knn_sim s)
               (if bool_decide (sumQ (map snd top) = 0%Qc) then 0%Qc
                else (sumQ (zip_with Qcmult votes (map snd top))
                      / sumQ (map snd top))%Qc))
            (knn_k s))
  ∧ (raters a y0 = [] → top = []).
Proof.
  intros a x0 y0 top votes Hrm Hids Hsq Hx0 Hy0 Hk. subst votes top.
  split; cycle 1.
  { intros H. rewrite H. unfold neighbours.
    cbn [map sorted_desc foldr]. by rewrite take_nil. }
  unfold AlgoCollabMeanDiff_estimate. fold a.
  destruct (getx0y0 a u0 m0) as [x0' y0'] eqn:Hq.
  cbn [fst snd] in x0, y0. subst x0 y0.
  assert (Hx0w : 0 ≤ x0' ≤ lastXi a) by lia.
  rewrite (simX0_of_eval (knn_sim s) x0' y0' Hrm Hsq Hx0w Hy0), bind_Ok.
  fold a. set (simX0 := map _ (raters a y0')).
  assert (Hin : ∀ p, p ∈ simX0 → 1 ≤ p.1 ≤ lastXi a).
  { intros p (x & -> & Hx%elem_of_raters)%list_elem_of_fmap. cbn [fst].
    tauto. }
  destruct simX0 as [|p0 simX0'] eqn:HsimX0.
  { unfold neighbours. cbn [map sorted_desc foldr]. rewrite take_nil.
    cbn [map sumQ foldr]. by rewrite bool_decide_eq_true_2. }
  rewrite <- HsimX0 in *.
  rewrite (forM_ok _ (fun p => (zq (cell (rm a) p.1 y0')
                                + collab_md a x0' p.1)%Qc)); cycle 1.
  { intros [x' v] Hp%elem_of_neighbours. apply Hin in Hp. cbn [fst] in *.
    destruct Hrm as [Hr Hc]. fold a.
    rewrite get2_in, bind_Ok by lia.
    by rewrite collab_meanDiff_eval, bind_Ok by done. }
  rewrite bind_Ok. unfold np_average.
  by case_bool_decide.
Qed.

Lemma collab_meandiff_estimate_spec_witness :
  let a := sim_base (knn_sim knn_solo) in
  let x0 := (getx0y0 a 1 1).1 in
  let y0 := (getx0y0 a 1 1).2 in
  let top := neighbours (knn_k knn_solo)
               (map (fun x => (x, cell (simMat (knn_sim knn_solo)) x0 x))
                    (raters a y0)) in
  let votes := map (fun p => (zq (cell (rm a) p.1 y0) + collab_md a x0 p.1)%Qc)
                   top in
  AlgoCollabMeanDiff_estimate knn_solo 1 1
    = Ok (MkAlgoBasicCollaborative
            (with_est (knn_sim knn_solo)
               (if bool_decide (sumQ (map snd top) = 0%Qc) then 0%Qc
                else (sumQ (zip_with Qcmult votes (map snd top))
                      / sumQ (map snd top))%Qc))
            (knn_k knn_solo))
  ∧ (raters a y0 = [] → top = []).
Proof.
  apply (collab_meandiff_estimate_spec knn_solo 1 1).
  - split; reflexivity.
  - apply (bool_decide_unpack _). vm_compute. exact I.
  - split; reflexivity.
  - vm_compute. split; discriminate.
  - vm_compute. split; discriminate.
  - vm_compute. discriminate.
Defined.

(** ** SGD on constant ratings *)

Lemma elem_of_iterAllRatings (a : Algo) (x y r : Z) :
  (x, y, r) ∈ iterAllRatings a ↔ ∃ l, (x, l) ∈ xr a ∧ (y, r) ∈ l.
Proof.
  unfold iterAllRatings. rewrite list_elem_of_In, in_concat. split.
  - intros (c & Hc%list_elem_of_In & Ht%list_elem_of_In).
    apply list_elem_of_fmap in Hc as ([x' l] & -> & Hl).
    apply list_elem_of_fmap in Ht as ([y' r'] & [= -> -> ->] & Hyr).
    by exists l.
  - intros (l & Hl & Hyr).
    exists (map (fun '(y, r) => (x, y, r)) l). split.
    + apply list_elem_of_In, list_elem_of_fmap. by exists (x, l).
    + apply list_elem_of_In, list_elem_of_fmap. by exists (y, r).
Qed.

Lemma sgd_step_zero (a : Algo) (v x y : Z) :
  0 ≤ x ≤ lastXi a → 0 ≤ y ≤ lastYi a →
  let s0 := MkAlgoWithBaseline a (zq v)
              (replicate (Z.to_nat (lastXi a + 1)) 0%Qc)
              (replicate (Z.to_nat (lastYi a + 1)) 0%Qc) in
  sgd_step s0 (x, y, v) = Ok s0.
Proof.
  intros Hx Hy s0. unfold sgd_step. cbn [xBiases yBiases mu bl_base s0].
  rewrite !get1_replicate, !bind_Ok by lia.
  assert (Hz : (0 + gamma * (zq v - (zq v + 0 + 0) - lambda4 * 0))%Qc
               = 0%Qc) by ring.
  rewrite Hz, set1_replicate, !bind_Ok by lia.
  by rewrite Hz, set1_replicate, bind_Ok by lia.
Qed.

(** X23. SGD on constant ratings: when every present rating is [v], so that
    the mean is [v], every update of [optimize_sgd] has error 0 and the
    twenty passes leave every bias at 0; the constructor with method
    ['sgd'] returns the mean [v] with zero biases, and the baseline of
    every valid pair is [v]. *)
Theorem sgd_constant_ratings (lastUi lastMi : Z) (rm0 : ndarray Z)
    (ur mr : ratings) (movieBased : bool) (v : Z) :
  let a := Algo_init lastUi lastMi rm0 ur mr movieBased in
  let s0 := MkAlgoWithBaseline a (zq v)
              (replicate (Z.to_nat (lastXi a + 1)) 0%Qc)
              (replicate (Z.to_nat (lastYi a + 1)) 0%Qc) in
  0 ≤ lastXi a → 0 ≤ lastYi a →
  present_ratings (rm a) ≠ [] →
  Forall (fun r => r = v) (present_ratings (rm a)) →
  Forall (fun kl => 0 ≤ kl.1 ≤ lastXi a) (xr a) →
  constant_ratings v (lastYi a) (xr a) →
  optimize_sgd s0 = Ok s0
  ∧ AlgoWithBaseline_init lastUi lastMi rm0 ur mr movieBased "sgd" = Ok s0
  ∧ ∀ x y, 0 ≤ x ≤ lastXi a → 0 ≤ y ≤ lastYi a →
      getBaseline s0 x y = Ok (zq v).
Proof.
  intros a s0 HX HY Hne Hall Hkeys Hxr.
  assert (Hmu : np_mean (map zq (present_ratings (rm a))) = Ok (zq v))
    by by apply mean_constant.
  assert (Hsgd : optimize_sgd s0 = Ok s0).
  { unfold optimize_sgd. apply foldM_fixed. intros _ _.
    apply foldM_fixed. intros [[x y] r] (l & Hl & Hyr)%elem_of_iterAllRatings.
    cbn [bl_base s0] in Hl. unfold constant_ratings in Hxr.
    rewrite Forall_forall in Hkeys, Hxr.
    specialize (Hkeys _ Hl). specialize (Hxr _ Hl). cbn [fst snd] in *.
    rewrite Forall_forall in Hxr. destruct (Hxr _ Hyr) as [Hy Hr].
    cbn [fst snd] in *. subst r. by apply sgd_step_zero. }
  split; [done|]. split.
  - unfold AlgoWithBaseline_init. fold a. rewrite Hmu, bind_Ok.
    unfold np_zeros.
    rewrite (bool_decide_eq_true_2 (0 ≤ lastXi a + 1)), bind_Ok by lia.
    rewrite (bool_decide_eq_true_2 (0 ≤ lastYi a + 1)), bind_Ok by lia.
    fold s0. by rewrite (bool_decide_eq_true_2 (_ = "sgd"%string)) by done.
  - intros x y Hx Hy. unfold getBaseline. cbn [xBiases yBiases mu s0].
    rewrite !get1_replicate, !bind_Ok by lia. f_equal. ring.
Qed.

Lemma sgd_constant_ratings_witness :
  let a := Algo_init 2 2 rm_const ur_const mr_const false in
  let s0 := MkAlgoWithBaseline a (zq 4)
              (replicate (Z.to_nat (lastXi a + 1)) 0%Qc)
              (replicate (Z.to_nat (lastYi a + 1)) 0%Qc) in
  optimize_sgd s0 = Ok s0
  ∧ AlgoWithBaseline_init 2 2 rm_const ur_const mr_const false "sgd" = Ok s0
  ∧ ∀ x y, 0 ≤ x ≤ lastXi a → 0 ≤ y ≤ lastYi a →
      getBaseline s0 x y = Ok (zq 4).
Proof.
  apply (sgd_constant_ratings 2 2 rm_const ur_const mr_const false 4).
  - vm_compute. discriminate.
  - vm_compute. discriminate.
  - vm_compute. discriminate.
  - apply (bool_decide_unpack _). vm_compute. exact I.
  - apply (bool_decide_unpack _). vm_compute. exact I.
  - apply (bool_decide_unpack _). vm_compute. exact I.
Defined.

(** ** KNN over the MSD matrix *)




